(** * CPU scheduling simulator: FCFS, SJF (preemptive), "priority" SJF and
      round-robin.

    A shallow embedding of the four scheduling functions of the Go program
    ([FCFSSchedule], [SJFSchedule], [SJFPrioritySchedule], [RRSchedule]) and
    proofs about the rows, Gantt slices and aggregate metrics they hand to
    the output routines.

    Conventions of the embedding.
    - Go's [int64] is a [Z] together with the wrap-around of every
      arithmetic operation ([Int64.add], [Int64.sub]); the inputs of a
      function are assumed to lie in the [int64] range ([int64_process]).
    - Go's [float64] is Rocq's primitive binary64 [float]; the conversion
      [float64(x)] of an integer is rounding to nearest-even.
    - Go's [int] (slice indices and lengths) is [nat].
    - A row of the schedule table is the seven integers that the code
      formats with [fmt.Sprint]; a slot of [schedule] that was never
      assigned (a nil slice) is [None].
    - The two [for] loops whose trip count is not a slice length (the tick
      loop of [SJFSchedule], the queue loop of [RRSchedule]) take fuel and
      return [None] when it runs out.
    - A scheduling function returns, next to what it prints, the contents
      of the caller's slice when it returns: Go slices share their backing
      array with the caller, and [sort.Slice] sorts in place. *)

From Stdlib Require Import ZArith List Lia Bool Arith Permutation Sorted.
From Stdlib Require Import Morphisms RelationClasses Setoid.
From Stdlib Require Import PrimFloat SpecFloat FloatOps.
From Stdlib Require Ascii String.
Import ListNotations.
Local Open Scope Z_scope.

(** ** 64-bit signed integers *)

Module Int64.

Definition MinInt64 : Z := - 2 ^ 63.
Definition MaxInt64 : Z := 2 ^ 63 - 1.

(** The value an [int64] holds after an operation whose mathematical
    result is [z]. *)
Definition wrap (z : Z) : Z := (z + 2 ^ 63) mod 2 ^ 64 - 2 ^ 63.

Definition add (a b : Z) : Z := wrap (a + b).
Definition sub (a b : Z) : Z := wrap (a - b).

Definition in_range (z : Z) : Prop := MinInt64 <= z <= MaxInt64.

End Int64.

(** ** 64-bit floating point *)

(** [float64(z)] for an integer [z]: the nearest binary64 value, ties to
    even. *)
Definition float64 (z : Z) : float :=
  SF2Prim (binary_normalize prec emax z 0 false).

(** ** The data of the program *)

Record Process := mkProcess {
  ProcessID     : Z;
  ArrivalTime   : Z;
  BurstDuration : Z;
  Priority      : Z
}.

Record TimeSlice := mkTimeSlice {
  PID   : Z;
  Start : Z;
  Stop  : Z
}.

(** One row of the schedule table, in the order of the columns
    "ID", "Priority", "Burst", "Arrival", "Wait", "Turnaround", "Exit". *)
Record Row := mkRow {
  rowID         : Z;
  rowPriority   : Z;
  rowBurst      : Z;
  rowArrival    : Z;
  rowWait       : Z;
  rowTurnaround : Z;
  rowExit       : Z
}.

(** What a scheduling function passes to [outputGantt] and
    [outputSchedule]. *)
Record Output := mkOutput {
  outGantt         : list TimeSlice;
  outSchedule      : list (option Row);
  outAveWait       : float;
  outAveTurnaround : float;
  outAveThroughput : float
}.

(** All four fields of a process are [int64] values. *)
Definition int64_process (p : Process) : Prop :=
  Int64.in_range (ProcessID p) /\ Int64.in_range (ArrivalTime p) /\
  Int64.in_range (BurstDuration p) /\ Int64.in_range (Priority p).

(** The zero value of [Process], what indexing yields in the model for an
    index that the code never uses. *)
Definition zeroProcess : Process := mkProcess 0 0 0 0.

(** ** Slices updated by index *)

(** [a[i] = x]. The code assigns only inside the bounds of [a]. *)
Fixpoint upd {A : Type} (i : nat) (x : A) (a : list A) : list A :=
  match a, i with
  | [], _ => []
  | _ :: a', O => x :: a'
  | y :: a', S i' => y :: upd i' x a'
  end.

(** ** [sort.Slice]

    [sort.Slice(x, less)] belongs to Go's standard library. It reorders [x]
    in place, reading the elements only through [less] and moving them only
    by swaps; the library promises a sorted permutation and no stability.
    The engine is therefore written against an interface: any function
    that returns a permutation of its argument, sorted whenever [less] is
    an ordering, and that commutes with every renaming of the elements
    that [less] cannot see. *)

(** What Go requires of [less]: a strict ordering whose incomparability is
    transitive. *)
Definition ordering {A : Type} (less : A -> A -> bool) : Prop :=
  (forall x, less x x = false) /\
  (forall x y z, less x y = true -> less y z = true -> less x z = true) /\
  (forall x y z, less x y = false -> less y z = false -> less x z = false).

(** Sorted by [less]: no element must sort before one that precedes it. *)
Definition sorted_by {A : Type} (less : A -> A -> bool) : list A -> Prop :=
  StronglySorted (fun x y => less y x = false).

Class SliceSort := {
  sort_Slice : forall {A : Type}, (A -> A -> bool) -> list A -> list A;
  sort_Slice_perm :
    forall (A : Type) (less : A -> A -> bool) (l : list A),
      Permutation l (sort_Slice less l);
  sort_Slice_sorted :
    forall (A : Type) (less : A -> A -> bool) (l : list A),
      ordering less -> sorted_by less (sort_Slice less l);
  sort_Slice_natural :
    forall (A B : Type) (f : A -> B) (lessA : A -> A -> bool)
           (lessB : B -> B -> bool),
      (forall x y, lessB (f x) (f y) = lessA x y) ->
      forall l : list A,
        sort_Slice lessB (map f l) = map f (sort_Slice lessA l)
}.

(** Insertion sort, the algorithm Go's [sort.Slice] runs on slices of at
    most twelve elements: each element in turn is swapped leftwards while
    it is [less] than its left neighbour. *)
Module InsertionSort.

(** [sink less x r]: [r] is the part of the slice left of [x], nearest
    neighbour first; the result is that part with [x] moved into place. *)
Fixpoint sink {A : Type} (less : A -> A -> bool) (x : A) (r : list A)
  : list A :=
  match r with
  | [] => [x]
  | y :: r' => if less x y then y :: sink less x r' else x :: y :: r'
  end.

Fixpoint loop {A : Type} (less : A -> A -> bool) (r l : list A) : list A :=
  match l with
  | [] => rev r
  | x :: l' => loop less (sink less x r) l'
  end.

Definition sort {A : Type} (less : A -> A -> bool) (l : list A) : list A :=
  loop less [] l.

End InsertionSort.

(** ** Loops over a slice *)

(** [for i, p := range a { st = body i p st }], with [i] starting at the
    given index. *)
Fixpoint for_range {A St : Type} (body : nat -> A -> St -> St)
  (i : nat) (a : list A) (st : St) : St :=
  match a with
  | [] => st
  | p :: a' => for_range body (S i) a' (body i p st)
  end.

(** The last four statements before the output calls, the same in the
    four functions: [count := float64(len(processes))] and the three
    quotients. *)
Definition report (n : nat) (totalWait totalTurnaround lastCompletion : float)
  (gantt : list TimeSlice) (schedule : list (option Row)) : Output :=
  let count := float64 (Z.of_nat n) in
  mkOutput gantt schedule
    (totalWait / count)%float
    (totalTurnaround / count)%float
    (count / lastCompletion)%float.

(** ** First-come, first-serve *)

Record FCFSState := mkFCFS {
  fServiceTime     : Z;
  fTotalWait       : float;
  fTotalTurnaround : float;
  fLastCompletion  : float;
  fWaitingTime     : Z;
  fSchedule        : list (option Row);
  fGantt           : list TimeSlice
}.

Definition FCFS_body (i : nat) (p : Process) (st : FCFSState) : FCFSState :=
  let waitingTime :=
    if 0 <? ArrivalTime p
    then Int64.sub (fServiceTime st) (ArrivalTime p)
    else fWaitingTime st in
  let totalWait := (fTotalWait st + float64 waitingTime)%float in
  let start := Int64.add waitingTime (ArrivalTime p) in
  let turnaround := Int64.add (BurstDuration p) waitingTime in
  let totalTurnaround := (fTotalTurnaround st + float64 turnaround)%float in
  let completion :=
    Int64.add (Int64.add (BurstDuration p) (ArrivalTime p)) waitingTime in
  let lastCompletion := float64 completion in
  let schedule :=
    upd i (Some (mkRow (ProcessID p) (Priority p) (BurstDuration p)
                   (ArrivalTime p) waitingTime turnaround completion))
      (fSchedule st) in
  let serviceTime := Int64.add (fServiceTime st) (BurstDuration p) in
  let gantt := fGantt st ++ [mkTimeSlice (ProcessID p) start serviceTime] in
  mkFCFS serviceTime totalWait totalTurnaround lastCompletion waitingTime
    schedule gantt.

Definition FCFS_init (processes : list Process) : FCFSState :=
  mkFCFS 0 0%float 0%float 0%float 0
    (repeat None (length processes)) [].

Definition FCFS_run (processes : list Process) : Output :=
  let st := for_range FCFS_body 0 processes (FCFS_init processes) in
  report (length processes) (fTotalWait st) (fTotalTurnaround st)
    (fLastCompletion st) (fGantt st) (fSchedule st).

(** The function reads [processes] and never assigns to it. *)
Definition FCFSSchedule (processes : list Process) : list Process * Output :=
  (processes, FCFS_run processes).

(** ** Shortest job first, preemptive *)

Record SJFState := mkSJF {
  sCurrentTime     : Z;
  sTotalWait       : float;
  sTotalTurnaround : float;
  sLastCompletion  : float;
  sWaitingTime     : Z;
  sSchedule        : list (option Row);
  sGantt           : list TimeSlice;
  sRemaining       : list Z;
  sCompleted       : list bool;
  sProcDone        : nat
}.

(** One iteration of the inner scan; the pair is [(shortestIdx,
    shortestTime)], with [None] for the index [-1]. *)
Definition SJF_scan_body (completed : list bool) (remainingBursts : list Z)
  (currentTime : Z) (i : nat) (p : Process) (acc : option nat * Z)
  : option nat * Z :=
  if negb (nth i completed false)
     && (ArrivalTime p <=? currentTime)
     && (nth i remainingBursts 0 <? snd acc)
  then (Some i, nth i remainingBursts 0)
  else acc.

Definition SJF_scan (processes : list Process) (st : SJFState)
  : option nat * Z :=
  for_range
    (SJF_scan_body (sCompleted st) (sRemaining st) (sCurrentTime st))
    0 processes (None, Int64.MaxInt64).

(** The process the tick is given to. *)
Definition SJF_select (processes : list Process) (st : SJFState)
  : option nat :=
  fst (SJF_scan processes st).

(** One iteration of the outer loop. *)
Definition SJF_body (processes : list Process) (st : SJFState) : SJFState :=
  match SJF_select processes st with
  | None =>
      mkSJF (Int64.add (sCurrentTime st) 1)
        (sTotalWait st) (sTotalTurnaround st) (sLastCompletion st)
        (sWaitingTime st) (sSchedule st) (sGantt st)
        (sRemaining st) (sCompleted st) (sProcDone st)
  | Some shortestIdx =>
      let currentTime := Int64.add (sCurrentTime st) 1 in
      let remainingBursts :=
        upd shortestIdx (Int64.sub (nth shortestIdx (sRemaining st) 0) 1)
          (sRemaining st) in
      if nth shortestIdx remainingBursts 0 =? 0 then
        let p := nth shortestIdx processes zeroProcess in
        let completed := upd shortestIdx true (sCompleted st) in
        let procDone := S (sProcDone st) in
        let waitingTime :=
          Int64.sub (Int64.sub currentTime (BurstDuration p))
            (ArrivalTime p) in
        let totalWait := (sTotalWait st + float64 waitingTime)%float in
        let turnaround := Int64.add (BurstDuration p) waitingTime in
        let totalTurnaround :=
          (sTotalTurnaround st + float64 turnaround)%float in
        let completion := currentTime in
        let lastCompletion := float64 completion in
        let schedule :=
          upd shortestIdx
            (Some (mkRow (ProcessID p) (Priority p) (BurstDuration p)
                     (ArrivalTime p) waitingTime turnaround completion))
            (sSchedule st) in
        let gantt :=
          sGantt st ++
          [mkTimeSlice (ProcessID p)
             (Int64.add (Int64.sub currentTime (BurstDuration p)) waitingTime)
             currentTime] in
        mkSJF currentTime totalWait totalTurnaround lastCompletion
          waitingTime schedule gantt remainingBursts completed procDone
      else
        mkSJF currentTime
          (sTotalWait st) (sTotalTurnaround st) (sLastCompletion st)
          (sWaitingTime st) (sSchedule st) (sGantt st)
          remainingBursts (sCompleted st) (sProcDone st)
  end.

(** [for procDone < n { ... }]: [None] when the fuel is used up before the
    loop condition fails. *)
Fixpoint SJF_loop (fuel : nat) (processes : list Process) (st : SJFState)
  : option SJFState :=
  if (sProcDone st <? length processes)%nat then
    match fuel with
    | O => None
    | S fuel' => SJF_loop fuel' processes (SJF_body processes st)
    end
  else Some st.

Definition SJF_init (processes : list Process) : SJFState :=
  let n := length processes in
  mkSJF 0 0%float 0%float 0%float 0
    (repeat None n) []
    (map BurstDuration processes) (repeat false n) 0.

Definition SJF_run (fuel : nat) (processes : list Process) : option Output :=
  match SJF_loop fuel processes (SJF_init processes) with
  | None => None
  | Some st =>
      Some (report (length processes) (sTotalWait st) (sTotalTurnaround st)
              (sLastCompletion st) (sGantt st) (sSchedule st))
  end.

(** The function reads [processes] and never assigns to it. *)
Definition SJFSchedule (fuel : nat) (processes : list Process)
  : option (list Process * Output) :=
  option_map (fun out => (processes, out)) (SJF_run fuel processes).

(** ** The two functions that sort: "priority" and round-robin *)

(** The closure given to [sort.Slice] by [SJFPrioritySchedule]. *)
Definition lessArrivalBurst (p q : Process) : bool :=
  if ArrivalTime p =? ArrivalTime q
  then BurstDuration p <? BurstDuration q
  else ArrivalTime p <? ArrivalTime q.

(** The closure given to [sort.Slice] by [RRSchedule]. *)
Definition lessArrival (p q : Process) : bool :=
  ArrivalTime p <? ArrivalTime q.

Record PrioState := mkPrio {
  pCurrentTime     : Z;
  pTotalWait       : float;
  pTotalTurnaround : float;
  pLastCompletion  : float;
  pWaitingTime     : Z;
  pSchedule        : list (option Row);
  pGantt           : list TimeSlice
}.

Definition Prio_body (idx : nat) (p : Process) (st : PrioState) : PrioState :=
  let '(waitingTime, currentTime) :=
    if pCurrentTime st <? ArrivalTime p
    then (0, ArrivalTime p)
    else (Int64.sub (pCurrentTime st) (ArrivalTime p), pCurrentTime st) in
  let totalWait := (pTotalWait st + float64 waitingTime)%float in
  let turnaround := Int64.add (BurstDuration p) waitingTime in
  let totalTurnaround := (pTotalTurnaround st + float64 turnaround)%float in
  let currentTime := Int64.add currentTime (BurstDuration p) in
  let completion := currentTime in
  let lastCompletion := float64 completion in
  let schedule :=
    upd idx (Some (mkRow (ProcessID p) (Priority p) (BurstDuration p)
                     (ArrivalTime p) waitingTime turnaround completion))
      (pSchedule st) in
  let gantt :=
    pGantt st ++
    [mkTimeSlice (ProcessID p) (Int64.sub currentTime (BurstDuration p))
       currentTime] in
  mkPrio currentTime totalWait totalTurnaround lastCompletion waitingTime
    schedule gantt.

Definition Prio_init (processes : list Process) : PrioState :=
  mkPrio 0 0%float 0%float 0%float 0 (repeat None (length processes)) [].

(** Everything after the call of [sort.Slice]. *)
Definition Prio_run (processes : list Process) : Output :=
  let st := for_range Prio_body 0 processes (Prio_init processes) in
  report (length processes) (pTotalWait st) (pTotalTurnaround st)
    (pLastCompletion st) (pGantt st) (pSchedule st).

(** [const quantum int64 = ((5 + 9 + 6) / 3)] *)
Definition quantum : Z := (5 + 9 + 6) / 3.

Record RRState := mkRR {
  rCurrentTime        : Z;
  rTotalWait          : float;
  rTotalTurnaround    : float;
  rLastCompletion     : float;
  rWaitingTime        : Z;
  rGantt              : list TimeSlice;
  rRemaining          : list Z;
  rCompletionTimes    : list Z;
  rQueue              : list nat;
  rCompletedProcesses : nat
}.

(** [for i := completedProcesses; i < len(processes) &&
         processes[i].ArrivalTime <= currentTime; i++
       { queue.PushBack(i); completedProcesses++ }]
    with [rest] the processes from index [i] on. *)
Fixpoint RR_arrivals (currentTime : Z) (rest : list Process) (i : nat)
  (queue : list nat) (completedProcesses : nat) : list nat * nat :=
  match rest with
  | [] => (queue, completedProcesses)
  | p :: rest' =>
      if ArrivalTime p <=? currentTime
      then RR_arrivals currentTime rest' (S i) (queue ++ [i])
             (S completedProcesses)
      else (queue, completedProcesses)
  end.

(** One iteration of the queue loop, for the queue [currentIdx :: queue]. *)
Definition RR_body (processes : list Process) (currentIdx : nat)
  (queue : list nat) (st : RRState) : RRState :=
  let currentProcess := nth currentIdx processes zeroProcess in
  let st1 :=
    if nth currentIdx (rRemaining st) 0 <=? quantum then
      let currentTime :=
        Int64.add (rCurrentTime st) (nth currentIdx (rRemaining st) 0) in
      let remainingBursts := upd currentIdx 0 (rRemaining st) in
      let waitingTime :=
        Int64.sub (Int64.sub currentTime (BurstDuration currentProcess))
          (ArrivalTime currentProcess) in
      let totalWait := (rTotalWait st + float64 waitingTime)%float in
      let turnaround := Int64.add (BurstDuration currentProcess) waitingTime in
      let totalTurnaround :=
        (rTotalTurnaround st + float64 turnaround)%float in
      let lastCompletion := float64 currentTime in
      let completionTimes := upd currentIdx currentTime (rCompletionTimes st) in
      let gantt :=
        rGantt st ++
        [mkTimeSlice (ProcessID currentProcess)
           (Int64.add
              (Int64.sub currentTime (BurstDuration currentProcess))
              waitingTime)
           currentTime] in
      mkRR currentTime totalWait totalTurnaround lastCompletion waitingTime
        gantt remainingBursts completionTimes queue
        (S (rCompletedProcesses st))
    else
      mkRR (Int64.add (rCurrentTime st) quantum)
        (rTotalWait st) (rTotalTurnaround st) (rLastCompletion st)
        (rWaitingTime st) (rGantt st)
        (upd currentIdx
           (Int64.sub (nth currentIdx (rRemaining st) 0) quantum)
           (rRemaining st))
        (rCompletionTimes st) (queue ++ [currentIdx])
        (rCompletedProcesses st) in
  let '(queue', completedProcesses) :=
    RR_arrivals (rCurrentTime st1)
      (skipn (rCompletedProcesses st1) processes) (rCompletedProcesses st1)
      (rQueue st1) (rCompletedProcesses st1) in
  mkRR (rCurrentTime st1) (rTotalWait st1) (rTotalTurnaround st1)
    (rLastCompletion st1) (rWaitingTime st1) (rGantt st1) (rRemaining st1)
    (rCompletionTimes st1) queue' completedProcesses.

(** [for queue.Len() > 0 { ... }]: [None] when the fuel is used up before
    the queue is empty. *)
Fixpoint RR_loop (fuel : nat) (processes : list Process) (st : RRState)
  : option RRState :=
  match rQueue st with
  | [] => Some st
  | currentIdx :: queue =>
      match fuel with
      | O => None
      | S fuel' =>
          RR_loop fuel' processes (RR_body processes currentIdx queue st)
      end
  end.

Definition RR_init (processes : list Process) : RRState :=
  let n := length processes in
  mkRR 0 0%float 0%float 0%float 0 []
    (map BurstDuration processes) (repeat 0 n)
    (if (0 <? n)%nat then [0%nat] else []) 0.

(** The body of the last loop, which fills the table from
    [completionTimes]. *)
Definition RR_row_body (completionTimes : list Z) (idx : nat) (p : Process)
  (schedule : list (option Row)) : list (option Row) :=
  let waitingTime :=
    Int64.sub (Int64.sub (nth idx completionTimes 0) (BurstDuration p))
      (ArrivalTime p) in
  let turnaround := Int64.add (BurstDuration p) waitingTime in
  upd idx
    (Some (mkRow (ProcessID p) (Priority p) (BurstDuration p)
             (ArrivalTime p) waitingTime turnaround
             (nth idx completionTimes 0)))
    schedule.

(** Everything after the call of [sort.Slice]. *)
Definition RR_run (fuel : nat) (processes : list Process) : option Output :=
  match RR_loop fuel processes (RR_init processes) with
  | None => None
  | Some st =>
      let schedule :=
        for_range (RR_row_body (rCompletionTimes st)) 0 processes
          (repeat None (length processes)) in
      Some (report (length processes) (rTotalWait st) (rTotalTurnaround st)
              (rLastCompletion st) (rGantt st) schedule)
  end.

Section Sorting.
Context {sorter : SliceSort}.

(** [sort.Slice(processes, ...)] reorders the caller's slice; the rest of
    the function runs on the reordered slice, which is what the caller
    holds afterwards. *)
Definition SJFPrioritySchedule (processes : list Process)
  : list Process * Output :=
  let processes := sort_Slice lessArrivalBurst processes in
  (processes, Prio_run processes).

Definition RRSchedule (fuel : nat) (processes : list Process)
  : option (list Process * Output) :=
  let processes := sort_Slice lessArrival processes in
  option_map (fun out => (processes, out)) (RR_run fuel processes).

End Sorting.

(** ** The vocabulary of the claims *)

(** [turnaround == burst + wait] and [completion == arrival + wait + burst],
    with Go's [+] on [int64]. *)
Definition row_ok (r : Row) : Prop :=
  rowTurnaround r = Int64.add (rowBurst r) (rowWait r) /\
  rowExit r = Int64.add (Int64.add (rowArrival r) (rowWait r)) (rowBurst r).

Definition slot_ok (o : option Row) : Prop :=
  match o with Some r => row_ok r | None => True end.

Definition rows_ok (schedule : list (option Row)) : Prop :=
  Forall slot_ok schedule.

(** Arrived and not complete. *)
Definition eligible (processes : list Process) (st : SJFState) (i : nat)
  : Prop :=
  (i < length processes)%nat /\
  nth i (sCompleted st) false = false /\
  ArrivalTime (nth i processes zeroProcess) <= sCurrentTime st.

(** What the scan can pick: eligible, with a remaining burst below the
    value [shortestTime] starts from. *)
Definition selectable (processes : list Process) (st : SJFState) (i : nat)
  : Prop :=
  eligible processes st i /\ nth i (sRemaining st) 0 < Int64.MaxInt64.

(** [i] has the least remaining burst of the candidates [C], and is the
    first index with it. *)
Definition first_shortest (st : SJFState) (C : nat -> Prop) (i : nat)
  : Prop :=
  C i /\
  forall j, C j ->
    nth i (sRemaining st) 0 <= nth j (sRemaining st) 0 /\
    ((j < i)%nat -> nth i (sRemaining st) 0 < nth j (sRemaining st) 0).

(** The output of a run whose loops did nothing: no slice, no row, and the
    three quotients [0/0]. *)
Definition undefined_report (o : Output) : Prop :=
  outGantt o = [] /\ outSchedule o = [] /\
  is_nan (outAveWait o) = true /\
  is_nan (outAveTurnaround o) = true /\
  is_nan (outAveThroughput o) = true.

(** The process a row was made from. *)
Definition row_process (r : Row) : Process :=
  mkProcess (rowID r) (rowArrival r) (rowBurst r) (rowPriority r).

(** A process, and a row, without their priority. *)
Definition forget_priority (p : Process) : Process :=
  mkProcess (ProcessID p) (ArrivalTime p) (BurstDuration p) 0.

Definition forget_row_priority (r : Row) : Row :=
  mkRow (rowID r) 0 (rowBurst r) (rowArrival r) (rowWait r)
    (rowTurnaround r) (rowExit r).

(** The order [sort.Slice] is asked for: arrival ascending, then burst
    ascending. *)
Definition arrival_then_burst (p q : Process) : Prop :=
  ArrivalTime p < ArrivalTime q \/
  (ArrivalTime p = ArrivalTime q /\ BurstDuration p <= BurstDuration q).

(** ** Reading a run *)

(** A process without priority, and the columns and slices of an output
    as plain numbers: id, arrival, burst, wait, turnaround, exit. *)
Definition P (id arrival burst : Z) : Process := mkProcess id arrival burst 0.

Definition rows (o : Output) : list (option (list Z)) :=
  map (option_map (fun r => [rowID r; rowArrival r; rowBurst r; rowWait r;
                             rowTurnaround r; rowExit r])) (outSchedule o).

Definition slices (o : Output) : list (Z * Z * Z) :=
  map (fun s => (PID s, Start s, Stop s)) (outGantt o).


(** * Properties *)

(** ** Arithmetic of [int64] *)

Module Int64Facts.
Import Int64.

Lemma wrap_in_range z : in_range (wrap z).
Proof.
  unfold in_range, wrap, MinInt64, MaxInt64.
  pose proof (Z.mod_pos_bound (z + 2 ^ 63) (2 ^ 64) ltac:(lia)). lia.
Qed.

Lemma wrap_id z : in_range z -> wrap z = z.
Proof.
  unfold in_range, wrap, MinInt64, MaxInt64. intros H.
  rewrite Z.mod_small; lia.
Qed.

Lemma wrap_eqm z : wrap z mod 2 ^ 64 = z mod 2 ^ 64.
Proof.
  unfold wrap.
  rewrite <- Zminus_mod_idemp_l, Z.mod_mod by lia.
  rewrite Zminus_mod_idemp_l. f_equal. lia.
Qed.

(** Two values that agree modulo [2^64] wrap to the same [int64]. *)
Lemma wrap_congr a b : a mod 2 ^ 64 = b mod 2 ^ 64 -> wrap a = wrap b.
Proof.
  intros H. unfold wrap.
  rewrite <- (Zplus_mod_idemp_l a), <- (Zplus_mod_idemp_l b), H.
  reflexivity.
Qed.

(** Equality modulo [2^64], under which [wrap] disappears and which
    sums and differences respect. *)
Inductive eqm64 (a b : Z) : Prop :=
| eqm64_intro : a mod 2 ^ 64 = b mod 2 ^ 64 -> eqm64 a b.

#[global] Instance eqm64_equiv : Equivalence eqm64.
Proof.
  split.
  - intros a. constructor. reflexivity.
  - intros a b [H]. constructor. congruence.
  - intros a b c [H1] [H2]. constructor. congruence.
Qed.

#[global] Instance eqm64_add : Proper (eqm64 ==> eqm64 ==> eqm64) Z.add.
Proof.
  intros a a' [Ha] b b' [Hb]. constructor.
  rewrite Zplus_mod, Ha, Hb, <- Zplus_mod. reflexivity.
Qed.

#[global] Instance eqm64_sub : Proper (eqm64 ==> eqm64 ==> eqm64) Z.sub.
Proof.
  intros a a' [Ha] b b' [Hb]. constructor.
  rewrite Zminus_mod, Ha, Hb, <- Zminus_mod. reflexivity.
Qed.

Lemma wrap_eqm64 z : eqm64 (wrap z) z.
Proof. constructor. apply wrap_eqm. Qed.

Lemma wrap_eqm64_congr a b : eqm64 a b -> wrap a = wrap b.
Proof. intros [H]. apply wrap_congr, H. Qed.

Lemma eqm64_of_eq a b : a = b -> eqm64 a b.
Proof. intros ->. reflexivity. Qed.

Lemma add_in_range a b : in_range (add a b).
Proof. apply wrap_in_range. Qed.

Lemma sub_in_range a b : in_range (sub a b).
Proof. apply wrap_in_range. Qed.

End Int64Facts.

(** ** Slices updated by index *)

Lemma upd_length {A} i (x : A) a : length (upd i x a) = length a.
Proof.
  revert i; induction a as [|y a IH]; intros [|i]; simpl; auto.
Qed.

Lemma nth_upd_same {A} i (x d : A) a :
  (i < length a)%nat -> nth i (upd i x a) d = x.
Proof.
  revert i; induction a as [|y a IH]; intros [|i]; simpl; intros H;
    try lia; auto. apply IH. lia.
Qed.

Lemma nth_upd_other {A} i j (x d : A) a :
  i <> j -> nth j (upd i x a) d = nth j a d.
Proof.
  revert i j; induction a as [|y a IH]; intros [|i] [|j]; simpl; intros H;
    try congruence; auto.
Qed.

Lemma Forall_upd {A} (P : A -> Prop) i x a :
  Forall P a -> P x -> Forall P (upd i x a).
Proof.
  intros Ha Hx. revert i.
  induction Ha as [|y a Hy Ha IH]; intros [|i]; simpl; constructor; auto.
Qed.

(** ** Insertion sort is a [SliceSort] *)

Module InsertionSortFacts.
Import InsertionSort.

Section Facts.
Context {A : Type} (less : A -> A -> bool).

Lemma sink_perm x r : Permutation (x :: r) (sink less x r).
Proof.
  induction r as [|y r IH]; simpl; auto.
  destruct (less x y); auto.
  rewrite perm_swap. constructor. exact IH.
Qed.

Lemma loop_perm r l : Permutation (rev r ++ l) (loop less r l).
Proof.
  revert r; induction l as [|x l IH]; intros r; simpl.
  - rewrite app_nil_r. reflexivity.
  - rewrite <- IH.
    rewrite <- (Permutation_rev (sink less x r)), <- sink_perm.
    rewrite <- (Permutation_rev r).
    symmetry. apply Permutation_middle.
Qed.

Lemma sort_perm l : Permutation l (sort less l).
Proof. exact (loop_perm [] l). Qed.

(** The part left of the cursor, read right to left. *)
Definition sunk : list A -> Prop :=
  StronglySorted (fun a b => less a b = false).

Lemma sink_sunk x r : ordering less -> sunk r -> sunk (sink less x r).
Proof.
  intros (Hirr & Htr & Hntr) Hr.
  induction Hr as [|y r Hr IH Hy]; simpl.
  - repeat constructor.
  - destruct (less x y) eqn:E.
    + constructor; [exact IH|].
      eapply Permutation_Forall; [apply sink_perm|].
      constructor; [|exact Hy].
      destruct (less y x) eqn:E'; [|reflexivity].
      rewrite <- (Hirr x). symmetry. eauto.
    + constructor; [constructor; assumption|].
      constructor; [exact E|].
      eapply Forall_impl; [|exact Hy]. simpl. intros z Hz. eauto.
Qed.

Lemma sorted_by_snoc l y :
  sorted_by less l -> Forall (fun b => less y b = false) l ->
  sorted_by less (l ++ [y]).
Proof.
  unfold sorted_by. intros Hs Hl.
  induction Hs as [|z l Hs IH Hz]; simpl.
  - repeat constructor.
  - inversion Hl; subst. constructor; [auto|].
    apply Forall_app. split; [exact Hz|]. repeat constructor. assumption.
Qed.

Lemma sunk_rev r : sunk r -> sorted_by less (rev r).
Proof.
  induction 1 as [|y r Hr IH Hy]; simpl; [constructor|].
  apply sorted_by_snoc; [exact IH|].
  eapply Permutation_Forall; [apply Permutation_rev|exact Hy].
Qed.

Lemma loop_sorted r l :
  ordering less -> sunk r -> sorted_by less (loop less r l).
Proof.
  intros Ho. revert r; induction l as [|x l IH]; intros r Hr; simpl.
  - apply sunk_rev, Hr.
  - apply IH, sink_sunk; assumption.
Qed.

Lemma sort_sorted l : ordering less -> sorted_by less (sort less l).
Proof. intros Ho. apply loop_sorted; [exact Ho|constructor]. Qed.

End Facts.

Section Natural.
Context {A B : Type} (f : A -> B).
Context (lessA : A -> A -> bool) (lessB : B -> B -> bool).
Hypothesis less_f : forall x y, lessB (f x) (f y) = lessA x y.

Lemma sink_map x r :
  sink lessB (f x) (map f r) = map f (sink lessA x r).
Proof.
  induction r as [|y r IH]; simpl; [reflexivity|].
  rewrite less_f. destruct (lessA x y); simpl; congruence.
Qed.

Lemma loop_map r l :
  loop lessB (map f r) (map f l) = map f (loop lessA r l).
Proof.
  revert r; induction l as [|x l IH]; intros r; simpl.
  - symmetry. apply map_rev.
  - rewrite sink_map. apply IH.
Qed.

Lemma sort_map l : sort lessB (map f l) = map f (sort lessA l).
Proof. exact (loop_map [] l). Qed.

End Natural.

End InsertionSortFacts.

#[export] Instance insertionSort : SliceSort := {
  sort_Slice := @InsertionSort.sort;
  sort_Slice_perm := @InsertionSortFacts.sort_perm;
  sort_Slice_sorted := @InsertionSortFacts.sort_sorted;
  sort_Slice_natural := @InsertionSortFacts.sort_map
}.


(** ** Arithmetic of [int64] expressions *)

(** Proves an equation between two [int64] expressions that are equal as
    integers once every wrap-around is ignored: both sides are compared
    modulo [2^64], where [wrap] disappears. *)
Ltac wrap_eq :=
  unfold Int64.add, Int64.sub;
  apply Int64Facts.wrap_eqm64_congr;
  repeat match goal with
         | |- context [Int64.wrap ?t] => rewrite (Int64Facts.wrap_eqm64 t)
         end;
  apply Int64Facts.eqm64_of_eq; lia.

(** ** Loops *)

Lemma for_range_inv {A St : Type} (Inv : St -> Prop)
  (body : nat -> A -> St -> St) (a : list A) :
  (forall i p st, In p a -> Inv st -> Inv (body i p st)) ->
  forall i st, Inv st -> Inv (for_range body i a st).
Proof.
  induction a as [|p a IH]; intros Hbody i st Hst; simpl; [exact Hst|].
  apply IH.
  - intros j q st' Hq. apply Hbody. right. exact Hq.
  - apply Hbody; [left; reflexivity|exact Hst].
Qed.

(** ** The two identities of a row *)

(** Where the sums fit in an [int64], the identities are those of the
    integers. *)
Lemma row_ok_exact r :
  row_ok r ->
  Int64.in_range (rowBurst r + rowWait r) ->
  Int64.in_range (rowArrival r + rowWait r + rowBurst r) ->
  rowTurnaround r = rowBurst r + rowWait r /\
  rowExit r = rowArrival r + rowWait r + rowBurst r.
Proof.
  intros [Ht He] H1 H2. split.
  - rewrite Ht. apply Int64Facts.wrap_id, H1.
  - rewrite He. rewrite <- (Int64Facts.wrap_id _ H2). wrap_eq.
Qed.

Lemma rows_ok_repeat n : rows_ok (repeat None n).
Proof.
  apply Forall_forall. intros o Ho. apply repeat_spec in Ho. subst. exact I.
Qed.

Lemma FCFS_rows_ok ps : rows_ok (outSchedule (FCFS_run ps)).
Proof.
  unfold FCFS_run. simpl.
  apply (for_range_inv (fun st => rows_ok (fSchedule st))).
  - intros i p st _ Hst. simpl. apply Forall_upd; [exact Hst|].
    split; simpl; [reflexivity|]. wrap_eq.
  - apply rows_ok_repeat.
Qed.

Lemma Prio_rows_ok ps : rows_ok (outSchedule (Prio_run ps)).
Proof.
  unfold Prio_run. simpl.
  apply (for_range_inv (fun st => rows_ok (pSchedule st))).
  - intros i p st _ Hst. unfold Prio_body.
    destruct (pCurrentTime st <? ArrivalTime p); simpl;
      (apply Forall_upd; [exact Hst|]); split; simpl;
      try reflexivity; wrap_eq.
  - apply rows_ok_repeat.
Qed.

Lemma RR_rows_ok ct ps i sched :
  Forall Int64.in_range ct -> rows_ok sched ->
  rows_ok (for_range (RR_row_body ct) i ps sched).
Proof.
  intros Hct. apply for_range_inv. clear i sched.
  intros i p sched _ Hs. apply Forall_upd; [exact Hs|].
  split; simpl; [reflexivity|].
  assert (Hc : Int64.in_range (nth i ct 0)).
  { destruct (Nat.lt_ge_cases i (length ct)) as [Hi|Hi].
    - eapply Forall_forall; [exact Hct|]. apply nth_In, Hi.
    - rewrite nth_overflow by exact Hi.
      unfold Int64.in_range, Int64.MinInt64, Int64.MaxInt64. lia. }
  rewrite <- (Int64Facts.wrap_id _ Hc) at 1. wrap_eq.
Qed.

Lemma SJF_body_rows_ok ps st :
  rows_ok (sSchedule st) -> rows_ok (sSchedule (SJF_body ps st)).
Proof.
  intros Hst. unfold SJF_body.
  destruct (SJF_select ps st) as [idx|]; simpl; [|exact Hst].
  match goal with |- context [if ?c then _ else _] => destruct c end;
    simpl; [|exact Hst].
  apply Forall_upd; [exact Hst|].
  split; simpl; [reflexivity|].
  rewrite <- (Int64Facts.wrap_id _
                (Int64Facts.add_in_range (sCurrentTime st) 1)) at 1.
  wrap_eq.
Qed.

Lemma SJF_loop_inv (Inv : SJFState -> Prop) ps :
  (forall st, Inv st -> Inv (SJF_body ps st)) ->
  forall fuel st st', Inv st -> SJF_loop fuel ps st = Some st' -> Inv st'.
Proof.
  intros Hbody. induction fuel as [|fuel IH]; intros st st' Hst; simpl;
    destruct (sProcDone st <? length ps)%nat; try discriminate;
    try (intros [= <-]; exact Hst).
  apply IH, Hbody, Hst.
Qed.

Lemma SJF_rows_ok fuel ps out :
  SJF_run fuel ps = Some out -> rows_ok (outSchedule out).
Proof.
  unfold SJF_run.
  destruct (SJF_loop fuel ps (SJF_init ps)) as [st|] eqn:E; [|discriminate].
  intros [= <-]. simpl.
  apply (SJF_loop_inv (fun st => rows_ok (sSchedule st)) ps
           (SJF_body_rows_ok ps) fuel (SJF_init ps) st); [|exact E].
  apply rows_ok_repeat.
Qed.

(** Round-robin: every completion time is an [int64]. *)
Lemma RR_body_completion_in_range ps idx q st :
  Forall Int64.in_range (rCompletionTimes st) ->
  Forall Int64.in_range (rCompletionTimes (RR_body ps idx q st)).
Proof.
  intros H. unfold RR_body.
  destruct (nth idx (rRemaining st) 0 <=? quantum);
    match goal with
    | |- context [RR_arrivals ?a ?b ?c ?d ?e] =>
        destruct (RR_arrivals a b c d e)
    end; simpl; [|exact H].
  apply Forall_upd; [exact H|apply Int64Facts.add_in_range].
Qed.

Lemma RR_loop_inv (Inv : RRState -> Prop) ps :
  (forall idx q st,
      rQueue st = idx :: q -> Inv st -> Inv (RR_body ps idx q st)) ->
  forall fuel st st', Inv st -> RR_loop fuel ps st = Some st' -> Inv st'.
Proof.
  intros Hbody. induction fuel as [|fuel IH]; intros st st' Hst; simpl;
    destruct (rQueue st) as [|idx q] eqn:Hq; try discriminate;
    try (intros [= <-]; exact Hst).
  apply IH, Hbody; assumption.
Qed.

Lemma RR_run_rows_ok fuel ps out :
  RR_run fuel ps = Some out -> rows_ok (outSchedule out).
Proof.
  unfold RR_run.
  destruct (RR_loop fuel ps (RR_init ps)) as [st|] eqn:E; [|discriminate].
  intros [= <-]. simpl.
  apply RR_rows_ok; [|apply rows_ok_repeat].
  apply (RR_loop_inv (fun st => Forall Int64.in_range (rCompletionTimes st))
           ps (fun idx q st _ => RR_body_completion_in_range ps idx q st)
           fuel _ _) in E; [exact E|].
  simpl. apply Forall_forall. intros z Hz. apply repeat_spec in Hz. subst.
  unfold Int64.in_range, Int64.MinInt64, Int64.MaxInt64. lia.
Qed.

(** Round-robin: the loop indexes inside the bounds of its slices. Every
    index in the queue is an index of [processes], and [remainingBursts]
    and [completionTimes] keep the length of [processes]. *)
Definition RR_in_bounds (ps : list Process) (st : RRState) : Prop :=
  Forall (fun i => (i < length ps)%nat) (rQueue st) /\
  length (rRemaining st) = length ps /\
  length (rCompletionTimes st) = length ps.

Lemma RR_arrivals_in_bounds n ct rest :
  forall i q cp,
    (i + length rest <= n)%nat ->
    Forall (fun i => (i < n)%nat) q ->
    Forall (fun i => (i < n)%nat) (fst (RR_arrivals ct rest i q cp)).
Proof.
  induction rest as [|p rest IH]; intros i q cp Hi Hq; simpl; [exact Hq|].
  simpl in Hi. destruct (ArrivalTime p <=? ct); [|exact Hq].
  apply IH; [lia|]. apply Forall_app. split; [exact Hq|].
  repeat constructor. lia.
Qed.

Lemma RR_body_in_bounds ps idx q st :
  rQueue st = idx :: q -> RR_in_bounds ps st ->
  RR_in_bounds ps (RR_body ps idx q st).
Proof.
  intros Hq (Hqueue & Hr & Hc). rewrite Hq in Hqueue.
  inversion Hqueue as [|? ? Hidx Hrest]; subst.
  unfold RR_body.
  set (st1 := if nth idx (rRemaining st) 0 <=? quantum then _ else _).
  assert (H1 : Forall (fun i => (i < length ps)%nat) (rQueue st1) /\
               length (rRemaining st1) = length ps /\
               length (rCompletionTimes st1) = length ps).
  { subst st1. destruct (nth idx (rRemaining st) 0 <=? quantum);
      cbn [rQueue rRemaining rCompletionTimes]; rewrite ?upd_length;
      repeat split; auto.
    apply Forall_app. split; [exact Hrest|]. repeat constructor. exact Hidx. }
  destruct H1 as (H1q & H1r & H1c).
  pose proof (RR_arrivals_in_bounds (length ps) (rCurrentTime st1)
                (skipn (rCompletedProcesses st1) ps)) as Ha.
  destruct (Nat.le_gt_cases (rCompletedProcesses st1) (length ps)) as [Hle|Hgt].
  - specialize (Ha (rCompletedProcesses st1) (rQueue st1)
                  (rCompletedProcesses st1)).
    rewrite length_skipn in Ha. specialize (Ha ltac:(lia) H1q).
    destruct (RR_arrivals _ _ _ _ _) as [q' cp'].
    split; [exact Ha|]. split; assumption.
  - rewrite skipn_all2 by lia. simpl. split; [exact H1q|]. split; assumption.
Qed.

Lemma RR_init_in_bounds ps : RR_in_bounds ps (RR_init ps).
Proof.
  unfold RR_in_bounds, RR_init. cbn [rQueue rRemaining rCompletionTimes].
  rewrite length_map, repeat_length. repeat split.
  destruct (Nat.ltb_spec 0 (length ps)); repeat constructor. assumption.
Qed.

Lemma RR_loop_in_bounds fuel ps st :
  RR_loop fuel ps (RR_init ps) = Some st -> RR_in_bounds ps st.
Proof.
  apply (RR_loop_inv (RR_in_bounds ps) ps (RR_body_in_bounds ps)).
  apply RR_init_in_bounds.
Qed.

(** ** The queue loop of round-robin always ends *)

Module RRTermination.

(** Work still queued: bursts not yet served. *)
Fixpoint pending (remainingBursts : list Z) : Z :=
  match remainingBursts with
  | [] => 0
  | r :: l => Z.max 0 r + pending l
  end.

(** The variant of the loop: queue entries, processes the cursor has not
    reached, and pending bursts. *)
Definition variant (ps : list Process) (st : RRState) : Z :=
  Z.of_nat (length (rQueue st))
  + Z.of_nat (length ps - rCompletedProcesses st)
  + pending (rRemaining st).

Lemma pending_nonneg l : 0 <= pending l.
Proof. induction l; simpl; lia. Qed.

Lemma pending_upd i x l :
  (i < length l)%nat ->
  pending (upd i x l) = pending l - Z.max 0 (nth i l 0) + Z.max 0 x.
Proof.
  revert i; induction l as [|y l IH]; intros [|i]; simpl; intros H;
    try lia.
  rewrite IH by lia. lia.
Qed.

Lemma upd_overflow {A} i (x : A) l : (length l <= i)%nat -> upd i x l = l.
Proof.
  revert i; induction l as [|y l IH]; intros [|i]; simpl; intros H;
    try lia; auto. f_equal. apply IH. lia.
Qed.

Lemma wrap_le z : Int64.MinInt64 <= z -> Int64.wrap z <= z.
Proof.
  unfold Int64.wrap, Int64.MinInt64. intros H.
  pose proof (Z.mod_le (z + 2 ^ 63) (2 ^ 64) ltac:(lia) ltac:(lia)). lia.
Qed.

Lemma arrivals_count ct rest i q cp :
  let r := RR_arrivals ct rest i q cp in
  (length (fst r) - length q = snd r - cp)%nat /\
  (length q <= length (fst r))%nat /\
  (snd r - cp <= length rest)%nat /\ (cp <= snd r)%nat.
Proof.
  revert i q cp; induction rest as [|p rest IH]; intros i q cp; simpl.
  - lia.
  - destruct (ArrivalTime p <=? ct); simpl; [|lia].
    specialize (IH (S i) (q ++ [i]) (S cp)). simpl in IH.
    rewrite length_app in IH. simpl in IH. lia.
Qed.

Lemma body_decreases ps idx q st :
  rQueue st = idx :: q ->
  variant ps (RR_body ps idx q st) < variant ps st.
Proof.
  intros Hq. unfold variant at 2. rewrite Hq. cbn [length].
  unfold RR_body.
  set (st1 := if nth idx (rRemaining st) 0 <=? quantum then _ else _).
  assert (H1 : Z.of_nat (length (rQueue st1))
               + Z.of_nat (length ps - rCompletedProcesses st1)
               + pending (rRemaining st1)
               < Z.of_nat (S (length q))
                 + Z.of_nat (length ps - rCompletedProcesses st)
                 + pending (rRemaining st)).
  { subst st1.
    destruct (nth idx (rRemaining st) 0 <=? quantum) eqn:E;
      cbn [rQueue rCompletedProcesses rRemaining].
    - destruct (Nat.lt_ge_cases idx (length (rRemaining st))) as [Hi|Hi].
      + rewrite pending_upd by exact Hi. lia.
      + rewrite upd_overflow by exact Hi. lia.
    - apply Z.leb_gt in E. change quantum with 6 in *.
      assert (Hi : (idx < length (rRemaining st))%nat).
      { destruct (Nat.lt_ge_cases idx (length (rRemaining st))); auto.
        rewrite nth_overflow in E by assumption. lia. }
      rewrite pending_upd by exact Hi. rewrite length_app.
      cbn [length]. unfold Int64.sub.
      pose proof (wrap_le (nth idx (rRemaining st) 0 - 6)
                    ltac:(unfold Int64.MinInt64; lia)).
      lia. }
  pose proof (arrivals_count (rCurrentTime st1)
                (skipn (rCompletedProcesses st1) ps)
                (rCompletedProcesses st1) (rQueue st1)
                (rCompletedProcesses st1)) as Ha.
  destruct (RR_arrivals _ _ _ _ _) as [q' cp']. simpl in Ha.
  rewrite length_skipn in Ha. unfold variant.
  cbn [rQueue rCompletedProcesses rRemaining]. lia.
Qed.

Lemma loop_total ps :
  forall fuel st,
    variant ps st < Z.of_nat fuel ->
    exists st', RR_loop fuel ps st = Some st'.
Proof.
  induction fuel as [|fuel IH]; intros st Hv.
  - unfold variant in Hv. pose proof (pending_nonneg (rRemaining st)). lia.
  - simpl. destruct (rQueue st) as [|idx q] eqn:Hq; [eauto|].
    apply IH. pose proof (body_decreases ps idx q st Hq). lia.
Qed.

End RRTermination.

(** For every input the queue loop of [RRSchedule] ends. *)
Lemma RR_run_total ps : exists fuel out, RR_run fuel ps = Some out.
Proof.
  set (v := RRTermination.variant ps (RR_init ps)).
  destruct (RRTermination.loop_total ps (S (Z.to_nat v)) (RR_init ps))
    as [st Hst].
  - fold v. lia.
  - exists (S (Z.to_nat v)). unfold RR_run. rewrite Hst. eauto.
Qed.

(** ** The scan of [SJFSchedule] *)

Section Scan.
Variable processes : list Process.
Variable st : SJFState.

Lemma first_shortest_unique C i j :
  first_shortest st C i -> first_shortest st C j -> i = j.
Proof.
  intros [Hi Hmi] [Hj Hmj].
  destruct (Hmi j Hj) as [H1 H2], (Hmj i Hi) as [H3 H4].
  destruct (Nat.lt_trichotomy i j) as [H|[H|H]]; auto;
    [specialize (H4 H)|specialize (H2 H)]; lia.
Qed.

(** The state of the scan before index [k]. *)
Let scanned (k : nat) (acc : option nat * Z) : Prop :=
  match fst acc with
  | None =>
      snd acc = Int64.MaxInt64 /\
      forall j, (j < k)%nat -> ~ selectable processes st j
  | Some i =>
      (i < k)%nat /\ selectable processes st i /\
      snd acc = nth i (sRemaining st) 0 /\
      forall j, (j < k)%nat -> selectable processes st j ->
        nth i (sRemaining st) 0 <= nth j (sRemaining st) 0 /\
        ((j < i)%nat -> nth i (sRemaining st) 0 < nth j (sRemaining st) 0)
  end.

Lemma scan_test p k (acc : option nat * Z) :
  nth k processes zeroProcess = p -> (k < length processes)%nat ->
  negb (nth k (sCompleted st) false)
  && (ArrivalTime p <=? sCurrentTime st)
  && (nth k (sRemaining st) 0 <? snd acc) = true <->
  eligible processes st k /\ nth k (sRemaining st) 0 < snd acc.
Proof.
  intros Hp Hk. unfold eligible. rewrite Hp.
  rewrite !andb_true_iff, negb_true_iff, Z.leb_le, Z.ltb_lt.
  tauto.
Qed.

Lemma scan_step p k acc :
  nth k processes zeroProcess = p -> (k < length processes)%nat ->
  scanned k acc ->
  scanned (S k)
    (SJF_scan_body (sCompleted st) (sRemaining st) (sCurrentTime st)
       k p acc).
Proof.
  intros Hp Hk. unfold SJF_scan_body, scanned.
  pose proof (scan_test p k acc Hp Hk) as Ht.
  destruct (negb _ && _ && _); cbn [fst snd].
  - (* a new shortest *)
    destruct Ht as [Ht _]. destruct (Ht eq_refl) as [Hel Hlt]. clear Ht.
    destruct (fst acc) as [i|].
    + intros (Hi & [_ Hs] & Hv & Hm).
      split; [lia|]. split; [split; [exact Hel|lia]|].
      split; [reflexivity|].
      intros j Hj Hsel. destruct (Nat.eq_dec j k) as [->|Hne]; [lia|].
      destruct (Hm j ltac:(lia) Hsel). lia.
    + intros (Hv & Hm).
      split; [lia|]. split; [split; [exact Hel|lia]|].
      split; [reflexivity|].
      intros j Hj Hsel. destruct (Nat.eq_dec j k) as [->|Hne]; [lia|].
      exfalso. apply (Hm j); [lia|exact Hsel].
  - (* the best so far stays *)
    assert (Hno : eligible processes st k ->
                  snd acc <= nth k (sRemaining st) 0).
    { intros Hel.
      destruct (Z.lt_ge_cases (nth k (sRemaining st) 0) (snd acc));
        [|assumption].
      destruct Ht as [_ Ht]. discriminate Ht. split; assumption. }
    clear Ht.
    destruct (fst acc) as [i|].
    + intros (Hi & Hs & Hv & Hm).
      split; [lia|]. split; [exact Hs|]. split; [exact Hv|].
      intros j Hj Hsel. destruct (Nat.eq_dec j k) as [->|Hne].
      * destruct Hsel as [Hel _]. specialize (Hno Hel). lia.
      * apply Hm; [lia|exact Hsel].
    + intros (Hv & Hm). split; [exact Hv|].
      intros j Hj Hsel. destruct (Nat.eq_dec j k) as [->|Hne].
      * destruct Hsel as [Hel Hlt]. specialize (Hno Hel). lia.
      * apply (Hm j); [lia|exact Hsel].
Qed.

Lemma scan_suffix l :
  forall pre acc,
    processes = pre ++ l -> scanned (length pre) acc ->
    scanned (length processes)
      (for_range
         (SJF_scan_body (sCompleted st) (sRemaining st) (sCurrentTime st))
         (length pre) l acc).
Proof.
  induction l as [|p l IH]; intros pre acc Hps Hacc; simpl.
  - rewrite Hps, app_nil_r. exact Hacc.
  - assert (Hps' : processes = (pre ++ [p]) ++ l).
    { rewrite <- app_assoc. exact Hps. }
    specialize (IH (pre ++ [p])).
    rewrite length_app, Nat.add_1_r in IH.
    apply IH; [exact Hps'|].
    apply scan_step; [| |exact Hacc].
    + rewrite Hps, app_nth2, Nat.sub_diag by lia. reflexivity.
    + rewrite Hps, length_app. simpl. lia.
Qed.

(** The scan returns the first of the selectable processes with the
    least remaining burst, and [-1] when none is selectable. *)
Lemma SJF_select_spec :
  match SJF_select processes st with
  | Some i => first_shortest st (selectable processes st) i
  | None => forall j, ~ selectable processes st j
  end.
Proof.
  pose proof (scan_suffix processes [] (None, Int64.MaxInt64) eq_refl)
    as H.
  unfold SJF_select, SJF_scan. simpl length in H.
  unfold scanned in H at 2.
  destruct (fst (for_range _ 0%nat processes _)) as [i|].
  - destruct H as (Hi & Hs & _ & Hm).
    + simpl. split; [reflexivity|]. intros j Hj. lia.
    + split; [exact Hs|]. intros j Hj. apply Hm; [|exact Hj].
      destruct Hj as [[Hj _] _]. exact Hj.
  - destruct H as (_ & Hm).
    + simpl. split; [reflexivity|]. intros j Hj. lia.
    + intros j Hj. apply (Hm j); [|exact Hj].
      destruct Hj as [[Hj' _] _]. exact Hj'.
Qed.

Lemma SJF_select_Some i :
  SJF_select processes st = Some i <->
  first_shortest st (selectable processes st) i.
Proof.
  pose proof SJF_select_spec as H.
  destruct (SJF_select processes st) as [i'|]; split.
  - intros [= ->]. exact H.
  - intros Hi. f_equal. eapply first_shortest_unique; eassumption.
  - discriminate.
  - intros [Hi _]. destruct (H i Hi).
Qed.

Lemma SJF_select_None :
  SJF_select processes st = None <-> forall j, ~ selectable processes st j.
Proof.
  pose proof SJF_select_spec as H.
  destruct (SJF_select processes st) as [i'|]; split; auto.
  - discriminate.
  - intros Hno. destruct H as [Hi _]. destruct (Hno i' Hi).
Qed.

End Scan.

(** ** The tick loop of [SJFSchedule] *)

(** Processes whose [completed] flag is still false. *)
Fixpoint unfinished (completed : list bool) : nat :=
  match completed with
  | [] => 0
  | b :: c => (if b then 0 else 1) + unfinished c
  end.

(** Ticks still owed to the unfinished processes. *)
Fixpoint work (completed : list bool) (remainingBursts : list Z) : Z :=
  match completed, remainingBursts with
  | b :: c, r :: l => (if b then 0 else r) + work c l
  | _, _ => 0
  end.

Lemma unfinished_repeat n : unfinished (repeat false n) = n.
Proof. induction n; simpl; auto. Qed.

Lemma unfinished_upd i c :
  (i < length c)%nat -> nth i c false = false ->
  S (unfinished (upd i true c)) = unfinished c.
Proof.
  revert i; induction c as [|b c IH]; intros [|i]; simpl; intros Hi Hc;
    try lia.
  - subst b. reflexivity.
  - rewrite <- (IH i) by (auto; lia). destruct b; simpl; lia.
Qed.

Lemma unfinished_witness c :
  (0 < unfinished c)%nat ->
  exists j, (j < length c)%nat /\ nth j c false = false.
Proof.
  induction c as [|b c IH]; simpl; [lia|].
  destruct b; simpl; intros H.
  - destruct (IH H) as (j & Hj & Hc). exists (S j). split; [lia|exact Hc].
  - exists 0%nat. split; [lia|reflexivity].
Qed.

Lemma unfinished_pos i c :
  (i < length c)%nat -> nth i c false = false -> (0 < unfinished c)%nat.
Proof.
  intros Hi Hc. rewrite <- (unfinished_upd i c Hi Hc). lia.
Qed.

Lemma work_upd_rem i x c r :
  (i < length r)%nat -> nth i c false = false -> length c = length r ->
  work c (upd i x r) = work c r - nth i r 0 + x.
Proof.
  revert i r; induction c as [|b c IH]; intros [|i] [|y r]; simpl;
    intros Hi Hc Hl; try lia.
  - subst b. lia.
  - rewrite IH by (auto; lia). lia.
Qed.

Lemma work_upd_done i c r :
  (i < length r)%nat -> nth i c false = false -> length c = length r ->
  work (upd i true c) r = work c r - nth i r 0.
Proof.
  revert i r; induction c as [|b c IH]; intros [|i] [|y r]; simpl;
    intros Hi Hc Hl; try lia.
  - subst b. lia.
  - rewrite IH by (auto; lia). lia.
Qed.

Lemma work_nonneg c r :
  length c = length r ->
  (forall i, (i < length r)%nat -> nth i c false = false -> 0 <= nth i r 0) ->
  0 <= work c r.
Proof.
  revert r; induction c as [|b c IH]; intros [|y r]; simpl; intros Hl H;
    try lia.
  assert (0 <= work c r).
  { apply IH; [lia|]. intros i Hi Hc. apply (H (S i)); [lia|exact Hc]. }
  destruct b; [lia|].
  specialize (H 0%nat ltac:(lia) eq_refl). simpl in H. lia.
Qed.

Section Ticks.
Variable processes : list Process.

(** The bookkeeping of the loop: slices of the right length, and
    [procDone] counting the flags that are set. *)
Definition SJF_wf (st : SJFState) : Prop :=
  length (sRemaining st) = length processes /\
  length (sCompleted st) = length processes /\
  (sProcDone st + unfinished (sCompleted st))%nat = length processes.

Lemma SJF_init_wf : SJF_wf (SJF_init processes).
Proof.
  unfold SJF_wf, SJF_init. simpl.
  rewrite length_map, repeat_length, unfinished_repeat. auto.
Qed.

(** The three ways a tick can go. *)
Inductive tick (st : SJFState) : SJFState -> Prop :=
| tick_idle :
    SJF_select processes st = None ->
    tick st
      (mkSJF (Int64.add (sCurrentTime st) 1)
         (sTotalWait st) (sTotalTurnaround st) (sLastCompletion st)
         (sWaitingTime st) (sSchedule st) (sGantt st)
         (sRemaining st) (sCompleted st) (sProcDone st))
| tick_run idx st' :
    SJF_select processes st = Some idx ->
    Int64.sub (nth idx (sRemaining st) 0) 1 <> 0 ->
    sCurrentTime st' = Int64.add (sCurrentTime st) 1 ->
    sRemaining st' =
      upd idx (Int64.sub (nth idx (sRemaining st) 0) 1) (sRemaining st) ->
    sCompleted st' = sCompleted st ->
    sProcDone st' = sProcDone st ->
    sGantt st' = sGantt st ->
    sSchedule st' = sSchedule st ->
    tick st st'
| tick_finish idx st' :
    SJF_select processes st = Some idx ->
    Int64.sub (nth idx (sRemaining st) 0) 1 = 0 ->
    sCurrentTime st' = Int64.add (sCurrentTime st) 1 ->
    sRemaining st' = upd idx 0 (sRemaining st) ->
    sCompleted st' = upd idx true (sCompleted st) ->
    sProcDone st' = S (sProcDone st) ->
    tick st st'.

Lemma SJF_body_tick st : SJF_wf st -> tick st (SJF_body processes st).
Proof.
  intros (Hr & Hc & _). unfold SJF_body.
  destruct (SJF_select processes st) as [idx|] eqn:E;
    [|apply tick_idle; exact E].
  pose proof (proj1 (SJF_select_Some processes st idx) E)
    as [[[Hidx _] _] _].
  rewrite nth_upd_same by lia.
  destruct (Int64.sub (nth idx (sRemaining st) 0) 1 =? 0) eqn:E0.
  - apply Z.eqb_eq in E0.
    eapply tick_finish; try eassumption; try reflexivity.
    simpl. rewrite E0. reflexivity.
  - apply Z.eqb_neq in E0.
    eapply tick_run; try eassumption; reflexivity.
Qed.

Lemma SJF_body_wf st : SJF_wf st -> SJF_wf (SJF_body processes st).
Proof.
  intros Hwf. pose proof (SJF_body_tick st Hwf) as Ht.
  destruct Hwf as (Hr & Hc & Hd).
  destruct Ht as [E|idx st' E _ _ Hr' Hc' Hd' _ _|idx st' E _ _ Hr' Hc' Hd'];
    unfold SJF_wf.
  - simpl. auto.
  - rewrite Hr', Hc', Hd', upd_length. auto.
  - rewrite Hr', Hc', Hd', !upd_length.
    apply SJF_select_Some in E. destruct E as [[(Hidx & Hf & _) _] _].
    repeat split; auto.
    pose proof (unfinished_upd idx (sCompleted st) ltac:(lia) Hf). lia.
Qed.

End Ticks.

(** *** Runs on bursts between 1 and [MaxInt64 - 1] *)

Section ValidRuns.
Variable processes : list Process.
Hypothesis processes_int64 : Forall int64_process processes.
Hypothesis bursts_valid :
  Forall (fun p => 1 <= BurstDuration p < Int64.MaxInt64) processes.

(** An unfinished process still owes between one tick and its burst. *)
Definition SJF_valid (st : SJFState) : Prop :=
  SJF_wf processes st /\
  Int64.in_range (sCurrentTime st) /\
  forall i, (i < length processes)%nat ->
    nth i (sCompleted st) false = false ->
    1 <= nth i (sRemaining st) 0
      <= BurstDuration (nth i processes zeroProcess).

Lemma burst_bound i :
  (i < length processes)%nat ->
  1 <= BurstDuration (nth i processes zeroProcess) < Int64.MaxInt64.
Proof.
  intros Hi.
  exact (proj1 (Forall_forall _ _) bursts_valid _
           (nth_In processes zeroProcess Hi)).
Qed.

Lemma arrival_bound i :
  (i < length processes)%nat ->
  ArrivalTime (nth i processes zeroProcess) <= Int64.MaxInt64.
Proof.
  intros Hi.
  destruct (proj1 (Forall_forall _ _) processes_int64 _
              (nth_In processes zeroProcess Hi)) as (_ & [_ H] & _).
  exact H.
Qed.

Lemma SJF_init_valid : SJF_valid (SJF_init processes).
Proof.
  split; [apply SJF_init_wf|]. split.
  - simpl. unfold Int64.in_range, Int64.MinInt64, Int64.MaxInt64. lia.
  - intros i Hi _. simpl.
    rewrite (nth_indep _ 0 (BurstDuration zeroProcess))
      by (rewrite length_map; exact Hi).
    rewrite map_nth. pose proof (burst_bound i Hi). lia.
Qed.

(** In a valid state the sentinel excludes nobody. *)
Lemma selectable_eligible st i :
  SJF_valid st -> eligible processes st i -> selectable processes st i.
Proof.
  intros (_ & _ & Hrem) Hel. split; [exact Hel|].
  destruct Hel as (Hi & Hc & _).
  pose proof (Hrem i Hi Hc). pose proof (burst_bound i Hi). lia.
Qed.

Lemma SJF_body_valid st : SJF_valid st -> SJF_valid (SJF_body processes st).
Proof.
  intros (Hwf & Hct & Hrem).
  split; [apply SJF_body_wf, Hwf|].
  pose proof (SJF_body_tick processes st Hwf) as Ht.
  destruct Hwf as (Hr & Hc & Hd).
  destruct Ht as [E|idx st' E Hne Hct' Hr' Hc' _ _ _
                    |idx st' E He Hct' Hr' Hc' _].
  - simpl. split; [apply Int64Facts.add_in_range|exact Hrem].
  - rewrite Hct', Hr', Hc'. split; [apply Int64Facts.add_in_range|].
    apply SJF_select_Some in E. destruct E as [[(Hidx & Hf & _) _] _].
    pose proof (Hrem idx Hidx Hf) as Hb.
    pose proof (burst_bound idx Hidx) as Hbb.
    assert (Hs : Int64.sub (nth idx (sRemaining st) 0) 1
                 = nth idx (sRemaining st) 0 - 1).
    { apply Int64Facts.wrap_id.
      unfold Int64.in_range, Int64.MinInt64, Int64.MaxInt64 in *. lia. }
    rewrite Hs in *.
    intros i Hi Hci. destruct (Nat.eq_dec i idx) as [->|Hneq].
    + rewrite nth_upd_same by lia. lia.
    + rewrite nth_upd_other by auto. apply Hrem; assumption.
  - rewrite Hct', Hr', Hc'. split; [apply Int64Facts.add_in_range|].
    apply SJF_select_Some in E. destruct E as [[(Hidx & Hf & _) _] _].
    intros i Hi Hci. destruct (Nat.eq_dec i idx) as [->|Hneq].
    + rewrite nth_upd_same in Hci by lia. discriminate.
    + rewrite nth_upd_other in Hci by auto.
      rewrite nth_upd_other by auto. apply Hrem; assumption.
Qed.

(** The variant: ticks owed, then ticks until the clock shows
    [MaxInt64], the time by which everything has arrived. *)
Definition SJF_variant (st : SJFState) : Z :=
  work (sCompleted st) (sRemaining st) * 2 ^ 64
  + (Int64.MaxInt64 - sCurrentTime st).

Lemma SJF_variant_nonneg st : SJF_valid st -> 0 <= SJF_variant st.
Proof.
  intros ((Hr & Hc & _) & Hct & Hrem). unfold SJF_variant.
  assert (0 <= work (sCompleted st) (sRemaining st)).
  { apply work_nonneg; [congruence|]. intros i Hi Hci.
    rewrite Hr in Hi. specialize (Hrem i Hi Hci). lia. }
  unfold Int64.in_range in Hct. nia.
Qed.

Lemma SJF_body_decreases st :
  SJF_valid st -> (sProcDone st < length processes)%nat ->
  SJF_variant (SJF_body processes st) < SJF_variant st.
Proof.
  intros Hv Hlt. pose proof (SJF_body_valid st Hv) as Hv'.
  pose proof Hv as (Hwf & Hct & Hrem).
  destruct Hv' as (_ & Hct2 & _).
  pose proof (SJF_body_tick processes st Hwf) as Ht.
  destruct Hwf as (Hr & Hc & Hd).
  unfold SJF_variant.
  destruct Ht as [E|idx st' E Hne Hct' Hr' Hc' _ _ _
                    |idx st' E He Hct' Hr' Hc' _].
  - (* idle: the clock is not at MaxInt64, where all have arrived *)
    cbn [sCurrentTime sCompleted sRemaining].
    assert (Hnm : sCurrentTime st <> Int64.MaxInt64).
    { intros Hm.
      destruct (unfinished_witness (sCompleted st) ltac:(lia))
        as (j & Hj & Hcj).
      rewrite Hc in Hj.
      apply (proj1 (SJF_select_None processes st) E j).
      apply selectable_eligible; [exact Hv|].
      split; [exact Hj|]. split; [exact Hcj|].
      rewrite Hm. apply arrival_bound, Hj. }
    assert (Int64.add (sCurrentTime st) 1 = sCurrentTime st + 1).
    { apply Int64Facts.wrap_id.
      unfold Int64.in_range, Int64.MinInt64, Int64.MaxInt64 in *. lia. }
    lia.
  - apply SJF_select_Some in E. destruct E as [[(Hidx & Hf & _) _] _].
    pose proof (Hrem idx Hidx Hf) as Hb.
    pose proof (burst_bound idx Hidx) as Hbb.
    assert (Hs : Int64.sub (nth idx (sRemaining st) 0) 1
                 = nth idx (sRemaining st) 0 - 1).
    { apply Int64Facts.wrap_id.
      unfold Int64.in_range, Int64.MinInt64, Int64.MaxInt64 in *. lia. }
    rewrite Hr', Hc', Hs, work_upd_rem by (auto; lia).
    unfold Int64.in_range, Int64.MinInt64, Int64.MaxInt64 in *. lia.
  - apply SJF_select_Some in E. destruct E as [[(Hidx & Hf & _) _] _].
    pose proof (Hrem idx Hidx Hf) as Hb.
    rewrite Hr', Hc'.
    rewrite work_upd_done by (rewrite ?upd_length; auto; lia).
    rewrite work_upd_rem by (auto; lia).
    rewrite nth_upd_same by lia.
    unfold Int64.in_range, Int64.MinInt64, Int64.MaxInt64 in *. lia.
Qed.

End ValidRuns.

Lemma SJF_loop_total processes :
  Forall int64_process processes ->
  Forall (fun p => 1 <= BurstDuration p < Int64.MaxInt64) processes ->
  forall fuel st,
    SJF_valid processes st -> SJF_variant st < Z.of_nat fuel ->
    exists st',
      SJF_loop fuel processes st = Some st' /\
      sProcDone st' = length processes.
Proof.
  intros Hr Hb. induction fuel as [|fuel IH]; intros st Hv Hlt; simpl;
    destruct (sProcDone st <? length processes)%nat eqn:E.
  - pose proof (SJF_variant_nonneg processes st Hv). lia.
  - apply Nat.ltb_ge in E. destruct Hv as ((_ & _ & Hd) & _).
    exists st. split; [reflexivity|lia].
  - apply Nat.ltb_lt in E. apply IH.
    + apply SJF_body_valid; assumption.
    + pose proof (SJF_body_decreases processes Hr Hb st Hv E). lia.
  - apply Nat.ltb_ge in E. destruct Hv as ((_ & _ & Hd) & _).
    exists st. split; [reflexivity|lia].
Qed.

(** With every burst between 1 and [MaxInt64 - 1] the tick loop ends, and
    it ends with [procDone == n]. *)
Lemma SJF_terminates processes :
  Forall int64_process processes ->
  Forall (fun p => 1 <= BurstDuration p < Int64.MaxInt64) processes ->
  exists fuel st,
    SJF_loop fuel processes (SJF_init processes) = Some st /\
    sProcDone st = length processes.
Proof.
  intros Hr Hb.
  set (v := SJF_variant (SJF_init processes)).
  exists (S (Z.to_nat v)).
  apply SJF_loop_total; auto.
  - apply SJF_init_valid, Hb.
  - fold v. lia.
Qed.

(** *** Runs with a process the scan can never finish *)

Section Stuck.
Variable processes : list Process.
Variable i : nat.

(** Process [i] is unfinished and its remaining burst is either at most
    zero or equal to [MaxInt64]. *)
Definition SJF_stuck (st : SJFState) : Prop :=
  SJF_wf processes st /\
  (i < length processes)%nat /\
  nth i (sCompleted st) false = false /\
  (Int64.MinInt64 <= nth i (sRemaining st) 0 <= 0 \/
   nth i (sRemaining st) 0 = Int64.MaxInt64).

Lemma below_zero_wraps r :
  Int64.MinInt64 <= r <= 0 ->
  Int64.sub r 1 <> 0 /\
  (Int64.MinInt64 <= Int64.sub r 1 <= 0 \/ Int64.sub r 1 = Int64.MaxInt64).
Proof.
  intros Hr. destruct (Z.eq_dec r Int64.MinInt64) as [->|Hne].
  - split; [discriminate|right; reflexivity].
  - assert (Hs : Int64.sub r 1 = r - 1).
    { apply Int64Facts.wrap_id.
      unfold Int64.in_range, Int64.MinInt64, Int64.MaxInt64 in *. lia. }
    rewrite Hs. unfold Int64.MinInt64 in *. lia.
Qed.

Lemma SJF_body_stuck st : SJF_stuck st -> SJF_stuck (SJF_body processes st).
Proof.
  intros (Hwf & Hi & Hc & Hrem).
  split; [apply SJF_body_wf, Hwf|]. split; [exact Hi|].
  pose proof (SJF_body_tick processes st Hwf) as Ht.
  destruct Hwf as (Hlr & Hlc & _).
  destruct Ht as [E|idx st' E Hne _ Hr' Hc' _ _ _
                    |idx st' E He _ Hr' Hc' _].
  - simpl. auto.
  - rewrite Hr', Hc'. split; [exact Hc|].
    destruct (Nat.eq_dec idx i) as [->|Hneq].
    + rewrite nth_upd_same by lia.
      apply SJF_select_Some in E. destruct E as [[_ Hlt] _].
      apply below_zero_wraps. destruct Hrem; [assumption|lia].
    + rewrite nth_upd_other by auto. exact Hrem.
  - rewrite Hr', Hc'.
    destruct (Nat.eq_dec idx i) as [->|Hneq].
    + exfalso.
      apply SJF_select_Some in E. destruct E as [[_ Hlt] _].
      apply (below_zero_wraps (nth i (sRemaining st) 0));
        [destruct Hrem; [assumption|lia]|exact He].
    + rewrite !nth_upd_other by auto. auto.
Qed.

Lemma SJF_stuck_loops fuel :
  forall st, SJF_stuck st -> SJF_loop fuel processes st = None.
Proof.
  induction fuel as [|fuel IH]; intros st Hs; simpl;
    pose proof Hs as ((Hlr & Hlc & Hd) & Hi & Hc & _);
    pose proof (unfinished_pos i (sCompleted st) ltac:(lia) Hc);
    destruct (Nat.ltb_spec (sProcDone st) (length processes));
    try lia; [reflexivity|].
  apply IH, SJF_body_stuck, Hs.
Qed.

End Stuck.

(** A process whose burst is at most zero, or equal to [MaxInt64], is never
    finished: the loop has no end. *)
Lemma SJF_diverges processes i :
  (i < length processes)%nat ->
  Int64.MinInt64 <= BurstDuration (nth i processes zeroProcess) <= 0 \/
  BurstDuration (nth i processes zeroProcess) = Int64.MaxInt64 ->
  forall fuel, SJF_loop fuel processes (SJF_init processes) = None.
Proof.
  intros Hi Hb fuel. apply (SJF_stuck_loops processes i).
  split; [apply SJF_init_wf|]. split; [exact Hi|]. simpl. split.
  - apply nth_repeat.
  - rewrite (nth_indep _ 0 (BurstDuration zeroProcess))
      by (rewrite length_map; exact Hi).
    rewrite map_nth. exact Hb.
Qed.

(** ** The two closures are orderings *)

Lemma lessArrivalBurst_ordering : ordering lessArrivalBurst.
Proof.
  unfold ordering, lessArrivalBurst. repeat split.
  - intros x. rewrite Z.eqb_refl. apply Z.ltb_irrefl.
  - intros x y z.
    destruct (Z.eqb_spec (ArrivalTime x) (ArrivalTime y)),
             (Z.eqb_spec (ArrivalTime y) (ArrivalTime z)),
             (Z.eqb_spec (ArrivalTime x) (ArrivalTime z));
      rewrite ?Z.ltb_lt; lia.
  - intros x y z.
    destruct (Z.eqb_spec (ArrivalTime x) (ArrivalTime y)),
             (Z.eqb_spec (ArrivalTime y) (ArrivalTime z)),
             (Z.eqb_spec (ArrivalTime x) (ArrivalTime z));
      rewrite ?Z.ltb_ge; lia.
Qed.

Lemma lessArrival_ordering : ordering lessArrival.
Proof.
  unfold ordering, lessArrival. repeat split.
  - intros x. apply Z.ltb_irrefl.
  - intros x y z. rewrite !Z.ltb_lt. lia.
  - intros x y z. rewrite !Z.ltb_ge. lia.
Qed.

(** ** Fuel *)

(** A loop that has ended within some fuel ends in the same state with
    any larger fuel: the result of a run does not depend on the fuel. *)
Lemma SJF_loop_more_fuel ps fuel st st' :
  SJF_loop fuel ps st = Some st' ->
  forall fuel', (fuel <= fuel')%nat -> SJF_loop fuel' ps st = Some st'.
Proof.
  revert st. induction fuel as [|fuel IH]; intros st H [|fuel'] Hle;
    simpl in *; destruct (sProcDone st <? length ps)%nat;
    try discriminate; try lia; auto.
  apply IH; [exact H|lia].
Qed.

Lemma RR_loop_more_fuel ps fuel st st' :
  RR_loop fuel ps st = Some st' ->
  forall fuel', (fuel <= fuel')%nat -> RR_loop fuel' ps st = Some st'.
Proof.
  revert st. induction fuel as [|fuel IH]; intros st H [|fuel'] Hle;
    simpl in *; destruct (rQueue st) as [|idx q];
    try discriminate; try lia; auto.
  apply IH; [exact H|lia].
Qed.

(** ** The waits of the two single-pass schedules *)

(** The wait column of [FCFSSchedule], as its loop computes it: from the
    service time and the wait left by the process before. *)
Fixpoint FCFS_waits (serviceTime waitingTime : Z) (ps : list Process)
  : list Z :=
  match ps with
  | [] => []
  | p :: ps' =>
      let w :=
        if 0 <? ArrivalTime p
        then Int64.sub serviceTime (ArrivalTime p)
        else waitingTime in
      w :: FCFS_waits (Int64.add serviceTime (BurstDuration p)) w ps'
  end.

Lemma upd_snoc_exact {A} (a b : list A) (y z : A) :
  upd (length a) y (a ++ z :: b) = a ++ y :: b.
Proof. induction a as [|x a IH]; simpl; congruence. Qed.

Lemma map_upd {A B} (f : A -> B) i x (a : list A) :
  map f (upd i x a) = upd i (f x) (map f a).
Proof.
  revert i; induction a as [|y a IH]; intros [|i]; simpl; congruence.
Qed.

Lemma FCFS_loop_waits l :
  forall ws st,
    map (option_map rowWait) (fSchedule st)
    = map Some ws ++ repeat None (length l) ->
    map (option_map rowWait)
      (fSchedule (for_range FCFS_body (length ws) l st))
    = map Some (ws ++ FCFS_waits (fServiceTime st) (fWaitingTime st) l).
Proof.
  induction l as [|p l IH]; intros ws st Hs; simpl.
  - simpl in Hs. rewrite app_nil_r in *. exact Hs.
  - specialize (IH (ws ++ [if 0 <? ArrivalTime p
                            then Int64.sub (fServiceTime st) (ArrivalTime p)
                            else fWaitingTime st])
                  (FCFS_body (length ws) p st)).
    rewrite length_app, Nat.add_1_r, <- app_assoc in IH. simpl in IH.
    apply IH. unfold FCFS_body. cbn [fSchedule].
    rewrite map_upd, Hs. simpl.
    rewrite <- (length_map Some ws) at 1.
    rewrite upd_snoc_exact, map_app, <- app_assoc. reflexivity.
Qed.

(** A wait of [FCFSSchedule] is [serviceTime - arrival], whatever its
    sign, when the arrival is positive, and the wait of the process before
    otherwise. *)
Lemma FCFS_wait_column ps :
  map (option_map rowWait) (outSchedule (FCFS_run ps))
  = map Some (FCFS_waits 0 0 ps).
Proof.
  unfold FCFS_run. cbn [outSchedule report].
  apply (FCFS_loop_waits ps [] (FCFS_init ps)). simpl.
  rewrite map_repeat. reflexivity.
Qed.

(** [SJFPrioritySchedule] sets the wait of a process that arrives after
    the clock to zero: with arrivals that are not negative its waits are
    not negative. *)
Lemma Prio_waits_nonneg ps :
  Forall (fun p => 0 <= ArrivalTime p) ps ->
  Forall (fun o => match o with Some r => 0 <= rowWait r | None => True end)
    (outSchedule (Prio_run ps)).
Proof.
  intros Ha. unfold Prio_run. cbn [outSchedule report].
  apply (for_range_inv
           (fun st =>
              Int64.in_range (pCurrentTime st) /\
              Forall (fun o => match o with
                               | Some r => 0 <= rowWait r
                               | None => True
                               end) (pSchedule st))).
  - intros i p st Hp [Hct Hs].
    pose proof (proj1 (Forall_forall _ _) Ha p Hp) as Hp0. simpl in Hp0.
    unfold Prio_body.
    destruct (Z.ltb_spec (pCurrentTime st) (ArrivalTime p));
      cbn [pCurrentTime pSchedule];
      (split; [apply Int64Facts.add_in_range|]);
      (apply Forall_upd; [exact Hs|]); cbn [rowWait]; [lia|].
    unfold Int64.sub. rewrite Int64Facts.wrap_id; [lia|].
    unfold Int64.in_range, Int64.MinInt64, Int64.MaxInt64 in *. lia.
  - split.
    + simpl. unfold Int64.in_range, Int64.MinInt64, Int64.MaxInt64. lia.
    + simpl. apply Forall_forall. intros o Ho. apply repeat_spec in Ho.
      subst. exact I.
Qed.

(** ** Sample runs *)

(** Two processes in arrival order under [FCFSSchedule]: waits 0 and 4,
    completions 5 and 8. *)
Example FCFS_sample :
  rows (snd (FCFSSchedule [P 1 0 5; P 2 1 3]))
  = [Some [1; 0; 5; 0; 5; 5]; Some [2; 1; 3; 4; 7; 8]].
Proof. vm_compute. reflexivity. Qed.

(** The textbook input under [SJFSchedule]: the processes complete in the
    order 2, 4, 1, 3, at 5, 10, 17 and 26. *)
Example SJF_sample :
  option_map (fun r => (map PID (outGantt (snd r)), rows (snd r)))
    (SJFSchedule 26 [P 1 0 8; P 2 1 4; P 3 2 9; P 4 3 5])
  = Some ([2; 4; 1; 3],
          [Some [1; 0; 8; 9; 17; 17]; Some [2; 1; 4; 0; 4; 5];
           Some [3; 2; 9; 15; 24; 26]; Some [4; 3; 5; 2; 7; 10]]).
Proof. vm_compute. reflexivity. Qed.

(** Two processes out of arrival order under [SJFPrioritySchedule]:
    process 2, which arrives first, is scheduled first. *)
Example Prio_sample :
  rows (snd (SJFPrioritySchedule [P 1 2 6; P 2 0 8]))
  = [Some [2; 0; 8; 0; 8; 8]; Some [1; 2; 6; 6; 12; 14]].
Proof. vm_compute. reflexivity. Qed.

(** * The claims *)

(** C1. For each of the four algorithms and every input, each row handed to
    the table satisfies [turnaround == burst + wait] and
    [completion == arrival + wait + burst], the sums being those of Go's
    [int64]; the queue loop of round-robin always ends, and the tick loop
    of shortest-job-first ends on every input whose bursts lie between 1
    and [MaxInt64 - 1], so that rows are emitted. *)
Theorem C1_row_identities `{SliceSort} (processes : list Process) :
  rows_ok (outSchedule (snd (FCFSSchedule processes))) /\
  (forall fuel r,
      SJFSchedule fuel processes = Some r -> rows_ok (outSchedule (snd r))) /\
  rows_ok (outSchedule (snd (SJFPrioritySchedule processes))) /\
  (forall fuel r,
      RRSchedule fuel processes = Some r -> rows_ok (outSchedule (snd r))) /\
  (exists fuel r, RRSchedule fuel processes = Some r) /\
  (Forall int64_process processes ->
   Forall (fun p => 1 <= BurstDuration p < Int64.MaxInt64) processes ->
   exists fuel r, SJFSchedule fuel processes = Some r).
Proof.
  split; [apply FCFS_rows_ok|].
  split.
  { intros fuel r. unfold SJFSchedule.
    destruct (SJF_run fuel processes) as [out|] eqn:E; [|discriminate].
    intros [= <-]. simpl. eapply SJF_rows_ok, E. }
  split; [apply Prio_rows_ok|].
  split.
  { intros fuel r. unfold RRSchedule.
    destruct (RR_run fuel _) as [out|] eqn:E; [|discriminate].
    intros [= <-]. simpl. eapply RR_run_rows_ok, E. }
  split.
  { destruct (RR_run_total (sort_Slice lessArrival processes))
      as (fuel & out & E).
    exists fuel. unfold RRSchedule. rewrite E. simpl. eauto. }
  intros Hr Hb.
  destruct (SJF_terminates processes Hr Hb) as (fuel & st & E & _).
  exists fuel. unfold SJFSchedule, SJF_run. rewrite E. simpl. eauto.
Qed.

(** C2, as the code has it, on processes 1 (arrival 0, burst 10) and 2
    (arrival 1, burst 4) with the quantum of 6. The first iteration
    preempts process 1 at time 6 with 4 units left and puts it back in the
    queue before the arrivals are looked at, so that it is again at the
    head of the queue, ahead of process 2. Process 1 completes at 10 and
    process 2 at 14, the sum of the bursts. (The sample runs take
    insertion sort for [sort.Slice]; their inputs are in order already.) *)
Theorem C2_round_robin_sample :
  quantum = 6 /\
  (let st1 := RR_body [P 1 0 10; P 2 1 4] 0 [] (RR_init [P 1 0 10; P 2 1 4]) in
   rCurrentTime st1 = 6 /\
   nth 0 (rRemaining st1) 0 = 4 /\
   hd_error (rQueue st1) = Some 0%nat /\
   In 1%nat (rQueue st1)) /\
  option_map (fun r => map (option_map rowExit) (outSchedule (snd r)))
    (RRSchedule 4 [P 1 0 10; P 2 1 4])
  = Some [Some 10; Some 14] /\
  10 + 4 = 14.
Proof.
  split; [reflexivity|]. split; [|split; vm_compute; reflexivity].
  vm_compute. repeat split; auto.
Qed.

(** C2 as stated fails on its own input. After the preemption the queue
    holds index 0 twice and then index 1: the arrivals loop starts from
    [completedProcesses], still 0, and enqueues index 0 again. Process 1
    is served twice more (its second and third slices start at 0) before
    process 2, which completes at 14. *)
Lemma C2_round_robin_enqueues_twice :
  rQueue (RR_body [P 1 0 10; P 2 1 4] 0 [] (RR_init [P 1 0 10; P 2 1 4]))
  = [0; 0; 1]%nat /\
  option_map (fun r => (slices (snd r), rows (snd r)))
    (RRSchedule 4 [P 1 0 10; P 2 1 4])
  = Some ([(1, 0, 10); (1, 0, 10); (2, 19, 14)],
          [Some [1; 0; 10; 0; 10; 10]; Some [2; 1; 4; 9; 13; 14]]) /\
  ~ 14 < 0.
Proof. split; [|split]; vm_compute; try reflexivity. discriminate. Qed.

(** C3, as the code has it. [FCFSSchedule] and [SJFSchedule] leave the
    caller's slice as it was. [SJFPrioritySchedule] and [RRSchedule] sort
    the caller's slice itself: when they return it holds the same
    processes, reordered by (arrival, burst) and by arrival. *)
Theorem C3_caller_slice `{SliceSort} (processes : list Process) :
  fst (FCFSSchedule processes) = processes /\
  (forall fuel r, SJFSchedule fuel processes = Some r -> fst r = processes) /\
  (Permutation processes (fst (SJFPrioritySchedule processes)) /\
   sorted_by lessArrivalBurst (fst (SJFPrioritySchedule processes))) /\
  (forall fuel r,
      RRSchedule fuel processes = Some r ->
      Permutation processes (fst r) /\ sorted_by lessArrival (fst r)) /\
  (exists fuel r, RRSchedule fuel processes = Some r).
Proof.
  split; [reflexivity|].
  split.
  { intros fuel r. unfold SJFSchedule.
    destruct (SJF_run fuel processes); [|discriminate].
    intros [= <-]. reflexivity. }
  split.
  { simpl. split; [apply sort_Slice_perm|].
    apply sort_Slice_sorted, lessArrivalBurst_ordering. }
  split.
  { intros fuel r. unfold RRSchedule.
    destruct (RR_run fuel _); [|discriminate].
    intros [= <-]. simpl. split; [apply sort_Slice_perm|].
    apply sort_Slice_sorted, lessArrival_ordering. }
  destruct (RR_run_total (sort_Slice lessArrival processes))
    as (fuel & out & E).
  exists fuel. unfold RRSchedule. rewrite E. simpl. eauto.
Qed.

(** C3 as stated fails: the caller who passes processes 1 (arrival 2) and
    2 (arrival 0) to [SJFPrioritySchedule] finds them swapped. *)
Lemma C3_priority_reorders_caller_slice :
  fst (SJFPrioritySchedule [P 1 2 6; P 2 0 8]) <> [P 1 2 6; P 2 0 8].
Proof. vm_compute. discriminate. Qed.

Lemma sort_Slice_nil `{SliceSort} {A : Type} (less : A -> A -> bool) :
  sort_Slice less [] = [].
Proof. apply Permutation_nil, sort_Slice_perm. Qed.

(** C4, as the code has it. No function tests for an empty slice before
    the averages (only [RRSchedule] guards its first [PushBack]). On zero
    processes each one runs its loops zero times and goes on to the output
    calls with an empty Gantt chart, an empty table, and an average wait,
    an average turnaround and a throughput that are all [0/0], NaN. *)
Theorem C4_empty_input `{SliceSort} (fuel : nat) :
  undefined_report (snd (FCFSSchedule [])) /\
  (exists r, SJFSchedule fuel [] = Some r /\ undefined_report (snd r)) /\
  undefined_report (snd (SJFPrioritySchedule [])) /\
  (exists r, RRSchedule fuel [] = Some r /\ undefined_report (snd r)).
Proof.
  assert (Hu : undefined_report
                 (report 0 0%float 0%float 0%float [] [])).
  { repeat split; vm_compute; reflexivity. }
  split; [exact Hu|]. split.
  { destruct fuel; simpl; eexists; (split; [reflexivity|exact Hu]). }
  split.
  { unfold SJFPrioritySchedule. rewrite sort_Slice_nil. exact Hu. }
  unfold RRSchedule. rewrite sort_Slice_nil.
  destruct fuel; simpl; eexists; (split; [reflexivity|exact Hu]).
Qed.

(** C4 as stated fails: on zero processes [FCFSSchedule] reports a
    throughput that is NaN. *)
Lemma C4_empty_input_throughput_is_nan :
  is_nan (outAveThroughput (snd (FCFSSchedule []))) = true.
Proof. vm_compute. reflexivity. Qed.

(** C5, on one process with arrival 5 and burst 2: [serviceTime] is 0 when
    it is visited, the code reports the wait [0 - 5 = -5], and
    [max(0, 0 - 5)] is 0. *)
Theorem C5_fcfs_wait_is_not_clamped :
  map (option_map rowWait) (outSchedule (snd (FCFSSchedule [P 1 5 2])))
  = [Some (-5)] /\
  Z.max 0 (0 - 5) = 0.
Proof. split; vm_compute; reflexivity. Qed.

(** C6, on one process with arrival 5 and burst 2, an input that meets
    every precondition: [FCFSSchedule] and [RRSchedule] both report the
    wait -5. *)
Theorem C6_negative_wait :
  map (option_map rowWait) (outSchedule (snd (FCFSSchedule [P 1 5 2])))
  = [Some (-5)] /\
  option_map (fun r => map (option_map rowWait) (outSchedule (snd r)))
    (RRSchedule 1 [P 1 5 2])
  = Some [Some (-5)].
Proof. split; vm_compute; reflexivity. Qed.

(** C7, on three processes with arrival 0 and burst 1: [SJFSchedule]
    records for the second the slice from 2 to 2 and for the third the
    slice from 4 to 3, its start being [completion - burst + wait] and
    not the arrival; and on the input of C2 [RRSchedule] records for
    process 2 the slice from 19 to 14. *)
Theorem C7_slices_end_before_they_start :
  option_map (fun r => (slices (snd r), rows (snd r)))
    (SJFSchedule 3 [P 1 0 1; P 2 0 1; P 3 0 1])
  = Some ([(1, 0, 1); (2, 2, 2); (3, 4, 3)],
          [Some [1; 0; 1; 0; 1; 1]; Some [2; 0; 1; 1; 2; 2];
           Some [3; 0; 1; 2; 3; 3]]) /\
  option_map (fun r => slices (snd r)) (RRSchedule 4 [P 1 0 10; P 2 1 4])
  = Some [(1, 0, 10); (1, 0, 10); (2, 19, 14)].
Proof. split; vm_compute; reflexivity. Qed.

(** ** What a tick does *)

Ltac int64_bounds :=
  unfold int64_process, Int64.in_range, Int64.MinInt64, Int64.MaxInt64;
  simpl; lia.

Lemma first_shortest_ext st (C D : nat -> Prop) i :
  (forall j, C j <-> D j) -> first_shortest st C i <-> first_shortest st D i.
Proof.
  intros H. unfold first_shortest. split; intros [Hi Hm]; split;
    try (apply H; exact Hi); intros j Hj; apply Hm, H, Hj.
Qed.

Lemma SJF_iter_valid processes :
  Forall (fun p => 1 <= BurstDuration p < Int64.MaxInt64) processes ->
  forall ticks,
    SJF_valid processes
      (Nat.iter ticks (SJF_body processes) (SJF_init processes)).
Proof.
  intros Hb. induction ticks as [|ticks IH]; simpl.
  - apply SJF_init_valid, Hb.
  - apply SJF_body_valid; assumption.
Qed.

(** C8, as the code has it. In every state of the loop the scan selects
    the process with the least remaining burst among those that have
    arrived, are not complete and have a remaining burst below [MaxInt64],
    the value the scan starts from; the lowest index wins a tie. That
    process's remaining burst is decremented and the clock advances by
    one. The scan selects nobody exactly when no such process exists, and
    then the clock advances by one, nobody's remaining burst changes and
    no Gantt slice is recorded. On an input whose bursts all lie between 1
    and [MaxInt64 - 1] the bound on the remaining burst holds of every
    eligible process at every tick. *)
Theorem C8_shortest_remaining_first (processes : list Process)
  (st : SJFState) :
  (forall i,
      SJF_select processes st = Some i <->
      first_shortest st (selectable processes st) i) /\
  (SJF_select processes st = None <->
   forall i, ~ selectable processes st i) /\
  (forall i,
      SJF_select processes st = Some i ->
      sCurrentTime (SJF_body processes st) = Int64.add (sCurrentTime st) 1 /\
      sRemaining (SJF_body processes st)
      = upd i (Int64.sub (nth i (sRemaining st) 0) 1) (sRemaining st)) /\
  (SJF_select processes st = None ->
   sCurrentTime (SJF_body processes st) = Int64.add (sCurrentTime st) 1 /\
   sRemaining (SJF_body processes st) = sRemaining st /\
   sGantt (SJF_body processes st) = sGantt st) /\
  (Forall (fun p => 1 <= BurstDuration p < Int64.MaxInt64) processes ->
   forall ticks i,
     selectable processes
       (Nat.iter ticks (SJF_body processes) (SJF_init processes)) i <->
     eligible processes
       (Nat.iter ticks (SJF_body processes) (SJF_init processes)) i).
Proof.
  split; [intros i; apply SJF_select_Some|].
  split; [apply SJF_select_None|].
  split.
  { intros i E. unfold SJF_body. rewrite E.
    destruct (nth i (upd i _ _) 0 =? 0); split; reflexivity. }
  split.
  { intros E. unfold SJF_body. rewrite E. repeat split. }
  intros Hbursts ticks i. split; [intros [Hi _]; exact Hi|].
  apply selectable_eligible; [exact Hbursts|].
  apply SJF_iter_valid, Hbursts.
Qed.

(** C8 on the textbook input of four processes: at the second tick the
    process at index 1 (burst 4, arrived at 1) is selected, ahead of index
    0 with 7 units left, and it is the first of the eligible processes
    with the least remaining burst. *)
Lemma C8_witness :
  Forall (fun p => 1 <= BurstDuration p < Int64.MaxInt64)
    [P 1 0 8; P 2 1 4; P 3 2 9; P 4 3 5] /\
  first_shortest
    (Nat.iter 1 (SJF_body [P 1 0 8; P 2 1 4; P 3 2 9; P 4 3 5])
       (SJF_init [P 1 0 8; P 2 1 4; P 3 2 9; P 4 3 5]))
    (eligible [P 1 0 8; P 2 1 4; P 3 2 9; P 4 3 5]
       (Nat.iter 1 (SJF_body [P 1 0 8; P 2 1 4; P 3 2 9; P 4 3 5])
          (SJF_init [P 1 0 8; P 2 1 4; P 3 2 9; P 4 3 5])))
    1.
Proof.
  assert (Hb : Forall (fun p => 1 <= BurstDuration p < Int64.MaxInt64)
                 [P 1 0 8; P 2 1 4; P 3 2 9; P 4 3 5]).
  { repeat constructor; int64_bounds. }
  split; [exact Hb|].
  pose proof (C8_shortest_remaining_first
                [P 1 0 8; P 2 1 4; P 3 2 9; P 4 3 5]
                (Nat.iter 1 (SJF_body [P 1 0 8; P 2 1 4; P 3 2 9; P 4 3 5])
                   (SJF_init [P 1 0 8; P 2 1 4; P 3 2 9; P 4 3 5])))
    as (Hsome & _ & _ & _ & Hel).
  apply (proj1 (first_shortest_ext _ _ _ 1 (Hel Hb 1%nat))).
  apply Hsome. vm_compute. reflexivity.
Defined.

(** C8 as stated fails: a process with arrival 0 and burst [MaxInt64] is,
    at time 0, the eligible process with the least remaining burst, and
    the scan selects nobody. *)
Lemma C8_sentinel_burst_is_not_selected :
  first_shortest (SJF_init [P 1 0 Int64.MaxInt64])
    (eligible [P 1 0 Int64.MaxInt64] (SJF_init [P 1 0 Int64.MaxInt64])) 0 /\
  SJF_select [P 1 0 Int64.MaxInt64] (SJF_init [P 1 0 Int64.MaxInt64]) = None.
Proof.
  split; [|vm_compute; reflexivity].
  split.
  - unfold eligible. simpl. repeat split; lia.
  - intros j (Hj & _). simpl in Hj.
    assert (j = 0%nat) by lia. subst j. split; lia.
Qed.

(** ** The "priority" schedule *)

Lemma lessArrivalBurst_false p q :
  lessArrivalBurst q p = false <-> arrival_then_burst p q.
Proof.
  unfold lessArrivalBurst, arrival_then_burst.
  destruct (Z.eqb_spec (ArrivalTime q) (ArrivalTime p));
    rewrite Z.ltb_ge; lia.
Qed.

Lemma sorted_by_arrival_then_burst l :
  sorted_by lessArrivalBurst l -> StronglySorted arrival_then_burst l.
Proof.
  unfold sorted_by. induction 1 as [|p l Hs IH Hp]; constructor; auto.
  eapply Forall_impl; [|exact Hp].
  intros q. apply lessArrivalBurst_false.
Qed.

Lemma Prio_body_schedule i p st :
  exists r,
    pSchedule (Prio_body i p st) = upd i (Some r) (pSchedule st) /\
    row_process r = p.
Proof.
  unfold Prio_body.
  destruct (pCurrentTime st <? ArrivalTime p); simpl;
    eexists; (split; [reflexivity|]); destruct p; reflexivity.
Qed.

Lemma Prio_body_gantt i p st :
  map PID (pGantt (Prio_body i p st)) = map PID (pGantt st) ++ [ProcessID p].
Proof.
  unfold Prio_body.
  destruct (pCurrentTime st <? ArrivalTime p); simpl;
    rewrite map_app; reflexivity.
Qed.

(** The table and the Gantt chart list the processes in the order of the
    slice the loop runs over. *)
Lemma Prio_loop_in_order l :
  forall pre st,
    map (option_map row_process) (pSchedule st)
    = map Some pre ++ repeat None (length l) ->
    map PID (pGantt st) = map ProcessID pre ->
    let st' := for_range Prio_body (length pre) l st in
    map (option_map row_process) (pSchedule st') = map Some (pre ++ l) /\
    map PID (pGantt st') = map ProcessID (pre ++ l).
Proof.
  induction l as [|p l IH]; intros pre st Hs Hg; simpl.
  - simpl in Hs. rewrite app_nil_r in *. auto.
  - specialize (IH (pre ++ [p]) (Prio_body (length pre) p st)).
    rewrite length_app, Nat.add_1_r, <- app_assoc in IH. simpl in IH.
    apply IH.
    + destruct (Prio_body_schedule (length pre) p st) as (r & -> & Hr).
      rewrite map_upd, Hs. simpl.
      rewrite <- (length_map Some pre) at 1.
      rewrite upd_snoc_exact, Hr, map_app, <- app_assoc. reflexivity.
    + rewrite Prio_body_gantt, Hg, map_app. reflexivity.
Qed.

Lemma Prio_run_in_order ps :
  map (option_map row_process) (outSchedule (Prio_run ps)) = map Some ps /\
  map PID (outGantt (Prio_run ps)) = map ProcessID ps.
Proof.
  unfold Prio_run. cbn [outSchedule outGantt report].
  apply (Prio_loop_in_order ps [] (Prio_init ps)); simpl; auto.
  rewrite map_repeat. reflexivity.
Qed.

(** Two states of the loop that differ at most in the priority column of
    the table. *)
Definition same_but_priority (st st' : PrioState) : Prop :=
  pCurrentTime st = pCurrentTime st' /\
  pTotalWait st = pTotalWait st' /\
  pTotalTurnaround st = pTotalTurnaround st' /\
  pLastCompletion st = pLastCompletion st' /\
  pWaitingTime st = pWaitingTime st' /\
  pGantt st = pGantt st' /\
  map (option_map forget_row_priority) (pSchedule st)
  = map (option_map forget_row_priority) (pSchedule st').

Lemma Prio_body_same_but_priority i p p' st st' :
  forget_priority p = forget_priority p' ->
  same_but_priority st st' ->
  same_but_priority (Prio_body i p st) (Prio_body i p' st').
Proof.
  intros [= Hid Ha Hb] (Hct & Hw & Ht & Hl & Hwt & Hg & Hs).
  unfold Prio_body. rewrite <- Hid, <- Ha, <- Hb, <- Hct, <- Hw, <- Ht, <- Hg.
  destruct (pCurrentTime st <? ArrivalTime p); cbv zeta;
    unfold same_but_priority; cbn [pCurrentTime pTotalWait pTotalTurnaround
      pLastCompletion pWaitingTime pGantt pSchedule];
    repeat (split; [reflexivity|]);
    rewrite !map_upd, Hs; reflexivity.
Qed.

Lemma Prio_loop_same_but_priority l :
  forall l' i st st',
    map forget_priority l = map forget_priority l' ->
    same_but_priority st st' ->
    same_but_priority (for_range Prio_body i l st)
      (for_range Prio_body i l' st').
Proof.
  induction l as [|p l IH]; intros [|p' l'] i st st' Hl Hst;
    try discriminate; simpl; [exact Hst|].
  simpl in Hl. apply (f_equal (@tl _)) in Hl as Htl.
  apply (f_equal (fun x => hd zeroProcess x)) in Hl as Hhd. simpl in Htl, Hhd.
  apply IH; [exact Htl|].
  apply Prio_body_same_but_priority; assumption.
Qed.

Lemma Prio_run_same_but_priority l l' :
  map forget_priority l = map forget_priority l' ->
  outGantt (Prio_run l) = outGantt (Prio_run l') /\
  map (option_map forget_row_priority) (outSchedule (Prio_run l))
  = map (option_map forget_row_priority) (outSchedule (Prio_run l')) /\
  outAveWait (Prio_run l) = outAveWait (Prio_run l') /\
  outAveTurnaround (Prio_run l) = outAveTurnaround (Prio_run l') /\
  outAveThroughput (Prio_run l) = outAveThroughput (Prio_run l').
Proof.
  intros Hl.
  assert (Hn : length l = length l').
  { rewrite <- (length_map forget_priority l), Hl. apply length_map. }
  destruct (Prio_loop_same_but_priority l l' 0 (Prio_init l) (Prio_init l') Hl)
    as (_ & Hw & Ht & Hc & _ & Hg & Hs).
  { unfold Prio_init. rewrite Hn. repeat split. }
  unfold Prio_run, report. cbn [outGantt outSchedule outAveWait
    outAveTurnaround outAveThroughput].
  rewrite Hw, Ht, Hc, Hg, Hs, Hn. repeat split.
Qed.

(** C9. [SJFPrioritySchedule] runs over the processes sorted by arrival and
    then by burst: the table and the Gantt chart list them in that order.
    Two inputs that differ only in the priorities give the same Gantt
    chart, the same three averages and, the priority column apart, the
    same table. *)
Theorem C9_priority_is_ignored `{SliceSort}
  (processes processes' : list Process)
  (Hsame : map forget_priority processes = map forget_priority processes') :
  (Permutation processes (fst (SJFPrioritySchedule processes)) /\
   StronglySorted arrival_then_burst (fst (SJFPrioritySchedule processes)) /\
   map (option_map row_process)
     (outSchedule (snd (SJFPrioritySchedule processes)))
   = map Some (fst (SJFPrioritySchedule processes)) /\
   map PID (outGantt (snd (SJFPrioritySchedule processes)))
   = map ProcessID (fst (SJFPrioritySchedule processes))) /\
  (outGantt (snd (SJFPrioritySchedule processes))
   = outGantt (snd (SJFPrioritySchedule processes')) /\
   map (option_map forget_row_priority)
     (outSchedule (snd (SJFPrioritySchedule processes)))
   = map (option_map forget_row_priority)
       (outSchedule (snd (SJFPrioritySchedule processes'))) /\
   outAveWait (snd (SJFPrioritySchedule processes))
   = outAveWait (snd (SJFPrioritySchedule processes')) /\
   outAveTurnaround (snd (SJFPrioritySchedule processes))
   = outAveTurnaround (snd (SJFPrioritySchedule processes')) /\
   outAveThroughput (snd (SJFPrioritySchedule processes))
   = outAveThroughput (snd (SJFPrioritySchedule processes'))).
Proof.
  unfold SJFPrioritySchedule. cbn [fst snd]. split.
  - split; [apply sort_Slice_perm|]. split.
    + apply sorted_by_arrival_then_burst, sort_Slice_sorted,
        lessArrivalBurst_ordering.
    + apply Prio_run_in_order.
  - apply Prio_run_same_but_priority.
    rewrite <- !(sort_Slice_natural _ _ forget_priority lessArrivalBurst
                   lessArrivalBurst) by reflexivity.
    rewrite Hsame. reflexivity.
Qed.

(** Two processes given with priorities 5 and 1, then with 0 and 9: the
    Gantt charts are the same. *)
Lemma C9_witness :
  map forget_priority [mkProcess 1 2 6 5; mkProcess 2 0 8 1]
  = map forget_priority [mkProcess 1 2 6 0; mkProcess 2 0 8 9] /\
  outGantt (snd (SJFPrioritySchedule [mkProcess 1 2 6 5; mkProcess 2 0 8 1]))
  = outGantt (snd (SJFPrioritySchedule [mkProcess 1 2 6 0; mkProcess 2 0 8 9])).
Proof.
  split; [reflexivity|].
  apply (C9_priority_is_ignored
           [mkProcess 1 2 6 5; mkProcess 2 0 8 1]
           [mkProcess 1 2 6 0; mkProcess 2 0 8 9] eq_refl).
Defined.

(** ** When the tick loop ends *)

(** C10, as the code has it. The tick loop of [SJFSchedule] ends, with
    [procDone] equal to the number of processes, on every input whose
    bursts all lie between 1 and [MaxInt64 - 1]; and it never ends on an
    input with a burst of zero or less, whose remaining burst is
    decremented past zero and is never equal to zero, nor on an input with
    a burst equal to [MaxInt64], which the scan never selects. *)
Theorem C10_sjf_termination (processes : list Process)
  (Hint64 : Forall int64_process processes) :
  (Forall (fun p => 1 <= BurstDuration p < Int64.MaxInt64) processes ->
   exists fuel st,
     SJF_loop fuel processes (SJF_init processes) = Some st /\
     sProcDone st = length processes) /\
  (Exists (fun p => BurstDuration p <= 0 \/ BurstDuration p = Int64.MaxInt64)
     processes ->
   forall fuel, SJF_loop fuel processes (SJF_init processes) = None).
Proof.
  split; [apply SJF_terminates, Hint64|].
  intros Hex fuel. apply Exists_exists in Hex. destruct Hex as (p & Hp & Hb).
  destruct (In_nth _ _ zeroProcess Hp) as (i & Hi & Hnth).
  apply (SJF_diverges processes i Hi). rewrite Hnth.
  destruct (proj1 (Forall_forall _ _) Hint64 p Hp) as (_ & _ & [Hlo _] & _).
  destruct Hb as [Hb|Hb]; [left; split; assumption|right; exact Hb].
Qed.

(** The textbook input of four processes: the loop ends with all four
    done. *)
Lemma C10_witness :
  Forall int64_process [P 1 0 8; P 2 1 4; P 3 2 9; P 4 3 5] /\
  exists fuel st,
    SJF_loop fuel [P 1 0 8; P 2 1 4; P 3 2 9; P 4 3 5]
      (SJF_init [P 1 0 8; P 2 1 4; P 3 2 9; P 4 3 5]) = Some st /\
    sProcDone st = 4%nat.
Proof.
  assert (Hi : Forall int64_process [P 1 0 8; P 2 1 4; P 3 2 9; P 4 3 5]).
  { repeat constructor; int64_bounds. }
  split; [exact Hi|].
  apply (proj1 (C10_sjf_termination _ Hi)).
  repeat constructor; int64_bounds.
Defined.

(** C10 as stated fails: on one process with burst [MaxInt64], which is at
    least 1, the scan never selects it and the loop never ends. *)
Lemma C10_sentinel_burst_never_ends :
  ~ exists fuel st,
      SJF_loop fuel [P 1 0 Int64.MaxInt64] (SJF_init [P 1 0 Int64.MaxInt64])
      = Some st.
Proof.
  intros (fuel & st & E).
  rewrite (SJF_diverges [P 1 0 Int64.MaxInt64] 0) in E.
  - discriminate.
  - simpl. lia.
  - right. reflexivity.
Qed.

(** * Further properties of the four schedules *)

(** ** One row per process *)

(** A loop that assigns to slot [i] of the table a row made from the
    process at index [i] fills the table with the processes in order. *)
Lemma for_range_rows {St : Type} (body : nat -> Process -> St -> St)
  (sched : St -> list (option Row)) :
  (forall i p st,
      exists r, sched (body i p st) = upd i (Some r) (sched st) /\
                row_process r = p) ->
  forall l pre st,
    map (option_map row_process) (sched st)
    = map Some pre ++ repeat None (length l) ->
    map (option_map row_process) (sched (for_range body (length pre) l st))
    = map Some (pre ++ l).
Proof.
  intros Hbody. induction l as [|p l IH]; intros pre st Hs; simpl.
  - simpl in Hs. rewrite app_nil_r in *. exact Hs.
  - specialize (IH (pre ++ [p]) (body (length pre) p st)).
    rewrite length_app, Nat.add_1_r, <- app_assoc in IH. simpl in IH.
    apply IH.
    destruct (Hbody (length pre) p st) as (r & -> & Hr).
    rewrite map_upd, Hs. simpl.
    rewrite <- (length_map Some pre) at 1.
    rewrite upd_snoc_exact, Hr, map_app, <- app_assoc. reflexivity.
Qed.

Lemma for_range_gantt {St : Type} (body : nat -> Process -> St -> St)
  (gantt : St -> list TimeSlice) :
  (forall i p st,
      map PID (gantt (body i p st)) = map PID (gantt st) ++ [ProcessID p]) ->
  forall l i st,
    map PID (gantt (for_range body i l st))
    = map PID (gantt st) ++ map ProcessID l.
Proof.
  intros Hbody. induction l as [|p l IH]; intros i st; simpl.
  - rewrite app_nil_r. reflexivity.
  - rewrite IH, Hbody, <- app_assoc. reflexivity.
Qed.

(** X1. [FCFSSchedule] hands over one row and one Gantt slice for each
    process, in the order of the input: the row in slot [i] and the
    [i]-th slice carry the id, arrival, burst and priority of the [i]-th
    process. *)
Theorem X1_fcfs_one_row_and_slice_per_process (processes : list Process) :
  map (option_map row_process) (outSchedule (snd (FCFSSchedule processes)))
  = map Some processes /\
  map PID (outGantt (snd (FCFSSchedule processes)))
  = map ProcessID processes.
Proof.
  unfold FCFSSchedule, FCFS_run. cbn [snd outSchedule outGantt report].
  split.
  - apply (for_range_rows FCFS_body fSchedule) with (pre := []).
    + intros i p st. eexists. split; [reflexivity|]. destruct p. reflexivity.
    + simpl. rewrite map_repeat. reflexivity.
  - rewrite (for_range_gantt FCFS_body fGantt); [reflexivity|].
    intros i p st. simpl. rewrite map_app. reflexivity.
Qed.

(** ** The chart and the waits of first-come, first-serve *)

(** The chart of processes run back to back from time [t], with no regard
    for their arrival times. *)
Fixpoint back_to_back (t : Z) (ps : list Process) : list TimeSlice :=
  match ps with
  | [] => []
  | p :: ps' =>
      mkTimeSlice (ProcessID p) t (Int64.add t (BurstDuration p))
      :: back_to_back (Int64.add t (BurstDuration p)) ps'
  end.

Lemma FCFS_body_positive_arrival i p st :
  0 < ArrivalTime p -> Int64.in_range (fServiceTime st) ->
  fGantt (FCFS_body i p st)
  = fGantt st ++ back_to_back (fServiceTime st) [p] /\
  fServiceTime (FCFS_body i p st)
  = Int64.add (fServiceTime st) (BurstDuration p).
Proof.
  intros Ha Hs. unfold FCFS_body. cbn [fGantt fServiceTime back_to_back].
  apply Z.ltb_lt in Ha. rewrite Ha. split; [|reflexivity].
  do 3 f_equal.
  rewrite <- (Int64Facts.wrap_id _ Hs) at 2. wrap_eq.
Qed.

Lemma FCFS_loop_back_to_back l :
  forall i st,
    Forall (fun q => 0 < ArrivalTime q) l ->
    Int64.in_range (fServiceTime st) ->
    fGantt (for_range FCFS_body i l st)
    = fGantt st ++ back_to_back (fServiceTime st) l.
Proof.
  induction l as [|p l IH]; intros i st Hl Hs; simpl.
  - rewrite app_nil_r. reflexivity.
  - inversion Hl as [|? ? Hp Hl']; subst.
    destruct (FCFS_body_positive_arrival i p st Hp Hs) as [Hg Hsv].
    rewrite IH; [|exact Hl'|rewrite Hsv; apply Int64Facts.add_in_range].
    rewrite Hg, Hsv, <- app_assoc. reflexivity.
Qed.

(** X2. [FCFSSchedule] never lets the processor idle. When the first
    process does not arrive before time 0 and every other process arrives
    after time 0, the Gantt chart is that of the processes run back to
    back from time 0: each slice starts where the one before it stopped
    and lasts one burst, however late its process arrives. *)
Theorem X2_fcfs_chart_is_back_to_back (processes : list Process)
  (Harrivals : match processes with
               | [] => True
               | p :: rest =>
                   0 <= ArrivalTime p /\
                   Forall (fun q => 0 < ArrivalTime q) rest
               end) :
  outGantt (snd (FCFSSchedule processes)) = back_to_back 0 processes.
Proof.
  unfold FCFSSchedule, FCFS_run. cbn [snd outGantt report].
  destruct processes as [|p rest]; [reflexivity|].
  destruct Harrivals as [Hp Hrest]. cbn [for_range].
  assert (H1 : fGantt (FCFS_body 0 p (FCFS_init (p :: rest)))
               = back_to_back 0 [p] /\
               fServiceTime (FCFS_body 0 p (FCFS_init (p :: rest)))
               = Int64.add 0 (BurstDuration p)).
  { destruct (Z.eq_dec (ArrivalTime p) 0) as [H0|Hn].
    - unfold FCFS_body, FCFS_init.
      cbn [fGantt fServiceTime fWaitingTime back_to_back].
      rewrite H0. simpl (0 <? 0). cbn iota. split; reflexivity.
    - apply (FCFS_body_positive_arrival 0 p (FCFS_init (p :: rest)));
        [lia|].
      simpl. unfold Int64.in_range, Int64.MinInt64, Int64.MaxInt64. lia. }
  destruct H1 as [Hg Hs].
  rewrite FCFS_loop_back_to_back;
    [|exact Hrest|rewrite Hs; apply Int64Facts.add_in_range].
  rewrite Hg, Hs. reflexivity.
Qed.

(** A process that arrives at 100 is charted from 5, where the first
    process stopped. *)
Lemma X2_witness :
  outGantt (snd (FCFSSchedule [P 1 0 5; P 2 100 3]))
  = [mkTimeSlice 1 0 5; mkTimeSlice 2 5 8].
Proof.
  rewrite (X2_fcfs_chart_is_back_to_back [P 1 0 5; P 2 100 3]).
  - reflexivity.
  - simpl. split; [lia|]. repeat constructor.
Defined.

Lemma FCFS_waits_carried w l :
  Forall (fun p => ArrivalTime p <= 0) l ->
  forall t, FCFS_waits t w l = map (fun _ => w) l.
Proof.
  induction 1 as [|p l Hp Hl IH]; intros t; simpl; [reflexivity|].
  destruct (Z.ltb_spec 0 (ArrivalTime p)); [lia|].
  rewrite IH. reflexivity.
Qed.

(** X3. When no process has a positive arrival time, and so when all of
    them arrive at time 0, [FCFSSchedule] reports the wait 0 for every
    process: the wait is computed only under [ArrivalTime > 0]. *)
Theorem X3_fcfs_waits_without_positive_arrival (processes : list Process)
  (Harrivals : Forall (fun p => ArrivalTime p <= 0) processes) :
  map (option_map rowWait) (outSchedule (snd (FCFSSchedule processes)))
  = map (fun _ => Some 0) processes.
Proof.
  unfold FCFSSchedule. cbn [snd].
  rewrite FCFS_wait_column, (FCFS_waits_carried 0 processes Harrivals).
  rewrite map_map. reflexivity.
Qed.

(** Three processes that all arrive at 0: the second and the third are
    reported not to wait. *)
Lemma X3_witness :
  map (option_map rowWait)
    (outSchedule (snd (FCFSSchedule [P 1 0 5; P 2 0 3; P 3 0 4])))
  = [Some 0; Some 0; Some 0].
Proof.
  apply (X3_fcfs_waits_without_positive_arrival [P 1 0 5; P 2 0 3; P 3 0 4]).
  repeat constructor; simpl; lia.
Defined.

(** ** The "priority" schedule runs the processes in turn *)

(** Processes run one after the other from time [t], each starting when it
    has arrived and the one before it is done: the chart, the rows of the
    table, and the time the last one is done. The arithmetic is that of
    the integers. *)
Fixpoint in_turn (t : Z) (ps : list Process) : list TimeSlice :=
  match ps with
  | [] => []
  | p :: ps' =>
      let start := Z.max t (ArrivalTime p) in
      mkTimeSlice (ProcessID p) start (start + BurstDuration p)
      :: in_turn (start + BurstDuration p) ps'
  end.

Definition in_turn_row (t : Z) (p : Process) : Row :=
  let start := Z.max t (ArrivalTime p) in
  mkRow (ProcessID p) (Priority p) (BurstDuration p) (ArrivalTime p)
    (start - ArrivalTime p)
    (BurstDuration p + (start - ArrivalTime p))
    (start + BurstDuration p).

Fixpoint in_turn_rows (t : Z) (ps : list Process) : list Row :=
  match ps with
  | [] => []
  | p :: ps' =>
      in_turn_row t p
      :: in_turn_rows (Z.max t (ArrivalTime p) + BurstDuration p) ps'
  end.

Fixpoint in_turn_end (t : Z) (ps : list Process) : Z :=
  match ps with
  | [] => t
  | p :: ps' => in_turn_end (Z.max t (ArrivalTime p) + BurstDuration p) ps'
  end.

(** No slice of the chart starts before time [t] or before the slice
    ahead of it has stopped, and none stops before it starts. *)
Fixpoint slices_in_order (t : Z) (g : list TimeSlice) : Prop :=
  match g with
  | [] => True
  | s :: g' => t <= Start s /\ Start s <= Stop s /\ slices_in_order (Stop s) g'
  end.

(** The latest arrival (at least 0) and the sum of the bursts. *)
Definition latest_arrival (ps : list Process) : Z :=
  fold_right (fun p m => Z.max (ArrivalTime p) m) 0 ps.

Definition total_burst (ps : list Process) : Z :=
  fold_right (fun p s => BurstDuration p + s) 0 ps.

Definition nonnegative (p : Process) : Prop :=
  0 <= ArrivalTime p /\ 0 <= BurstDuration p.

Lemma latest_arrival_perm l l' :
  Permutation l l' -> latest_arrival l = latest_arrival l'.
Proof. induction 1; simpl; lia. Qed.

Lemma total_burst_perm l l' :
  Permutation l l' -> total_burst l = total_burst l'.
Proof. induction 1; simpl; lia. Qed.

Lemma latest_arrival_nonneg l : 0 <= latest_arrival l.
Proof. induction l; simpl; lia. Qed.

Lemma total_burst_nonneg l : Forall nonnegative l -> 0 <= total_burst l.
Proof. induction 1 as [|p l [_ Hp] _ IH]; simpl; lia. Qed.

Lemma in_turn_end_bound l :
  Forall nonnegative l ->
  forall t, t <= in_turn_end t l /\
            in_turn_end t l <= Z.max t (latest_arrival l) + total_burst l.
Proof.
  induction 1 as [|p l [Ha Hb] Hl IH]; intros t; simpl; [lia|].
  specialize (IH (Z.max t (ArrivalTime p) + BurstDuration p)). lia.
Qed.

Lemma in_turn_in_order l :
  Forall nonnegative l -> forall t, slices_in_order t (in_turn t l).
Proof.
  induction 1 as [|p l [Ha Hb] Hl IH]; intros t; simpl; [exact I|].
  split; [lia|]. split; [lia|]. apply IH.
Qed.

Lemma Prio_body_in_turn i p st :
  nonnegative p -> 0 <= pCurrentTime st ->
  Z.max (pCurrentTime st) (ArrivalTime p) + BurstDuration p
  <= Int64.MaxInt64 ->
  pCurrentTime (Prio_body i p st)
  = Z.max (pCurrentTime st) (ArrivalTime p) + BurstDuration p /\
  pGantt (Prio_body i p st)
  = pGantt st ++ in_turn (pCurrentTime st) [p] /\
  pSchedule (Prio_body i p st)
  = upd i (Some (in_turn_row (pCurrentTime st) p)) (pSchedule st).
Proof.
  intros [Ha Hb] Hct Hmax. unfold Prio_body.
  assert (Hr : forall z, 0 <= z <= Int64.MaxInt64 -> Int64.wrap z = z).
  { intros z Hz. apply Int64Facts.wrap_id.
    unfold Int64.in_range, Int64.MinInt64, Int64.MaxInt64 in *. lia. }
  destruct (Z.ltb_spec (pCurrentTime st) (ArrivalTime p)) as [Hlt|Hge];
    unfold in_turn_row; cbn [pCurrentTime pGantt pSchedule in_turn].
  - rewrite Z.max_r in * by lia.
    unfold Int64.add, Int64.sub.
    rewrite !(Hr (ArrivalTime p + BurstDuration p)) by lia.
    replace (ArrivalTime p + BurstDuration p - BurstDuration p)
      with (ArrivalTime p) by lia.
    rewrite (Hr (ArrivalTime p)), (Hr (BurstDuration p + 0)) by lia.
    rewrite Z.sub_diag. repeat split.
  - rewrite Z.max_l in * by lia.
    unfold Int64.add, Int64.sub.
    rewrite !(Hr (pCurrentTime st + BurstDuration p)) by lia.
    replace (pCurrentTime st + BurstDuration p - BurstDuration p)
      with (pCurrentTime st) by lia.
    rewrite (Hr (pCurrentTime st)) by lia.
    rewrite (Hr (pCurrentTime st - ArrivalTime p)) by lia.
    rewrite (Hr (BurstDuration p + (pCurrentTime st - ArrivalTime p)))
      by lia.
    repeat split.
Qed.

Lemma Prio_loop_in_turn l :
  Forall nonnegative l ->
  forall rows st,
    0 <= pCurrentTime st ->
    in_turn_end (pCurrentTime st) l <= Int64.MaxInt64 ->
    pSchedule st = map Some rows ++ repeat None (length l) ->
    pSchedule (for_range Prio_body (length rows) l st)
    = map Some (rows ++ in_turn_rows (pCurrentTime st) l) /\
    pGantt (for_range Prio_body (length rows) l st)
    = pGantt st ++ in_turn (pCurrentTime st) l.
Proof.
  induction 1 as [|p l Hp Hl IH]; intros rows st Hct Hend Hs.
  - simpl in *. rewrite !app_nil_r in *. auto.
  - cbn [for_range in_turn in_turn_rows].
    simpl in Hend.
    pose proof (in_turn_end_bound l Hl
                  (Z.max (pCurrentTime st) (ArrivalTime p) + BurstDuration p))
      as [Hlo _].
    destruct (Prio_body_in_turn (length rows) p st Hp Hct ltac:(lia))
      as (Hc & Hg & Hsch).
    specialize (IH (rows ++ [in_turn_row (pCurrentTime st) p])
                  (Prio_body (length rows) p st)).
    rewrite length_app, Nat.add_1_r, Hc in IH.
    destruct Hp as [Ha Hb].
    destruct IH as [IHs IHg]; [lia|exact Hend| |].
    + rewrite Hsch, Hs. cbn [length repeat].
      rewrite <- (length_map Some rows) at 1.
      rewrite upd_snoc_exact, map_app, <- app_assoc. reflexivity.
    + rewrite IHs, IHg, Hg. cbn [in_turn]. rewrite <- !app_assoc.
      split; reflexivity.
Qed.

(** X4. On processes whose arrivals and bursts are not negative and whose
    latest arrival plus total burst fits in an [int64],
    [SJFPrioritySchedule] is a schedule without preemption of the sorted
    processes, computed without overflow: each process starts when it has
    arrived and the one before it is done, its wait is its start minus
    its arrival, its turnaround its burst plus its wait, its exit its
    start plus its burst. No slice starts before its process arrives or
    before the slice ahead of it has stopped. *)
Theorem X4_priority_runs_in_turn `{SliceSort} (processes : list Process)
  (Hnonneg : Forall nonnegative processes)
  (Hfits : latest_arrival processes + total_burst processes
           <= Int64.MaxInt64) :
  outSchedule (snd (SJFPrioritySchedule processes))
  = map Some (in_turn_rows 0 (fst (SJFPrioritySchedule processes))) /\
  outGantt (snd (SJFPrioritySchedule processes))
  = in_turn 0 (fst (SJFPrioritySchedule processes)) /\
  slices_in_order 0 (outGantt (snd (SJFPrioritySchedule processes))).
Proof.
  unfold SJFPrioritySchedule. cbn [fst snd].
  set (sorted := sort_Slice lessArrivalBurst processes).
  assert (Hperm : Permutation processes sorted) by apply sort_Slice_perm.
  assert (Hnn : Forall nonnegative sorted).
  { eapply Permutation_Forall; eassumption. }
  assert (Hend : in_turn_end 0 sorted <= Int64.MaxInt64).
  { pose proof (in_turn_end_bound sorted Hnn 0) as [_ Hb].
    rewrite <- (latest_arrival_perm _ _ Hperm),
            <- (total_burst_perm _ _ Hperm) in Hb.
    pose proof (latest_arrival_nonneg processes). lia. }
  destruct (Prio_loop_in_turn sorted Hnn [] (Prio_init sorted))
    as [Hs Hg]; simpl; try lia; try reflexivity; try exact Hend.
  unfold Prio_run. cbn [outSchedule outGantt report].
  simpl in Hs, Hg. rewrite Hs, Hg.
  split; [reflexivity|]. split; [reflexivity|].
  apply in_turn_in_order, Hnn.
Qed.

(** Process 1 arrives at 2 with burst 6 and process 2 at 0 with burst 8:
    process 2 runs from 0 to 8 and process 1, after a wait of 6, from 8 to
    14. *)
Lemma X4_witness :
  outGantt (snd (SJFPrioritySchedule [P 1 2 6; P 2 0 8]))
  = [mkTimeSlice 2 0 8; mkTimeSlice 1 8 14].
Proof.
  destruct (X4_priority_runs_in_turn [P 1 2 6; P 2 0 8]) as (_ & Hg & _).
  - repeat constructor; simpl; lia.
  - vm_compute. discriminate.
  - rewrite Hg. reflexivity.
Defined.

(** ** Shortest job first: one row and one slice per process *)

(** The processes whose [completed] flag is set, slot by slot, and their
    ids. *)
Fixpoint done_rows (completed : list bool) (ps : list Process)
  : list (option Process) :=
  match completed, ps with
  | b :: c, p :: ps' => (if b then Some p else None) :: done_rows c ps'
  | _, _ => []
  end.

Fixpoint done_ids (completed : list bool) (ps : list Process) : list Z :=
  match completed, ps with
  | b :: c, p :: ps' => (if b then [ProcessID p] else []) ++ done_ids c ps'
  | _, _ => []
  end.

Lemma done_rows_upd idx c ps :
  (idx < length ps)%nat -> length c = length ps ->
  done_rows (upd idx true c) ps
  = upd idx (Some (nth idx ps zeroProcess)) (done_rows c ps).
Proof.
  revert idx ps; induction c as [|b c IH]; intros [|idx] [|p ps]; simpl;
    intros Hi Hl; try lia; auto.
  f_equal. apply IH; lia.
Qed.

Lemma done_ids_upd idx c ps :
  (idx < length ps)%nat -> length c = length ps ->
  nth idx c false = false ->
  Permutation (done_ids (upd idx true c) ps)
    (ProcessID (nth idx ps zeroProcess) :: done_ids c ps).
Proof.
  revert idx ps; induction c as [|b c IH]; intros [|idx] [|p ps]; simpl;
    intros Hi Hl Hc; try lia.
  - subst b. reflexivity.
  - rewrite IH by (auto; lia). symmetry. apply Permutation_middle.
Qed.

Lemma done_all c ps :
  unfinished c = 0%nat -> length c = length ps ->
  done_rows c ps = map Some ps /\ done_ids c ps = map ProcessID ps.
Proof.
  revert ps; induction c as [|b c IH]; intros [|p ps]; simpl;
    intros Hu Hl; try lia; auto.
  destruct b; simpl in Hu; [|lia].
  destruct (IH ps Hu ltac:(lia)) as [-> ->]. auto.
Qed.

Lemma done_none ps :
  done_rows (repeat false (length ps)) ps = repeat None (length ps) /\
  done_ids (repeat false (length ps)) ps = [].
Proof. induction ps as [|p ps [IH1 IH2]]; simpl; [auto|]. rewrite IH1, IH2. auto. Qed.

Section Accounting.
Variable processes : list Process.

(** The table holds a row for exactly the completed processes, each in
    its own slot, and the chart a slice for each of them. *)
Definition SJF_accounted (st : SJFState) : Prop :=
  SJF_wf processes st /\
  map (option_map row_process) (sSchedule st)
  = done_rows (sCompleted st) processes /\
  Permutation (map PID (sGantt st)) (done_ids (sCompleted st) processes).

Lemma SJF_init_accounted : SJF_accounted (SJF_init processes).
Proof.
  split; [apply SJF_init_wf|]. simpl.
  destruct (done_none processes) as [-> ->].
  rewrite map_repeat. split; reflexivity.
Qed.

Lemma SJF_body_accounted st :
  SJF_accounted st -> SJF_accounted (SJF_body processes st).
Proof.
  intros (Hwf & Hs & Hg).
  split; [apply SJF_body_wf, Hwf|].
  destruct Hwf as (Hlr & Hlc & _).
  unfold SJF_body.
  destruct (SJF_select processes st) as [idx|] eqn:E;
    [|cbn [sSchedule sCompleted sGantt]; auto].
  apply SJF_select_Some in E. destruct E as [[(Hidx & Hf & _) _] _].
  rewrite nth_upd_same by lia.
  destruct (Int64.sub (nth idx (sRemaining st) 0) 1 =? 0);
    cbn [sSchedule sCompleted sGantt]; [|auto].
  split.
  - rewrite map_upd, Hs, done_rows_upd by lia.
    cbn [option_map]. do 2 f_equal.
    unfold row_process. cbn [rowID rowArrival rowBurst rowPriority].
    destruct (nth idx processes zeroProcess). reflexivity.
  - rewrite map_app, done_ids_upd by (auto; lia).
    cbn [map PID]. rewrite <- Hg.
    symmetry. apply Permutation_cons_append.
Qed.

End Accounting.

(** X5. When the tick loop of [SJFSchedule] has ended, the table holds in
    slot [i] the row of the [i]-th process, for every process, and the
    Gantt chart holds one slice for each process. *)
Theorem X5_sjf_one_row_and_slice_per_process (fuel : nat)
  (processes : list Process) (r : list Process * Output)
  (Hends : SJFSchedule fuel processes = Some r) :
  map (option_map row_process) (outSchedule (snd r)) = map Some processes /\
  Permutation (map PID (outGantt (snd r))) (map ProcessID processes).
Proof.
  unfold SJFSchedule, SJF_run in Hends.
  destruct (SJF_loop fuel processes (SJF_init processes)) as [st|] eqn:E;
    [|discriminate].
  injection Hends as <-. cbn [snd outSchedule outGantt report].
  assert (Hdone : (length processes <= sProcDone st)%nat).
  { clear -E. revert E. generalize (SJF_init processes).
    induction fuel as [|fuel IH]; intros st0; simpl;
      destruct (Nat.ltb_spec (sProcDone st0) (length processes));
      try discriminate; try (intros [= <-]; assumption).
    apply IH. }
  apply (SJF_loop_inv (SJF_accounted processes) processes
           (SJF_body_accounted processes) fuel _ _
           (SJF_init_accounted processes)) in E.
  destruct E as ((_ & Hlc & Hd) & Hs & Hg).
  destruct (done_all (sCompleted st) processes ltac:(lia) Hlc) as [Hr Hi].
  rewrite Hs, Hr. split; [reflexivity|]. rewrite <- Hi. exact Hg.
Qed.

(** The textbook input: four rows in input order, four slices. *)
Lemma X5_witness :
  exists r,
    SJFSchedule 26 [P 1 0 8; P 2 1 4; P 3 2 9; P 4 3 5] = Some r /\
    Permutation (map PID (outGantt (snd r))) [1; 2; 3; 4].
Proof.
  destruct (SJFSchedule 26 [P 1 0 8; P 2 1 4; P 3 2 9; P 4 3 5])
    as [r|] eqn:E; [|vm_compute in E; discriminate E].
  exists r. split; [reflexivity|].
  apply (X5_sjf_one_row_and_slice_per_process _ _ _ E).
Defined.

(** ** Shortest job first without overflow *)

(** A row whose wait is not negative and whose turnaround and exit are the
    sums of the integers. *)
Definition exact_row (r : Row) : Prop :=
  0 <= rowWait r /\
  rowTurnaround r = rowBurst r + rowWait r /\
  rowExit r = rowArrival r + rowWait r + rowBurst r.

Lemma work_all_unfinished ps :
  work (repeat false (length ps)) (map BurstDuration ps) = total_burst ps.
Proof. induction ps as [|p ps IH]; simpl; [reflexivity|]. rewrite IH. reflexivity. Qed.

Section Makespan.
Variable processes : list Process.
Hypothesis arrivals_nonneg : Forall (fun p => 0 <= ArrivalTime p) processes.
Hypothesis bursts_positive : Forall (fun p => 1 <= BurstDuration p) processes.
Hypothesis fits :
  latest_arrival processes + total_burst processes < Int64.MaxInt64.

Let horizon : Z := latest_arrival processes + total_burst processes.

Lemma arrival_le_latest l i :
  (i < length l)%nat ->
  ArrivalTime (nth i l zeroProcess) <= latest_arrival l.
Proof.
  revert i; induction l as [|p l IH]; intros [|i]; simpl; intros Hi;
    try lia.
  specialize (IH i ltac:(lia)). lia.
Qed.

Lemma burst_le_total l i :
  Forall (fun p => 1 <= BurstDuration p) l -> (i < length l)%nat ->
  BurstDuration (nth i l zeroProcess) <= total_burst l.
Proof.
  intros Hl. revert i.
  induction Hl as [|p l Hp Hl IH]; intros [|i]; simpl; intros Hi; try lia.
  - assert (0 <= total_burst l).
    { clear -Hl. induction Hl; simpl; lia. }
    lia.
  - specialize (IH i ltac:(lia)). lia.
Qed.

Lemma bursts_below_sentinel :
  Forall (fun p => 1 <= BurstDuration p < Int64.MaxInt64) processes.
Proof.
  apply Forall_forall. intros p Hp.
  destruct (In_nth _ _ zeroProcess Hp) as (i & Hi & <-).
  pose proof (burst_le_total processes i bursts_positive Hi).
  pose proof (proj1 (Forall_forall _ _) bursts_positive _
                (nth_In processes zeroProcess Hi)) as H1. simpl in H1.
  pose proof (latest_arrival_nonneg processes). lia.
Qed.

(** The clock has not run past the work done, every process that has
    started has had its ticks after its arrival, and every row written so
    far is exact. *)
Definition SJF_on_time (st : SJFState) : Prop :=
  SJF_valid processes st /\
  0 <= sCurrentTime st /\
  sCurrentTime st + work (sCompleted st) (sRemaining st) <= horizon /\
  work (sCompleted st) (sRemaining st) <= total_burst processes /\
  (forall i, (i < length processes)%nat ->
     nth i (sCompleted st) false = false ->
     nth i (sRemaining st) 0 < BurstDuration (nth i processes zeroProcess) ->
     ArrivalTime (nth i processes zeroProcess)
     + (BurstDuration (nth i processes zeroProcess)
        - nth i (sRemaining st) 0)
     <= sCurrentTime st) /\
  Forall (fun o => match o with
                   | Some r => exact_row r /\ rowExit r <= horizon
                   | None => True
                   end) (sSchedule st).

Lemma SJF_init_on_time : SJF_on_time (SJF_init processes).
Proof.
  split; [apply SJF_init_valid, bursts_below_sentinel|].
  simpl. split; [lia|]. split.
  - rewrite work_all_unfinished. unfold horizon.
    pose proof (latest_arrival_nonneg processes). lia.
  - rewrite work_all_unfinished. split; [lia|]. split.
    + intros i Hi _.
      rewrite (nth_indep _ 0 (BurstDuration zeroProcess))
        by (rewrite length_map; exact Hi).
      rewrite map_nth. lia.
    + apply Forall_forall. intros o Ho. apply repeat_spec in Ho. subst.
      exact I.
Qed.

Lemma SJF_body_on_time st :
  SJF_on_time st -> (sProcDone st < length processes)%nat ->
  SJF_on_time (SJF_body processes st) /\
  sCurrentTime (SJF_body processes st) = sCurrentTime st + 1 /\
  sCurrentTime st < horizon.
Proof.
  intros (Hv & Hct & Hbound & Hleft & Hstarted & Hrows) Hlt.
  pose proof (SJF_body_valid processes bursts_below_sentinel st Hv) as Hv'.
  pose proof Hv as ((Hlr & Hlc & Hd) & _ & Hrem).
  assert (Hwork : forall i, (i < length processes)%nat ->
            nth i (sCompleted st) false = false ->
            nth i (sRemaining st) 0
            <= work (sCompleted st) (sRemaining st)).
  { intros i Hi Hc.
    assert (Hnn : forall c r, length c = length r ->
              (forall j, (j < length r)%nat -> nth j c false = false ->
                         0 <= nth j r 0) ->
              forall j, (j < length r)%nat -> nth j c false = false ->
                        nth j r 0 <= work c r).
    { induction c as [|b c IHc]; intros [|y r] Hl Hpos [|j] Hj Hcj;
        simpl in *; try lia.
      - subst b.
        assert (0 <= work c r).
        { apply work_nonneg; [lia|].
          intros k Hk Hck. apply (Hpos (S k)); [lia|exact Hck]. }
        lia.
      - assert (nth j r 0 <= work c r).
        { apply IHc; try lia; auto.
          intros k Hk Hck. apply (Hpos (S k)); [lia|exact Hck]. }
        destruct b; [lia|].
        specialize (Hpos 0%nat ltac:(lia) eq_refl). simpl in Hpos. lia. }
    apply Hnn; try congruence; try lia.
    intros j Hj Hcj. rewrite Hlr in Hj. specialize (Hrem j Hj Hcj). lia. }
  assert (Hin : forall z, 0 <= z <= horizon -> Int64.wrap z = z).
  { intros z Hz. apply Int64Facts.wrap_id.
    unfold Int64.in_range, Int64.MinInt64, Int64.MaxInt64, horizon in *.
    lia. }
  destruct (unfinished_witness (sCompleted st) ltac:(lia))
    as (j & Hj & Hcj).
  rewrite Hlc in Hj.
  assert (Hlt_h : sCurrentTime st < horizon).
  { pose proof (Hrem j Hj Hcj). pose proof (Hwork j Hj Hcj). lia. }
  assert (Hadd : Int64.add (sCurrentTime st) 1 = sCurrentTime st + 1).
  { apply Hin. lia. }
  split; [|split; [|exact Hlt_h]].
  2:{ unfold SJF_body.
      destruct (SJF_select processes st);
        [destruct (_ =? 0)|]; cbn [sCurrentTime]; exact Hadd. }
  split; [exact Hv'|].
  unfold SJF_body.
  destruct (SJF_select processes st) as [idx|] eqn:E.
  - pose proof (proj1 (SJF_select_Some processes st idx) E)
      as [[(Hidx & Hf & Harr) _] _].
    pose proof (Hrem idx Hidx Hf) as Hb.
    pose proof (Hwork idx Hidx Hf) as Hw.
    assert (Hs : Int64.sub (nth idx (sRemaining st) 0) 1
                 = nth idx (sRemaining st) 0 - 1).
    { apply Hin. lia. }
    rewrite nth_upd_same, Hs, Hadd by lia.
    assert (Hsince :
              ArrivalTime (nth idx processes zeroProcess)
              + BurstDuration (nth idx processes zeroProcess)
              - nth idx (sRemaining st) 0 <= sCurrentTime st).
    { destruct (Z.eq_dec (nth idx (sRemaining st) 0)
                  (BurstDuration (nth idx processes zeroProcess))).
      - lia.
      - specialize (Hstarted idx Hidx Hf ltac:(lia)). lia. }
    pose proof (proj1 (Forall_forall _ _) arrivals_nonneg _
                  (nth_In processes zeroProcess Hidx)) as Ha0.
    simpl in Ha0.
    destruct (Z.eqb_spec (nth idx (sRemaining st) 0 - 1) 0) as [H0|Hn0];
      cbn [sCurrentTime sCompleted sRemaining sSchedule].
    + (* the process completes *)
      assert (Hrem1 : nth idx (sRemaining st) 0 = 1) by lia.
      assert (Hw' : work (upd idx true (sCompleted st))
                      (upd idx (nth idx (sRemaining st) 0 - 1)
                         (sRemaining st))
                    = work (sCompleted st) (sRemaining st) - 1).
      { rewrite work_upd_done by (rewrite ?upd_length; auto; lia).
        rewrite work_upd_rem by (auto; lia).
        rewrite nth_upd_same by lia. lia. }
      rewrite Hw'.
      split; [lia|]. split; [lia|]. split; [lia|].
      split.
        -- intros i Hi Hci Hri.
           destruct (Nat.eq_dec i idx) as [->|Hne].
           ++ rewrite nth_upd_same in Hci by lia. discriminate.
           ++ rewrite nth_upd_other in Hci by auto.
              rewrite nth_upd_other in Hri by auto.
              rewrite nth_upd_other by auto.
              specialize (Hstarted i Hi Hci Hri). lia.
        -- apply Forall_upd; [exact Hrows|].
           set (p := nth idx processes zeroProcess) in *.
           unfold exact_row.
           cbn [rowWait rowTurnaround rowExit rowBurst rowArrival].
           unfold Int64.add, Int64.sub.
           rewrite (Hin (sCurrentTime st + 1 - BurstDuration p)) by lia.
           rewrite (Hin (sCurrentTime st + 1 - BurstDuration p
                         - ArrivalTime p)) by lia.
           rewrite (Hin (BurstDuration p
                         + (sCurrentTime st + 1 - BurstDuration p
                            - ArrivalTime p))) by lia.
           lia.
    + (* the process goes on *)
      rewrite work_upd_rem by (auto; lia).
      split; [lia|]. split; [lia|]. split; [lia|].
      split; [|exact Hrows].
      intros i Hi Hci Hri.
      destruct (Nat.eq_dec i idx) as [->|Hne].
      * rewrite nth_upd_same in * by lia. lia.
      * rewrite nth_upd_other in * by auto.
        specialize (Hstarted i Hi Hci Hri). lia.
  - (* idle *)
    cbn [sCurrentTime sCompleted sRemaining sSchedule]. rewrite Hadd.
    split; [lia|]. split.
    + assert (sCurrentTime st < ArrivalTime (nth j processes zeroProcess)).
      { destruct (Z.lt_ge_cases (sCurrentTime st)
                    (ArrivalTime (nth j processes zeroProcess)));
          [assumption|].
        exfalso.
        apply (proj1 (SJF_select_None processes st) E j).
        apply selectable_eligible; [exact bursts_below_sentinel|exact Hv|].
        repeat split; auto; lia. }
      pose proof (arrival_le_latest processes j Hj).
      unfold horizon. lia.
    + split; [exact Hleft|]. split; [|exact Hrows].
      intros i Hi Hci Hri. specialize (Hstarted i Hi Hci Hri). lia.
Qed.

End Makespan.

Lemma SJF_loop_on_time processes :
  Forall (fun p => 0 <= ArrivalTime p) processes ->
  Forall (fun p => 1 <= BurstDuration p) processes ->
  latest_arrival processes + total_burst processes < Int64.MaxInt64 ->
  forall fuel st,
    SJF_on_time processes st ->
    latest_arrival processes + total_burst processes - sCurrentTime st
    <= Z.of_nat fuel ->
    exists st',
      SJF_loop fuel processes st = Some st' /\ SJF_on_time processes st'.
Proof.
  intros Ha Hb Hfits. induction fuel as [|fuel IH]; intros st Hst Hfuel;
    simpl; destruct (Nat.ltb_spec (sProcDone st) (length processes))
      as [Hlt|Hge]; eauto.
  - destruct (SJF_body_on_time processes Ha Hb Hfits st Hst Hlt)
      as (_ & _ & Hh). lia.
  - destruct (SJF_body_on_time processes Ha Hb Hfits st Hst Hlt)
      as (Hst' & Hct & Hh).
    apply IH; [exact Hst'|lia].
Qed.

(** X6. On processes whose arrivals are not negative, whose bursts are at
    least 1 and whose latest arrival plus total burst is below
    [MaxInt64], the tick loop of [SJFSchedule] ends within that many
    ticks, and every row of its table is exact: the wait is not negative,
    the turnaround is the burst plus the wait and the exit the arrival
    plus the wait plus the burst, as integers; no exit is later than the
    latest arrival plus the total burst. *)
Theorem X6_sjf_ends_on_time_with_exact_rows (processes : list Process)
  (Harrivals : Forall (fun p => 0 <= ArrivalTime p) processes)
  (Hbursts : Forall (fun p => 1 <= BurstDuration p) processes)
  (Hfits : latest_arrival processes + total_burst processes
           < Int64.MaxInt64) :
  exists r,
    SJFSchedule
      (Z.to_nat (latest_arrival processes + total_burst processes))
      processes = Some r /\
    Forall (fun o => match o with
                     | Some row =>
                         exact_row row /\
                         rowExit row
                         <= latest_arrival processes + total_burst processes
                     | None => True
                     end) (outSchedule (snd r)).
Proof.
  destruct (SJF_loop_on_time processes Harrivals Hbursts Hfits
              (Z.to_nat (latest_arrival processes + total_burst processes))
              (SJF_init processes))
    as (st & E & Hst).
  - apply SJF_init_on_time; assumption.
  - simpl. pose proof (latest_arrival_nonneg processes).
    assert (0 <= total_burst processes).
    { clear -Hbursts. induction Hbursts; simpl; lia. }
    lia.
  - unfold SJFSchedule, SJF_run. rewrite E. cbn [option_map].
    eexists. split; [reflexivity|].
    cbn [snd outSchedule report].
    destruct Hst as (_ & _ & _ & _ & _ & Hrows). exact Hrows.
Qed.

(** The textbook input ends within 3 + 26 ticks, and its waits are 9, 0,
    15 and 2. *)
Lemma X6_witness :
  exists r,
    SJFSchedule 29 [P 1 0 8; P 2 1 4; P 3 2 9; P 4 3 5] = Some r /\
    map (option_map rowWait) (outSchedule (snd r))
    = [Some 9; Some 0; Some 15; Some 2].
Proof.
  destruct (X6_sjf_ends_on_time_with_exact_rows
              [P 1 0 8; P 2 1 4; P 3 2 9; P 4 3 5])
    as (r & E & _).
  - repeat constructor; simpl; lia.
  - repeat constructor; simpl; lia.
  - vm_compute. reflexivity.
  - exists r. split; [exact E|].
    vm_compute in E. injection E as <-. vm_compute. reflexivity.
Defined.

(** ** Round-robin, iteration by iteration *)

(** One iteration of the queue loop, and nothing once the queue is
    empty. *)
Definition RR_step (processes : list Process) (st : RRState) : RRState :=
  match rQueue st with
  | [] => st
  | currentIdx :: queue => RR_body processes currentIdx queue st
  end.

Lemma RR_loop_steps ps fuel :
  forall st st',
    RR_loop fuel ps st = Some st' ->
    exists k, (k <= fuel)%nat /\ st' = Nat.iter k (RR_step ps) st /\
              rQueue st' = [].
Proof.
  induction fuel as [|fuel IH]; intros st st' E.
  - destruct (rQueue st) as [|idx q] eqn:Hq.
    + exists 0%nat. unfold RR_loop in E. rewrite Hq in E.
      injection E as <-. auto.
    + unfold RR_loop in E. rewrite Hq in E. discriminate.
  - destruct (rQueue st) as [|idx q] eqn:Hq.
    + exists 0%nat. cbn [RR_loop] in E. rewrite Hq in E.
      injection E as <-. split; [lia|]. auto.
    + cbn [RR_loop] in E. rewrite Hq in E.
      destruct (IH _ _ E) as (k & Hk & -> & Hempty).
      exists (S k). split; [lia|]. split; [|exact Hempty].
      rewrite Nat.iter_succ_r.
      replace (RR_step ps st) with (RR_body ps idx q st)
        by (unfold RR_step; rewrite Hq; reflexivity).
      reflexivity.
Qed.

Lemma RR_step_in_bounds ps st :
  RR_in_bounds ps st -> RR_in_bounds ps (RR_step ps st).
Proof.
  intros H. unfold RR_step. destruct (rQueue st) as [|idx q] eqn:Hq;
    [exact H|]. apply RR_body_in_bounds; assumption.
Qed.

(** X7. The queue loop of [RRSchedule] indexes inside its slices: after
    any number of iterations every index waiting in the queue is an index
    of [processes], and [remainingBursts] and [completionTimes] have the
    length of [processes]. *)
Theorem X7_round_robin_indexes_in_bounds (processes : list Process)
  (iterations : nat) :
  RR_in_bounds processes
    (Nat.iter iterations (RR_step processes) (RR_init processes)).
Proof.
  induction iterations as [|k IH]; simpl.
  - apply RR_init_in_bounds.
  - apply RR_step_in_bounds, IH.
Qed.

(** *** The clock counts the time served *)

Fixpoint sum_Z (l : list Z) : Z :=
  match l with
  | [] => 0
  | x :: l' => x + sum_Z l'
  end.

Lemma sum_Z_upd i x l :
  (i < length l)%nat -> sum_Z (upd i x l) = sum_Z l - nth i l 0 + x.
Proof.
  revert i; induction l as [|y l IH]; intros [|i]; simpl; intros Hi;
    try lia.
  rewrite IH by lia. lia.
Qed.

Lemma sum_Z_bursts ps : sum_Z (map BurstDuration ps) = total_burst ps.
Proof. induction ps as [|p ps IH]; simpl; [reflexivity|]. rewrite IH. reflexivity. Qed.

Section Served.
Variable processes : list Process.
Hypothesis bursts_nonneg : Forall (fun p => 0 <= BurstDuration p) processes.
Hypothesis fits : total_burst processes <= Int64.MaxInt64.

(** Nothing is served twice over: what is left of each burst lies between
    0 and the burst, and the clock shows what has been served. *)
Definition RR_served (st : RRState) : Prop :=
  RR_in_bounds processes st /\
  (forall i, (i < length processes)%nat ->
     0 <= nth i (rRemaining st) 0
       <= BurstDuration (nth i processes zeroProcess)) /\
  rCurrentTime st = total_burst processes - sum_Z (rRemaining st).

Lemma sum_Z_bounds (rem : list Z) :
  length rem = length processes ->
  (forall i, (i < length processes)%nat ->
     0 <= nth i rem 0 <= BurstDuration (nth i processes zeroProcess)) ->
  0 <= sum_Z rem <= total_burst processes /\
  forall i, (i < length processes)%nat -> nth i rem 0 <= sum_Z rem.
Proof.
  clear bursts_nonneg fits. revert rem.
  induction processes as [|p ps IH]; intros [|r rem]; simpl;
    intros Hl Hb; try lia.
  - split; [lia|]. intros i Hi. lia.
  - destruct (IH rem ltac:(lia)) as [Hs Hn].
    { intros i Hi. apply (Hb (S i)). lia. }
    pose proof (Hb 0%nat ltac:(lia)) as H0. simpl in H0.
    split; [lia|].
    intros [|i] Hi; [lia|]. specialize (Hn i ltac:(lia)). lia.
Qed.

Lemma RR_init_served : RR_served (RR_init processes).
Proof.
  split; [apply RR_init_in_bounds|]. simpl. split.
  - intros i Hi.
    rewrite (nth_indep _ 0 (BurstDuration zeroProcess))
      by (rewrite length_map; exact Hi).
    rewrite map_nth.
    pose proof (proj1 (Forall_forall _ _) bursts_nonneg _
                  (nth_In processes zeroProcess Hi)) as H0.
    simpl in H0. lia.
  - rewrite sum_Z_bursts. lia.
Qed.

Lemma RR_body_served idx q st :
  rQueue st = idx :: q -> RR_served st ->
  RR_served (RR_body processes idx q st).
Proof.
  intros Hq (Hb & Hrem & Hct).
  split; [apply RR_body_in_bounds; assumption|].
  pose proof Hb as (Hqueue & Hlr & _).
  rewrite Hq in Hqueue. inversion Hqueue as [|? ? Hidx _]; subst.
  destruct (sum_Z_bounds (rRemaining st) Hlr Hrem) as [Hsum Hnth].
  pose proof (Hrem idx Hidx) as Hri. pose proof (Hnth idx Hidx) as Hrs.
  assert (Hin : forall z, 0 <= z <= total_burst processes ->
                          Int64.wrap z = z).
  { intros z Hz. apply Int64Facts.wrap_id.
    unfold Int64.in_range, Int64.MinInt64, Int64.MaxInt64 in *. lia. }
  unfold RR_body.
  set (st1 := if nth idx (rRemaining st) 0 <=? quantum then _ else _).
  assert (H1 : (forall i, (i < length processes)%nat ->
                  0 <= nth i (rRemaining st1) 0
                    <= BurstDuration (nth i processes zeroProcess)) /\
               rCurrentTime st1
               = total_burst processes - sum_Z (rRemaining st1)).
  { subst st1. change quantum with 6.
    destruct (Z.leb_spec (nth idx (rRemaining st) 0) 6);
      cbn [rRemaining rCurrentTime]; unfold Int64.add, Int64.sub.
    - rewrite sum_Z_upd by lia. rewrite Hin by lia. split; [|lia].
      intros i Hi. destruct (Nat.eq_dec i idx) as [->|Hne].
      + rewrite nth_upd_same by lia. lia.
      + rewrite nth_upd_other by auto. apply Hrem, Hi.
    - rewrite sum_Z_upd by lia.
      rewrite (Hin (nth idx (rRemaining st) 0 - 6)) by lia.
      rewrite Hin by lia. split; [|lia].
      intros i Hi. destruct (Nat.eq_dec i idx) as [->|Hne].
      + rewrite nth_upd_same by lia. lia.
      + rewrite nth_upd_other by auto. apply Hrem, Hi. }
  destruct (RR_arrivals _ _ _ _ _) as [q' cp'].
  cbn [rRemaining rCurrentTime]. exact H1.
Qed.

Lemma RR_step_served st : RR_served st -> RR_served (RR_step processes st).
Proof.
  intros H. unfold RR_step. destruct (rQueue st) as [|idx q] eqn:Hq;
    [exact H|]. apply RR_body_served; assumption.
Qed.

End Served.

(** X8. The clock of [RRSchedule] counts the time served and nothing
    else. On bursts that are not negative and whose sum fits in an
    [int64], after any number of iterations what is left of each burst
    lies between 0 and the burst, and the current time is the total burst
    minus what is left: the clock never waits for an arrival. *)
Theorem X8_round_robin_clock_is_time_served (processes : list Process)
  (Hbursts : Forall (fun p => 0 <= BurstDuration p) processes)
  (Hfits : total_burst processes <= Int64.MaxInt64)
  (iterations : nat) :
  let st := Nat.iter iterations (RR_step processes) (RR_init processes) in
  (forall i, (i < length processes)%nat ->
     0 <= nth i (rRemaining st) 0
       <= BurstDuration (nth i processes zeroProcess)) /\
  rCurrentTime st = total_burst processes - sum_Z (rRemaining st).
Proof.
  cbv zeta.
  assert (H : RR_served processes
                (Nat.iter iterations (RR_step processes)
                   (RR_init processes))).
  { induction iterations as [|k IH]; simpl.
    - apply RR_init_served, Hbursts.
    - apply RR_step_served; assumption. }
  destruct H as (_ & Hrem & Hct). split; assumption.
Qed.

(** One process that arrives at 5 with burst 2: after one iteration the
    clock shows 2, the time served. *)
Lemma X8_witness :
  rCurrentTime (Nat.iter 1 (RR_step [P 1 5 2]) (RR_init [P 1 5 2])) = 2.
Proof.
  destruct (X8_round_robin_clock_is_time_served [P 1 5 2]) with
    (iterations := 1%nat) as [_ H].
  - repeat constructor; simpl; lia.
  - vm_compute. discriminate.
  - rewrite H. reflexivity.
Defined.

(** *** Who is served, and how often *)

Lemma RR_iter_inv (Inv : RRState -> Prop) ps :
  (forall idx q st,
      rQueue st = idx :: q -> Inv st -> Inv (RR_body ps idx q st)) ->
  forall k st, Inv st -> Inv (Nat.iter k (RR_step ps) st).
Proof.
  intros Hbody. induction k as [|k IH]; intros st H; simpl; [exact H|].
  specialize (IH st H). unfold RR_step at 1.
  destruct (rQueue (Nat.iter k (RR_step ps) st)) eqn:Hq; auto.
Qed.

Lemma RR_arrivals_keeps ct rest :
  forall i q cp, exists q', fst (RR_arrivals ct rest i q cp) = q ++ q'.
Proof.
  induction rest as [|p rest IH]; intros i q cp; simpl.
  - exists []. rewrite app_nil_r. reflexivity.
  - destruct (ArrivalTime p <=? ct).
    + destruct (IH (S i) (q ++ [i]) (S cp)) as [q' Hq'].
      exists (i :: q'). rewrite Hq', <- app_assoc. reflexivity.
    + exists []. rewrite app_nil_r. reflexivity.
Qed.

Lemma RR_arrivals_all ct rest :
  Forall (fun p => ArrivalTime p <= ct) rest ->
  forall i q cp,
    RR_arrivals ct rest i q cp
    = (q ++ seq i (length rest), (cp + length rest)%nat).
Proof.
  induction 1 as [|p rest Hp _ IH]; intros i q cp; simpl.
  - rewrite app_nil_r. f_equal. lia.
  - destruct (Z.leb_spec (ArrivalTime p) ct); [|lia].
    rewrite IH, <- app_assoc. simpl. f_equal. lia.
Qed.

(** What one iteration does to the queue, the chart and the completion
    times: the process at the front either ends, and is charted, or goes
    to the back of the queue; the arrivals come after it. *)
Lemma RR_body_queue_gantt ps idx q st :
  exists q',
    (nth idx (rRemaining st) 0 <= quantum /\
     rQueue (RR_body ps idx q st) = q ++ q' /\
     map PID (rGantt (RR_body ps idx q st))
     = map PID (rGantt st) ++ [ProcessID (nth idx ps zeroProcess)] /\
     exists c,
       rCompletionTimes (RR_body ps idx q st)
       = upd idx c (rCompletionTimes st)) \/
    (quantum < nth idx (rRemaining st) 0 /\
     rQueue (RR_body ps idx q st) = q ++ idx :: q' /\
     rGantt (RR_body ps idx q st) = rGantt st /\
     rCompletionTimes (RR_body ps idx q st) = rCompletionTimes st).
Proof.
  unfold RR_body.
  destruct (Z.leb_spec (nth idx (rRemaining st) 0) quantum) as [Hle|Hgt];
    cbn [rCurrentTime rQueue rCompletedProcesses rGantt rCompletionTimes];
    match goal with
    | |- context [RR_arrivals ?a ?b ?c ?d ?e] =>
        destruct (RR_arrivals_keeps a b c d e) as [q' Hq'];
        destruct (RR_arrivals a b c d e) as [q2 cp2]
    end;
    cbn [fst] in Hq'; subst q2; exists q';
    cbn [rCurrentTime rQueue rCompletedProcesses rGantt rCompletionTimes].
  - left. split; [exact Hle|]. split; [reflexivity|]. split.
    + rewrite map_app. reflexivity.
    + eexists. reflexivity.
  - right. split; [exact Hgt|]. split; [|split; reflexivity].
    rewrite <- app_assoc. reflexivity.
Qed.

(** How many slices of the chart carry a process id. *)
Definition charted (pid : Z) (gantt : list TimeSlice) : nat :=
  count_occ Z.eq_dec (map PID gantt) pid.

Lemma charted_app pid g1 g2 :
  charted pid (g1 ++ g2) = (charted pid g1 + charted pid g2)%nat.
Proof. unfold charted. rewrite map_app, count_occ_app. reflexivity. Qed.

Lemma count_occ_map_PID pid g1 g2 :
  map PID g1 = map PID g2 -> charted pid g1 = charted pid g2.
Proof. unfold charted. intros ->. reflexivity. Qed.

Section FirstTwice.
Variables (first : Process) (rest : list Process).
Hypothesis long_burst : quantum < BurstDuration first.
Hypothesis early : ArrivalTime first <= quantum.

Let ps := first :: rest.

(** Index 0 is in the queue, or its process in the chart, twice over. *)
Definition RR_twice (st : RRState) : Prop :=
  (2 <= count_occ Nat.eq_dec (rQueue st) 0%nat
        + charted (ProcessID first) (rGantt st))%nat.

Lemma RR_first_turn_twice : RR_twice (RR_step ps (RR_init ps)).
Proof.
  unfold RR_twice, RR_step, RR_init, RR_body, ps.
  cbn [length Nat.ltb Nat.leb rQueue rRemaining map nth].
  destruct (Z.leb_spec (BurstDuration first) quantum) as [Hle|_]; [lia|].
  cbn [rCurrentTime rQueue rCompletedProcesses rGantt skipn RR_arrivals].
  replace (Int64.add 0 quantum) with quantum by (vm_compute; reflexivity).
  destruct (Z.leb_spec (ArrivalTime first) quantum) as [_|Hgt]; [|lia].
  match goal with
  | |- context [RR_arrivals ?a ?b ?c ?d ?e] =>
      destruct (RR_arrivals_keeps a b c d e) as [q' Hq'];
      destruct (RR_arrivals a b c d e) as [q2 cp2]
  end.
  cbn [fst] in Hq'. subst q2. cbn [rQueue rGantt app count_occ].
  destruct (Nat.eq_dec 0 0) as [_|Hne]; [lia|contradiction].
Qed.

Lemma RR_body_twice idx q st :
  rQueue st = idx :: q -> RR_twice st -> RR_twice (RR_body ps idx q st).
Proof.
  unfold RR_twice. intros Hq H. rewrite Hq in H.
  destruct (RR_body_queue_gantt ps idx q st)
    as [q' [(_ & -> & Hg & _)|(_ & -> & -> & _)]].
  - unfold charted in *. rewrite Hg, !count_occ_app.
    destruct idx as [|idx]; cbn [count_occ nth ps] in *.
    + destruct (Nat.eq_dec 0 0) as [_|Hne]; [|contradiction].
      destruct (Z.eq_dec (ProcessID first) (ProcessID first))
        as [_|Hne]; [lia|contradiction].
    + destruct (Nat.eq_dec (S idx) 0) as [Heq|_]; [discriminate|]. lia.
  - rewrite !count_occ_app. cbn [count_occ] in *.
    destruct (Nat.eq_dec idx 0); lia.
Qed.

End FirstTwice.

Lemma RR_run_final fuel ps out :
  RR_run fuel ps = Some out ->
  exists k st,
    st = Nat.iter k (RR_step ps) (RR_init ps) /\ rQueue st = [] /\
    outGantt out = rGantt st /\
    outSchedule out
    = for_range (RR_row_body (rCompletionTimes st)) 0 ps
        (repeat None (length ps)).
Proof.
  unfold RR_run.
  destruct (RR_loop fuel ps (RR_init ps)) as [st|] eqn:E; [|discriminate].
  intros [= <-]. destruct (RR_loop_steps _ _ _ _ E) as (k & _ & Hst & Hq).
  exists k, st. auto.
Qed.

(** X9. [RRSchedule] charts the first process of the sorted slice twice
    when its burst exceeds the quantum and it arrives by the end of the
    first quantum: the arrivals loop after the first turn starts at index
    0 again, so the process stands in the queue twice and ends twice. *)
Theorem X9_round_robin_charts_first_process_twice `{SliceSort}
  (fuel : nat) (processes : list Process)
  (r : list Process * Output) (first : Process)
  (Hends : RRSchedule fuel processes = Some r)
  (Hfirst : hd_error (fst r) = Some first)
  (Hburst : quantum < BurstDuration first)
  (Harrival : ArrivalTime first <= quantum) :
  (2 <= charted (ProcessID first) (outGantt (snd r)))%nat.
Proof.
  unfold RRSchedule in Hends.
  destruct (RR_run fuel (sort_Slice lessArrival processes)) as [out|] eqn:E;
    [|discriminate].
  injection Hends as <-. cbn [fst snd] in *.
  destruct (sort_Slice lessArrival processes) as [|p rest]; [discriminate|].
  injection Hfirst as ->.
  destruct (RR_run_final _ _ _ E) as (k & st & Hst & Hq & Hg & _).
  rewrite Hg. destruct k as [|k].
  - subst st. discriminate Hq.
  - rewrite Nat.iter_succ_r in Hst.
    assert (Htw : RR_twice first st).
    { subst st. apply RR_iter_inv.
      - intros idx q st. apply RR_body_twice.
      - apply RR_first_turn_twice; assumption. }
    unfold RR_twice in Htw. rewrite Hq in Htw. exact Htw.
Qed.

(** The input of the round-robin sample: the chart shows process 1
    twice. *)
Lemma X9_witness :
  exists r,
    RRSchedule 4 [P 1 0 10; P 2 1 4] = Some r /\
    (2 <= charted 1 (outGantt (snd r)))%nat.
Proof.
  destruct (RRSchedule 4 [P 1 0 10; P 2 1 4]) as [r|] eqn:E;
    [|vm_compute in E; discriminate E].
  exists r. split; [reflexivity|].
  apply (X9_round_robin_charts_first_process_twice 4 [P 1 0 10; P 2 1 4]
           r (P 1 0 10) E).
  - vm_compute in E. injection E as <-. reflexivity.
  - vm_compute. reflexivity.
  - vm_compute. discriminate.
Defined.

(** Once the cursor of the arrivals loop is past the last index, nobody
    is admitted any more. *)
Lemma RR_body_cursor_at_end ps idx q st :
  (length ps <= rCompletedProcesses st)%nat ->
  (length ps <= rCompletedProcesses (RR_body ps idx q st))%nat /\
  rQueue (RR_body ps idx q st)
  = if nth idx (rRemaining st) 0 <=? quantum then q else q ++ [idx].
Proof.
  intros Hcp. unfold RR_body.
  destruct (nth idx (rRemaining st) 0 <=? quantum);
    cbn [rCurrentTime rQueue rCompletedProcesses];
    rewrite skipn_all2 by lia;
    cbn [RR_arrivals rQueue rCompletedProcesses]; split; auto; lia.
Qed.

Lemma RR_step_idle ps st k :
  rQueue st = [] -> Nat.iter k (RR_step ps) st = st.
Proof.
  intros Hq. induction k as [|k IH]; simpl; [reflexivity|].
  rewrite IH. unfold RR_step. rewrite Hq. reflexivity.
Qed.

(** The second turn of the first process, when its burst exceeds the
    quantum. *)
Definition extra_turn (sorted : list Process) : nat :=
  match sorted with
  | [] => 0
  | first :: _ => if quantum <? BurstDuration first then 1 else 0
  end.

Section AllPresent.
Variables (first : Process) (rest : list Process).
Let ps := first :: rest.
Hypothesis present :
  Forall (fun p => ArrivalTime p <= 0 <= BurstDuration p) ps.

(** Every process is in the queue or in the chart, nobody is left to be
    admitted, and the queue and the chart together hold one entry per
    process and one more for the extra turn. *)
Definition RR_all_in (st : RRState) : Prop :=
  (length ps <= rCompletedProcesses st)%nat /\
  (forall i, (i < length ps)%nat ->
     In i (rQueue st) \/
     In (ProcessID (nth i ps zeroProcess)) (map PID (rGantt st))) /\
  (length (rQueue st) + length (rGantt st)
   = length ps + extra_turn ps)%nat.

Lemma RR_first_turn_all_in : RR_all_in (RR_step ps (RR_init ps)).
Proof.
  pose proof present as Hall. unfold ps in Hall.
  inversion Hall as [|? ? [Ha Hb] Hrest]; subst.
  unfold RR_all_in, RR_step, RR_init, RR_body, extra_turn, ps.
  cbn [length Nat.ltb Nat.leb rQueue rRemaining map nth].
  change quantum with 6 in *.
  destruct (Z.leb_spec (BurstDuration first) 6) as [Hle|Hgt].
  - destruct (Z.ltb_spec 6 (BurstDuration first)) as [Hlt|_]; [lia|].
    cbn [rCurrentTime rQueue rCompletedProcesses rGantt skipn].
    rewrite RR_arrivals_all.
    2:{ unfold Int64.add. rewrite Int64Facts.wrap_id.
        - eapply Forall_impl; [|exact Hrest]. cbv beta. intros p Hp. lia.
        - unfold Int64.in_range, Int64.MinInt64, Int64.MaxInt64. lia. }
    cbn [rQueue rCompletedProcesses rGantt app length map].
    rewrite length_seq. split; [lia|]. split; [|lia].
    intros [|i] Hi.
    + right. left. reflexivity.
    + left. apply in_seq. lia.
  - destruct (Z.ltb_spec 6 (BurstDuration first)) as [_|Hle]; [|lia].
    cbn [rCurrentTime rQueue rCompletedProcesses rGantt skipn].
    rewrite RR_arrivals_all.
    2:{ replace (Int64.add 0 6) with 6 by (vm_compute; reflexivity).
        eapply Forall_impl; [|exact Hall]. cbv beta. intros p Hp. lia. }
    cbn [rQueue rCompletedProcesses rGantt app length map].
    rewrite length_seq. split; [lia|]. split; [|lia].
    intros i Hi. left. right. apply in_seq. cbn [length] in Hi. lia.
Qed.

Lemma RR_body_all_in idx q st :
  rQueue st = idx :: q -> RR_all_in st -> RR_all_in (RR_body ps idx q st).
Proof.
  intros Hq (Hcp & Hin & Hlen).
  destruct (RR_body_cursor_at_end ps idx q st Hcp) as [Hcp' Hq'].
  split; [exact Hcp'|]. rewrite Hq in Hin, Hlen.
  destruct (RR_body_queue_gantt ps idx q st)
    as [q' [(Hle & Hqueue & Hg & _)|(Hgt & Hqueue & Hg & _)]].
  - split.
    + intros i Hi. rewrite Hqueue, Hg.
      destruct (Hin i Hi) as [[<-|Hi']|Hi'].
      * right. apply in_or_app. right. left. reflexivity.
      * left. apply in_or_app. left. exact Hi'.
      * right. apply in_or_app. left. exact Hi'.
    + apply (f_equal (@length _)) in Hg.
      rewrite length_app, !length_map in Hg. rewrite Hg, Hq'.
      destruct (Z.leb_spec (nth idx (rRemaining st) 0) quantum); [|lia].
      cbn [length] in *. lia.
  - split.
    + intros i Hi. rewrite Hqueue, Hg.
      destruct (Hin i Hi) as [[<-|Hi']|Hi'].
      * left. apply in_or_app. right. left. reflexivity.
      * left. apply in_or_app. left. exact Hi'.
      * right. exact Hi'.
    + rewrite Hg, Hq'.
      destruct (Z.leb_spec (nth idx (rRemaining st) 0) quantum); [lia|].
      rewrite length_app. cbn [length] in *. lia.
Qed.

End AllPresent.

(** X10. When every process is there at time 0 (no arrival time above 0)
    and no burst is negative, [RRSchedule] serves them all: every process
    id is in the chart, and the chart has one slice per process, and one
    more when the burst of the first process of the sorted slice exceeds
    the quantum. *)
Theorem X10_round_robin_serves_all_present_at_start `{SliceSort}
  (fuel : nat) (processes : list Process) (r : list Process * Output)
  (Hends : RRSchedule fuel processes = Some r)
  (Hpresent :
     Forall (fun p => ArrivalTime p <= 0 <= BurstDuration p) processes) :
  (forall p, In p processes ->
             In (ProcessID p) (map PID (outGantt (snd r)))) /\
  length (outGantt (snd r)) = (length processes + extra_turn (fst r))%nat.
Proof.
  unfold RRSchedule in Hends.
  pose proof (sort_Slice_perm _ lessArrival processes) as Hperm.
  destruct (RR_run fuel (sort_Slice lessArrival processes)) as [out|] eqn:E;
    [|discriminate].
  injection Hends as <-. cbn [fst snd].
  assert (Hsorted : Forall (fun p => ArrivalTime p <= 0 <= BurstDuration p)
                      (sort_Slice lessArrival processes))
    by (eapply Permutation_Forall; eassumption).
  rewrite (Permutation_length Hperm).
  assert (Hgoal :
    (forall i, (i < length (sort_Slice lessArrival processes))%nat ->
       In (ProcessID (nth i (sort_Slice lessArrival processes) zeroProcess))
          (map PID (outGantt out))) /\
    length (outGantt out)
    = (length (sort_Slice lessArrival processes)
       + extra_turn (sort_Slice lessArrival processes))%nat).
  { destruct (RR_run_final _ _ _ E) as (k & st & Hst & Hq & Hg & _).
    rewrite Hg.
    destruct (sort_Slice lessArrival processes) as [|p rest].
    - rewrite RR_step_idle in Hst by reflexivity. subst st.
      split; [|reflexivity]. cbn [length]. intros i Hi. lia.
    - destruct k as [|k]; [subst st; discriminate Hq|].
      rewrite Nat.iter_succ_r in Hst.
      assert (Hall : RR_all_in p rest st).
      { subst st. apply RR_iter_inv.
        - intros idx q st. apply RR_body_all_in.
        - apply RR_first_turn_all_in, Hsorted. }
      destruct Hall as (_ & Hin & Hlen). rewrite Hq in Hin, Hlen.
      split; [|exact Hlen].
      intros i Hi. destruct (Hin i Hi) as [[]|Hi']. exact Hi'. }
  destruct Hgoal as [Hin Hlen]. split; [|exact Hlen].
  intros p Hp. apply (Permutation_in _ Hperm) in Hp.
  destruct (In_nth _ _ zeroProcess Hp) as (i & Hi & <-). apply Hin, Hi.
Qed.

(** Two processes there at time 0, the first with a burst above the
    quantum: three slices. *)
Lemma X10_witness :
  exists r,
    RRSchedule 5 [P 1 0 10; P 2 0 4] = Some r /\
    length (outGantt (snd r)) = 3%nat.
Proof.
  destruct (RRSchedule 5 [P 1 0 10; P 2 0 4]) as [r|] eqn:E;
    [|vm_compute in E; discriminate E].
  exists r. split; [reflexivity|].
  destruct (X10_round_robin_serves_all_present_at_start
              5 [P 1 0 10; P 2 0 4] r E) as [_ Hlen].
  - repeat constructor; simpl; lia.
  - rewrite Hlen. vm_compute in E. injection E as <-. reflexivity.
Defined.

(** *** The rows of the processes that were never served *)

(** The row that the last loop of [RRSchedule] writes at [idx]. *)
Definition RR_row (completionTimes : list Z) (idx : nat) (p : Process)
  : Row :=
  let waitingTime :=
    Int64.sub (Int64.sub (nth idx completionTimes 0) (BurstDuration p))
      (ArrivalTime p) in
  mkRow (ProcessID p) (Priority p) (BurstDuration p) (ArrivalTime p)
    waitingTime (Int64.add (BurstDuration p) waitingTime)
    (nth idx completionTimes 0).

Lemma RR_row_body_row cts idx p sched :
  RR_row_body cts idx p sched = upd idx (Some (RR_row cts idx p)) sched.
Proof. reflexivity. Qed.

Lemma RR_rows_before cts l :
  forall j sched i,
    (i < j)%nat ->
    nth i (for_range (RR_row_body cts) j l sched) None = nth i sched None.
Proof.
  induction l as [|p l IH]; intros j sched i Hi; simpl; [reflexivity|].
  rewrite IH by lia. rewrite RR_row_body_row. apply nth_upd_other. lia.
Qed.

Lemma RR_rows_length cts l :
  forall j sched,
    length (for_range (RR_row_body cts) j l sched) = length sched.
Proof.
  induction l as [|p l IH]; intros j sched; simpl; [reflexivity|].
  rewrite IH, RR_row_body_row. apply upd_length.
Qed.

Lemma RR_rows_nth cts l :
  forall j sched i row,
    nth i (for_range (RR_row_body cts) j l sched) None = Some row ->
    (j <= i < j + length l)%nat ->
    row = RR_row cts i (nth (i - j) l zeroProcess).
Proof.
  induction l as [|p l IH]; intros j sched i row Hrow Hi; simpl in *;
    [lia|].
  destruct (Nat.eq_dec i j) as [->|Hne].
  - rewrite RR_rows_before in Hrow by lia.
    rewrite RR_row_body_row in Hrow.
    destruct (Nat.lt_ge_cases j (length sched)) as [Hlt|Hge].
    + rewrite nth_upd_same in Hrow by exact Hlt.
      injection Hrow as <-. rewrite Nat.sub_diag. reflexivity.
    + rewrite nth_overflow in Hrow by (rewrite upd_length; exact Hge).
      discriminate.
  - replace (i - j)%nat with (S (i - S j)) by lia.
    apply (IH (S j) _ i row Hrow). lia.
Qed.

(** A completion time is written only when the process is charted. *)
Definition RR_charted_or_zero (ps : list Process) (st : RRState) : Prop :=
  forall i,
    nth i (rCompletionTimes st) 0 = 0 \/
    In (ProcessID (nth i ps zeroProcess)) (map PID (rGantt st)).

Lemma RR_init_charted_or_zero ps : RR_charted_or_zero ps (RR_init ps).
Proof.
  intros i. left. cbn [RR_init rCompletionTimes].
  destruct (Nat.lt_ge_cases i (length ps)) as [Hlt|Hge].
  - apply nth_repeat_lt. exact Hlt.
  - apply nth_overflow. rewrite repeat_length. exact Hge.
Qed.

Lemma RR_body_charted_or_zero ps idx q st :
  rQueue st = idx :: q ->
  RR_charted_or_zero ps st -> RR_charted_or_zero ps (RR_body ps idx q st).
Proof.
  intros _ Hinv i.
  destruct (RR_body_queue_gantt ps idx q st)
    as [q' [(_ & _ & Hg & c & Hc)|(_ & _ & Hg & Hc)]];
    rewrite Hg, Hc.
  - destruct (Nat.eq_dec idx i) as [->|Hne].
    + right. apply in_or_app. right. left. reflexivity.
    + rewrite nth_upd_other by exact Hne.
      destruct (Hinv i) as [Hz|Hin]; [left; exact Hz|].
      right. apply in_or_app. left. exact Hin.
  - apply Hinv.
Qed.

(** X11. A process that [RRSchedule] never charts is reported as if it
    had ended at time 0: its row has exit time 0 and the wait
    [0 - burst - arrival]. This is the row of every process that had not
    arrived when the queue ran empty. *)
Theorem X11_round_robin_rows_of_the_unserved `{SliceSort}
  (fuel : nat) (processes : list Process) (r : list Process * Output)
  (i : nat) (row : Row)
  (Hends : RRSchedule fuel processes = Some r)
  (Hrow : nth i (outSchedule (snd r)) None = Some row)
  (Hunserved : ~ In (rowID row) (map PID (outGantt (snd r)))) :
  row_process row = nth i (fst r) zeroProcess /\
  rowExit row = 0 /\
  rowWait row = Int64.sub (Int64.sub 0 (rowBurst row)) (rowArrival row).
Proof.
  unfold RRSchedule in Hends.
  destruct (RR_run fuel (sort_Slice lessArrival processes)) as [out|] eqn:E;
    [|discriminate].
  injection Hends as <-. cbn [fst snd] in *.
  destruct (RR_run_final _ _ _ E) as (k & st & Hst & _ & Hg & Hs).
  rewrite Hg in Hunserved. rewrite Hs in Hrow.
  assert (Hi : (i < length (sort_Slice lessArrival processes))%nat).
  { destruct (Nat.lt_ge_cases i
                (length (sort_Slice lessArrival processes))) as [Hlt|Hge];
      [exact Hlt|].
    rewrite nth_overflow in Hrow; [discriminate|].
    rewrite RR_rows_length, repeat_length. exact Hge. }
  apply RR_rows_nth in Hrow; [|lia]. rewrite Nat.sub_0_r in Hrow.
  assert (Hinv : RR_charted_or_zero (sort_Slice lessArrival processes) st).
  { subst st. apply RR_iter_inv.
    - intros idx q st. apply RR_body_charted_or_zero.
    - apply RR_init_charted_or_zero. }
  subst row. cbn [RR_row rowID rowExit rowWait rowBurst rowArrival] in *.
  split.
  { unfold row_process. cbn [rowID rowArrival rowBurst rowPriority].
    destruct (nth i (sort_Slice lessArrival processes) zeroProcess).
    reflexivity. }
  destruct (Hinv i) as [Hz|Hin]; [|contradiction].
  rewrite Hz. split; reflexivity.
Qed.

(** Process 2 arrives at 10, after the queue ran empty at 2: it is never
    served and its row shows the wait -13 and the exit time 0. *)
Lemma X11_witness :
  exists r,
    RRSchedule 2 [P 1 0 2; P 2 10 3] = Some r /\
    rows (snd r)
    = [Some [1; 0; 2; 0; 2; 2]; Some [2; 10; 3; -13; -10; 0]].
Proof.
  destruct (RRSchedule 2 [P 1 0 2; P 2 10 3]) as [r|] eqn:E;
    [|vm_compute in E; discriminate E].
  exists r. split; [reflexivity|].
  pose proof (X11_round_robin_rows_of_the_unserved
                2 [P 1 0 2; P 2 10 3] r 1
                (mkRow 2 0 3 10 (-13) (-10) 0) E) as Hx.
  vm_compute in E. injection E as <-.
  destruct Hx as (_ & _ & _).
  - reflexivity.
  - vm_compute. intros [Heq|[]]. discriminate Heq.
  - reflexivity.
Defined.

(** *** How long the queue loop runs *)

Lemma pending_perm l l' :
  Permutation l l' -> RRTermination.pending l = RRTermination.pending l'.
Proof. induction 1; simpl; lia. Qed.

(** X12. The queue loop of [RRSchedule] ends on every input, after at
    most [n + 1] iterations plus one for each unit of positive burst,
    where [n] is the number of processes: no input makes round-robin
    spin. *)
Theorem X12_round_robin_ends_within `{SliceSort}
  (processes : list Process) :
  exists r,
    RRSchedule
      (length processes + 2
       + Z.to_nat (RRTermination.pending (map BurstDuration processes)))
      processes
    = Some r.
Proof.
  unfold RRSchedule, RR_run.
  pose proof (sort_Slice_perm _ lessArrival processes) as Hperm.
  set (sorted := sort_Slice lessArrival processes) in *.
  rewrite (Permutation_length Hperm).
  rewrite (pending_perm _ _ (Permutation_map BurstDuration Hperm)).
  pose proof (RRTermination.pending_nonneg (map BurstDuration sorted)).
  destruct (RRTermination.loop_total sorted
              (length sorted + 2
               + Z.to_nat (RRTermination.pending
                             (map BurstDuration sorted)))
              (RR_init sorted)) as [st ->].
  - unfold RRTermination.variant. cbn [RR_init rQueue rCompletedProcesses
                                         rRemaining].
    assert (Z.of_nat (length (if (0 <? length sorted)%nat
                              then [0%nat] else [])) <= 1)
      by (destruct (0 <? length sorted)%nat; simpl; lia).
    lia.
  - cbn [option_map]. eauto.
Qed.

(** * Reading the processes *)

Import Ascii String.
Import Datatypes List.

(** ** How a call ends *)

(** A call returns, ends the program through [os.Exit], or panics. *)
Inductive Run (A : Type) : Type :=
| Done (a : A)
| Exit (code : Z)
| Panic.

Arguments Done {A} a.
Arguments Exit {A} code.
Arguments Panic {A}.

Definition bind {A B : Type} (m : Run A) (f : A -> Run B) : Run B :=
  match m with
  | Done a => f a
  | Exit code => Exit code
  | Panic => Panic
  end.

Notation "x <- m ;; k" := (bind m (fun x => k))
  (at level 100, m at next level, right associativity).

(** [for i := range a] with a body that may not return. *)
Fixpoint for_range_run {A St : Type} (body : nat -> A -> St -> Run St)
  (i : nat) (a : list A) (st : St) : Run St :=
  match a with
  | [] => Done st
  | x :: a' => st' <- body i x st ;; for_range_run body (S i) a' st'
  end.

(** ** [strconv.ParseInt] *)

(** [strconv.ParseInt(s, 10, 64)]: the integer, or [None] when the call
    returns an error. Its result is an [int64]. *)
Class Strconv := {
  ParseInt : string -> option Z;
  ParseInt_int64 : forall s i, ParseInt s = Some i -> Int64.in_range i
}.

(** The library's function: an optional sign, then one or more decimal
    digits and nothing else; an error when the number does not fit in 64
    bits. *)
Module Decimal.

Definition digit (c : ascii) : option Z :=
  let n := Z.of_nat (nat_of_ascii c) in
  if (48 <=? n) && (n <=? 57) then Some (n - 48) else None.

Fixpoint value (s : string) (acc : Z) : option Z :=
  match s with
  | EmptyString => Some acc
  | String c s' =>
      match digit c with
      | Some d => value s' (acc * 10 + d)
      | None => None
      end
  end.

Definition ParseInt (s : string) : option Z :=
  match s with
  | EmptyString => None
  | String c rest =>
      let neg := Ascii.eqb c "-" in
      let body := if Ascii.eqb c "+" || neg then rest else s in
      match body with
      | EmptyString => None
      | _ =>
          match value body 0 with
          | None => None
          | Some un =>
              if neg
              then if un <=? 2 ^ 63 then Some (- un) else None
              else if un <? 2 ^ 63 then Some un else None
          end
      end
  end.

End Decimal.

(** ** [mustStrToInt] and [loadProcesses] *)

Section Load.
Context {strconv : Strconv}.

(** On an error the function prints it on the standard error and calls
    [os.Exit(1)]. *)
Definition mustStrToInt (s : string) : Run Z :=
  match ParseInt s with
  | Some i => Done i
  | None => Exit 1
  end.

(** [rows[i][j]]: a panic when the record has no field [j]. *)
Definition field (row : list string) (j : nat) : Run string :=
  match nth_error row j with
  | Some s => Done s
  | None => Panic
  end.

(** [processes[i].F = v] for the four fields. *)
Definition assign (i : nat) (set : Process -> Process)
  (processes : list Process) : list Process :=
  upd i (set (nth i processes zeroProcess)) processes.

Definition setProcessID (v : Z) (p : Process) : Process :=
  mkProcess v (ArrivalTime p) (BurstDuration p) (Priority p).

Definition setBurstDuration (v : Z) (p : Process) : Process :=
  mkProcess (ProcessID p) (ArrivalTime p) v (Priority p).

Definition setArrivalTime (v : Z) (p : Process) : Process :=
  mkProcess (ProcessID p) v (BurstDuration p) (Priority p).

Definition setPriority (v : Z) (p : Process) : Process :=
  mkProcess (ProcessID p) (ArrivalTime p) (BurstDuration p) v.

(** The body of the loop over the records. *)
Definition loadProcesses_body (i : nat) (row : list string)
  (processes : list Process) : Run (list Process) :=
  s <- field row 0 ;;
  v <- mustStrToInt s ;;
  let processes := assign i (setProcessID v) processes in
  s <- field row 1 ;;
  v <- mustStrToInt s ;;
  let processes := assign i (setBurstDuration v) processes in
  s <- field row 2 ;;
  v <- mustStrToInt s ;;
  let processes := assign i (setArrivalTime v) processes in
  if (length row =? 4)%nat then
    s <- field row 3 ;;
    v <- mustStrToInt s ;;
    Done (assign i (setPriority v) processes)
  else Done processes.

(** [loadProcesses], from what [csv.NewReader(r).ReadAll()] returns: the
    records, or [None] for an error. The function returns the processes,
    or [None] for its own error. *)
Definition loadProcesses (readAll : option (list (list string)))
  : Run (option (list Process)) :=
  match readAll with
  | None => Done None
  | Some rows =>
      processes <- for_range_run loadProcesses_body 0 rows
                     (repeat zeroProcess (length rows)) ;;
      Done (Some processes)
  end.

(** The integer in field [j] of a record, when there is one. *)
Definition field_int (row : list string) (j : nat) : option Z :=
  match nth_error row j with
  | Some s => ParseInt s
  | None => None
  end.

(** The record holds the process: id, burst and arrival are its first
    three fields, in this order, and the priority is the fourth field of a
    record of exactly four fields, and 0 for every other record. *)
Definition loads (row : list string) (p : Process) : Prop :=
  field_int row 0 = Some (ProcessID p) /\
  field_int row 1 = Some (BurstDuration p) /\
  field_int row 2 = Some (ArrivalTime p) /\
  if (length row =? 4)%nat then field_int row 3 = Some (Priority p)
  else Priority p = 0.

(** A field that the loop reads and that is not an integer. *)
Definition bad_number (row : list string) : Prop :=
  exists j s,
    nth_error row j = Some s /\ ParseInt s = None /\
    ((j < 3)%nat \/ (j = 3%nat /\ length row = 4%nat)).

End Load.

(** ** What [loadProcesses] returns *)

Lemma upd_upd {A} i (x y : A) a : upd i x (upd i y a) = upd i x a.
Proof.
  revert i; induction a as [|z a IH]; intros [|i]; simpl; auto.
  rewrite IH. reflexivity.
Qed.

Lemma upd_middle {A} (pre : list A) x y rest :
  upd (length pre) x (pre ++ y :: rest) = pre ++ x :: rest.
Proof. induction pre as [|z pre IH]; simpl; [reflexivity|]. rewrite IH. reflexivity. Qed.

Section LoadFacts.
Context {strconv : Strconv}.

Lemma assign_upd i set x ps :
  (i < length ps)%nat -> assign i set (upd i x ps) = upd i (set x) ps.
Proof.
  intros Hi. unfold assign. rewrite nth_upd_same by exact Hi.
  apply upd_upd.
Qed.

(** One record, read on its own. *)
Definition record (row : list string) : Run Process :=
  s <- field row 0 ;;
  id <- mustStrToInt s ;;
  s <- field row 1 ;;
  burst <- mustStrToInt s ;;
  s <- field row 2 ;;
  arrival <- mustStrToInt s ;;
  if (length row =? 4)%nat then
    s <- field row 3 ;;
    priority <- mustStrToInt s ;;
    Done (mkProcess id arrival burst priority)
  else Done (mkProcess id arrival burst 0).

Fixpoint records (rows : list (list string)) : Run (list Process) :=
  match rows with
  | [] => Done []
  | row :: rows' =>
      p <- record row ;; ps <- records rows' ;; Done (p :: ps)
  end.

Lemma loadProcesses_body_record i row ps :
  (i < length ps)%nat -> nth i ps zeroProcess = zeroProcess ->
  loadProcesses_body i row ps = (p <- record row ;; Done (upd i p ps)).
Proof.
  intros Hi Hz. unfold loadProcesses_body, record.
  destruct (field row 0) as [s0| |]; cbn [bind]; try reflexivity.
  destruct (mustStrToInt s0) as [v0| |]; cbn [bind]; try reflexivity.
  destruct (field row 1) as [s1| |]; cbn [bind]; try reflexivity.
  destruct (mustStrToInt s1) as [v1| |]; cbn [bind]; try reflexivity.
  destruct (field row 2) as [s2| |]; cbn [bind]; try reflexivity.
  destruct (mustStrToInt s2) as [v2| |]; cbn [bind]; try reflexivity.
  assert (E : assign i (setArrivalTime v2)
                (assign i (setBurstDuration v1)
                   (assign i (setProcessID v0) ps))
              = upd i (mkProcess v0 v2 v1 0) ps).
  { unfold assign at 3. rewrite Hz. rewrite !assign_upd by exact Hi.
    reflexivity. }
  rewrite E. destruct (length row =? 4)%nat; [|reflexivity].
  destruct (field row 3) as [s3| |]; cbn [bind]; try reflexivity.
  destruct (mustStrToInt s3) as [v3| |]; cbn [bind]; try reflexivity.
  rewrite assign_upd by exact Hi. reflexivity.
Qed.

Lemma loadProcesses_loop_records rows :
  forall pre,
    for_range_run loadProcesses_body (length pre) rows
      (pre ++ repeat zeroProcess (length rows))
    = (ps <- records rows ;; Done (pre ++ ps)).
Proof.
  induction rows as [|row rows IH]; intros pre; cbn [for_range_run records].
  - reflexivity.
  - cbn [length repeat]. rewrite loadProcesses_body_record.
    + destruct (record row) as [p| |]; cbn [bind]; try reflexivity.
      rewrite upd_middle.
      replace (pre ++ p :: repeat zeroProcess (length rows))
        with ((pre ++ [p]) ++ repeat zeroProcess (length rows))
        by (rewrite <- app_assoc; reflexivity).
      replace (S (length pre)) with (length (pre ++ [p]))
        by (rewrite length_app; simpl; lia).
      rewrite IH.
      destruct (records rows) as [ps| |]; cbn [bind]; try reflexivity.
      rewrite <- app_assoc. reflexivity.
    + rewrite length_app. simpl. lia.
    + rewrite nth_middle. reflexivity.
Qed.

Lemma loadProcesses_records rows :
  loadProcesses (Some rows)
  = (ps <- records rows ;; Done (Some ps)).
Proof.
  unfold loadProcesses.
  pose proof (loadProcesses_loop_records rows []) as E.
  cbn [length app] in E. rewrite E.
  destruct (records rows); reflexivity.
Qed.

Lemma int_field_cases row j :
  (exists v, (s <- field row j ;; mustStrToInt s) = Done v /\
             field_int row j = Some v) \/
  ((s <- field row j ;; mustStrToInt s) = Exit 1 /\
   exists s, nth_error row j = Some s /\ ParseInt s = None) \/
  ((s <- field row j ;; mustStrToInt s) = Panic /\
   (length row <= j)%nat /\ field_int row j = None).
Proof.
  unfold field, field_int, mustStrToInt.
  destruct (nth_error row j) as [s|] eqn:E; cbn [bind].
  - destruct (ParseInt s) as [v|] eqn:Ep; eauto 6.
  - right. right. split; [reflexivity|]. split; [|reflexivity].
    apply nth_error_None. exact E.
Qed.

Lemma bind_assoc_field row j {B} (k : Z -> Run B) :
  (s <- field row j ;; v <- mustStrToInt s ;; k v)
  = (v <- (s <- field row j ;; mustStrToInt s) ;; k v).
Proof. destruct (field row j); reflexivity. Qed.

(** The three ways a record is read. *)
Lemma record_cases row :
  match record row with
  | Done p => loads row p
  | Exit code => code = 1 /\ bad_number row
  | Panic => (length row < 3)%nat
  end.
Proof.
  unfold record, loads, bad_number.
  rewrite bind_assoc_field.
  destruct (int_field_cases row 0)
    as [(v0 & -> & E0)|[(-> & s & Hs & Hp)|(-> & Hl & _)]]; cbn [bind];
    [|split; [reflexivity|]; exists 0%nat, s;
      split; [exact Hs|split; [exact Hp|left; lia]]|lia].
  rewrite bind_assoc_field.
  destruct (int_field_cases row 1)
    as [(v1 & -> & E1)|[(-> & s & Hs & Hp)|(-> & Hl & _)]]; cbn [bind];
    [|split; [reflexivity|]; exists 1%nat, s;
      split; [exact Hs|split; [exact Hp|left; lia]]|lia].
  rewrite bind_assoc_field.
  destruct (int_field_cases row 2)
    as [(v2 & -> & E2)|[(-> & s & Hs & Hp)|(-> & Hl & _)]]; cbn [bind];
    [|split; [reflexivity|]; exists 2%nat, s;
      split; [exact Hs|split; [exact Hp|left; lia]]|lia].
  destruct (length row =? 4)%nat eqn:E4.
  - apply Nat.eqb_eq in E4. rewrite bind_assoc_field.
    destruct (int_field_cases row 3)
      as [(v3 & -> & E3)|[(-> & s & Hs & Hp)|(-> & Hl & _)]]; cbn [bind].
    + cbn [ProcessID BurstDuration ArrivalTime Priority]. auto.
    + split; [reflexivity|]. exists 3%nat, s. auto.
    + lia.
  - cbn [ProcessID BurstDuration ArrivalTime Priority]. auto.
Qed.

Lemma record_loads row p : loads row p -> record row = Done p.
Proof.
  intros (E0 & E1 & E2 & E3).
  pose proof (record_cases row) as H.
  destruct (record row) as [p'| |].
  - destruct H as (E0' & E1' & E2' & E3'). f_equal.
    destruct p as [a b c d], p' as [a' b' c' d'].
    cbn [ProcessID BurstDuration ArrivalTime Priority] in *.
    destruct (length row =? 4)%nat; congruence.
  - destruct H as (_ & j & s & Hs & Hp & Hj). exfalso.
    unfold field_int in *.
    destruct Hj as [Hj|[-> Hl]].
    + destruct j as [|[|[|j]]]; [| | |lia]; rewrite Hs in *; congruence.
    + rewrite Hl in E3. cbn [Nat.eqb] in E3. rewrite Hs in E3. congruence.
  - exfalso.
    assert (Hn : nth_error row 2 <> None)
      by (unfold field_int in E2; destruct (nth_error row 2); congruence).
    apply nth_error_Some in Hn. lia.
Qed.

Lemma records_cases rows :
  match records rows with
  | Done ps => Forall2 loads rows ps
  | Exit code => code = 1 /\ Exists bad_number rows
  | Panic => Exists (fun row => (length row < 3)%nat) rows
  end.
Proof.
  induction rows as [|row rows IH]; cbn [records]; [constructor|].
  pose proof (record_cases row) as H.
  destruct (record row) as [p| |]; cbn [bind].
  - destruct (records rows) as [ps| |]; cbn [bind].
    + constructor; assumption.
    + destruct IH. split; [assumption|]. apply Exists_cons_tl. assumption.
    + apply Exists_cons_tl. assumption.
  - destruct H. split; [assumption|]. apply Exists_cons_hd. assumption.
  - apply Exists_cons_hd. assumption.
Qed.

Lemma records_loads rows ps : Forall2 loads rows ps -> records rows = Done ps.
Proof.
  induction 1 as [|row p rows ps Hp _ IH]; cbn [records]; [reflexivity|].
  rewrite (record_loads _ _ Hp). cbn [bind]. rewrite IH. reflexivity.
Qed.

Lemma loads_int64 row p : loads row p -> int64_process p.
Proof.
  unfold loads, field_int. intros (E0 & E1 & E2 & E3).
  assert (Hf : forall j v,
             match nth_error row j with
             | Some s => ParseInt s
             | None => None
             end = Some v -> Int64.in_range v).
  { intros j v E. destruct (nth_error row j) as [s|]; [|discriminate].
    eapply ParseInt_int64. exact E. }
  repeat split; try (eapply Hf; eassumption).
  - destruct (length row =? 4)%nat.
    + eapply Hf. eassumption.
    + rewrite E3. unfold Int64.MinInt64. lia.
  - destruct (length row =? 4)%nat.
    + eapply Hf. eassumption.
    + rewrite E3. unfold Int64.MaxInt64. lia.
Qed.

End LoadFacts.

(** The library's function returns an [int64]. *)
Lemma Decimal_digit_range c d : Decimal.digit c = Some d -> 0 <= d <= 9.
Proof.
  unfold Decimal.digit.
  destruct (Z.leb_spec 48 (Z.of_nat (nat_of_ascii c)));
    destruct (Z.leb_spec (Z.of_nat (nat_of_ascii c)) 57);
    cbn [andb]; intros [= <-]; lia.
Qed.

Lemma Decimal_value_lower s :
  forall acc v, 0 <= acc -> Decimal.value s acc = Some v -> acc <= v.
Proof.
  induction s as [|c s IH]; intros acc v Hacc; cbn [Decimal.value].
  - intros [= <-]. lia.
  - destruct (Decimal.digit c) as [d|] eqn:E; [|discriminate].
    apply Decimal_digit_range in E. intros Hv.
    apply IH in Hv; lia.
Qed.

Lemma Decimal_ParseInt_int64 s i :
  Decimal.ParseInt s = Some i -> Int64.in_range i.
Proof.
  unfold Decimal.ParseInt. destruct s as [|c rest]; [discriminate|].
  cbv zeta.
  destruct (if (c =? "+")%char || (c =? "-")%char then rest
            else String c rest) as [|c' body']; [discriminate|].
  destruct (Decimal.value (String c' body') 0) as [un|] eqn:E;
    [|discriminate].
  apply Decimal_value_lower in E; [|lia].
  unfold Int64.in_range, Int64.MinInt64, Int64.MaxInt64.
  destruct (c =? "-")%char.
  - destruct (Z.leb_spec un (2 ^ 63)); intros [= <-]; lia.
  - destruct (Z.ltb_spec un (2 ^ 63)); intros [= <-]; lia.
Qed.

#[export] Instance decimal : Strconv := {
  ParseInt := Decimal.ParseInt;
  ParseInt_int64 := Decimal_ParseInt_int64
}.

(** X13. [loadProcesses] returns processes exactly when every record
    holds one: its first three fields are integers, the id, the burst and
    the arrival in this order, and the priority is the fourth field of a
    record of exactly four fields and 0 for any other record. The list it
    returns has the process of each record, in the order of the records,
    and every field of every process is an [int64]. *)
Theorem X13_load_returns_the_records `{Strconv}
  (rows : list (list string)) (ps : list Process) :
  (loadProcesses (Some rows) = Done (Some ps) <-> Forall2 loads rows ps) /\
  (loadProcesses (Some rows) = Done (Some ps) -> Forall int64_process ps).
Proof.
  rewrite loadProcesses_records.
  pose proof (records_cases rows) as Hc.
  assert (Hiff : (ps0 <- records rows ;; Done (Some ps0)) = Done (Some ps)
                 <-> Forall2 loads rows ps).
  { split.
    - destruct (records rows) as [ps'| |]; cbn [bind];
        [|discriminate|discriminate].
      intros [= <-]. exact Hc.
    - intros Hl. rewrite (records_loads _ _ Hl). reflexivity. }
  split; [exact Hiff|].
  intros E. apply Hiff in E. clear Hiff Hc.
  induction E as [|row p rows ps Hp _ IH]; constructor; [|exact IH].
  eapply loads_int64. exact Hp.
Qed.

(** X14. [loadProcesses] never answers a bad record with an error value.
    When the records were read and it does not return the processes, it
    has ended the program with status 1, and then some field it reads is
    not an integer, or it has panicked on an index, and then some record
    has fewer than three fields. *)
Theorem X14_load_exits_or_panics `{Strconv} (rows : list (list string)) :
  match loadProcesses (Some rows) with
  | Done (Some ps) => length ps = length rows
  | Done None => False
  | Exit code => code = 1 /\ Exists bad_number rows
  | Panic => Exists (fun row => (length row < 3)%nat) rows
  end.
Proof.
  rewrite loadProcesses_records.
  pose proof (records_cases rows) as Hc.
  destruct (records rows) as [ps| |]; cbn [bind]; try exact Hc.
  symmetry. eapply Forall2_length. exact Hc.
Qed.

(** X15. For the processes that [loadProcesses] returns, the tick loop of
    [SJFSchedule] ends exactly when every burst lies between 1 and
    [MaxInt64 - 1]: the fields read from a file are [int64] values, and
    nothing else is needed. *)
Theorem X15_loaded_sjf_ends_iff `{Strconv}
  (rows : list (list string)) (ps : list Process)
  (Hload : loadProcesses (Some rows) = Done (Some ps)) :
  (exists fuel r, SJFSchedule fuel ps = Some r) <->
  Forall (fun p => 1 <= BurstDuration p < Int64.MaxInt64) ps.
Proof.
  assert (Hrange : Forall int64_process ps).
  { rewrite loadProcesses_records in Hload.
    pose proof (records_cases rows) as Hc.
    destruct (records rows) as [ps'| |]; cbn [bind] in Hload;
      [|discriminate|discriminate].
    injection Hload as ->. clear -Hc.
    induction Hc as [|row p rows ps Hp _ IH]; constructor; [|exact IH].
    eapply loads_int64. exact Hp. }
  split.
  - intros (fuel & r & E). apply Forall_forall. intros p Hin.
    destruct (In_nth _ _ zeroProcess Hin) as (i & Hi & Hp).
    pose proof (proj1 (Forall_forall _ _) Hrange p Hin)
      as (_ & _ & [Hlo Hhi] & _).
    destruct (Z_lt_le_dec 0 (BurstDuration p)) as [Hpos|Hneg];
      [destruct (Z.eq_dec (BurstDuration p) Int64.MaxInt64) as [Hmax|Hne];
       [|lia]|].
    + exfalso. unfold SJFSchedule, SJF_run in E.
      rewrite (SJF_diverges ps i Hi) in E; [discriminate|].
      right. rewrite Hp. exact Hmax.
    + exfalso. unfold SJFSchedule, SJF_run in E.
      rewrite (SJF_diverges ps i Hi) in E; [discriminate|].
      left. rewrite Hp. lia.
  - intros Hb. destruct (SJF_terminates ps Hrange Hb) as (fuel & st & E & _).
    exists fuel. unfold SJFSchedule, SJF_run. rewrite E.
    cbn [option_map]. eauto.
Qed.

(** A file of two records, the second with a burst of 0:
    the loop of [SJFSchedule] does not end. *)
Lemma X15_witness :
  ~ exists fuel r,
      SJFSchedule fuel [mkProcess 1 0 5 0; mkProcess 2 3 0 0] = Some r.
Proof.
  intros Hex.
  apply (X15_loaded_sjf_ends_iff
           [["1"; "5"; "0"]; ["2"; "0"; "3"]]%string
           [mkProcess 1 0 5 0; mkProcess 2 3 0 0]) in Hex.
  - inversion Hex as [|? ? _ Hrest]; subst.
    inversion Hrest as [|? ? Hb _]; subst. simpl in Hb. lia.
  - vm_compute. reflexivity.
Defined.

(** * Printing the Gantt chart *)

(** ** What is written, and how the call ends *)

(** The text a function has written to [w], with the way it ended. The
    code ignores the errors of the writer. *)
Definition Written (A : Type) : Type := string * Run A.

Definition and_then {A B : Type} (m : Written A) (f : A -> Written B)
  : Written B :=
  match m with
  | (w, Done a) => let '(w', r) := f a in ((w ++ w')%string, r)
  | (w, Exit code) => (w, Exit code)
  | (w, Panic) => (w, Panic)
  end.

Notation "x <~ m ;; k" := (and_then m (fun x => k))
  (at level 100, m at next level, right associativity).

Definition newline : string := String (ascii_of_nat 10) EmptyString.
Definition tab : string := String (ascii_of_nat 9) EmptyString.

(** [fmt.Fprint] of strings writes them one after the other, and
    [fmt.Fprintln] writes them with a space in between and a newline at
    the end. *)
Definition Fprint (operands : list string) : Written unit :=
  (String.concat "" operands, Done tt).

Definition Fprintln (operands : list string) : Written unit :=
  ((String.concat " " operands ++ newline)%string, Done tt).

(** [strings.Repeat] panics on a negative count. *)
Definition Repeat (s : string) (count : Z) : Written string :=
  if count <? 0 then (EmptyString, Panic)
  else (EmptyString, Done (String.concat "" (repeat s (Z.to_nat count)))).

(** [fmt.Sprint] of an [int64]: its decimal digits, after a minus sign
    when it is negative. An [int64] has at most 19 digits. *)
Fixpoint digits (fuel : nat) (n : Z) : string :=
  match fuel with
  | O => EmptyString
  | S fuel' =>
      let last :=
        String (ascii_of_nat (Z.to_nat (48 + n mod 10))) EmptyString in
      if n <? 10 then last else (digits fuel' (n / 10) ++ last)%string
  end.

Definition Sprint (z : Z) : string :=
  if z <? 0 then String "-" (digits 19 (- z)) else digits 19 z.

(** [for i := range a] with a body that writes. *)
Fixpoint for_range_written {A : Type} (body : nat -> A -> Written unit)
  (i : nat) (a : list A) : Written unit :=
  match a with
  | [] => (EmptyString, Done tt)
  | x :: a' => _ <~ body i x ;; for_range_written body (S i) a'
  end.

(** ** [outputGantt] *)

(** The cell of a slice in the first line of the chart. *)
Definition outputGantt_cell (i : nat) (s : TimeSlice) : Written unit :=
  let pid := Sprint (PID s) in
  padding <~ Repeat " " (Z.quot (8 - Z.of_nat (String.length pid)) 2) ;;
  Fprint [padding; pid; padding; "|"%string].

(** The entry of a slice in the second line. *)
Definition outputGantt_time (gantt : list TimeSlice) (i : nat)
  (s : TimeSlice) : Written unit :=
  _ <~ Fprint [Sprint (Start s); tab] ;;
  if (length gantt - 1 =? i)%nat then Fprint [Sprint (Stop s)]
  else (EmptyString, Done tt).

Definition outputGantt (gantt : list TimeSlice) : Written unit :=
  _ <~ Fprintln ["Gantt schedule"%string] ;;
  _ <~ Fprint ["|"%string] ;;
  _ <~ for_range_written outputGantt_cell 0 gantt ;;
  _ <~ Fprintln [] ;;
  _ <~ for_range_written (outputGantt_time gantt) 0 gantt ;;
  Fprint [(newline ++ newline)%string].

(** An id that [fmt.Sprint] writes with ten characters or more. *)
Definition wide (pid : Z) : Prop := pid <= - 10 ^ 8 \/ 10 ^ 9 <= pid.

(** ** When the chart cannot be printed *)

Lemma string_length_append (s1 s2 : string) :
  String.length (s1 ++ s2)%string
  = (String.length s1 + String.length s2)%nat.
Proof. induction s1 as [|c s1 IH]; simpl; [reflexivity|]. rewrite IH. reflexivity. Qed.

Lemma digits_nonempty fuel n :
  (1 <= fuel)%nat -> (1 <= String.length (digits fuel n))%nat.
Proof.
  destruct fuel as [|fuel]; [lia|]. intros _. cbn [digits].
  destruct (n <? 10); [simpl; lia|].
  rewrite string_length_append. simpl. lia.
Qed.

(** The number of digits written for [n]. *)
Lemma digits_length fuel :
  forall n k,
    0 <= n < 10 ^ Z.of_nat fuel -> (1 <= k)%nat ->
    (String.length (digits fuel n) <= k)%nat <-> n < 10 ^ Z.of_nat k.
Proof.
  induction fuel as [|fuel IH]; intros n k Hn Hk.
  - cbn [digits]. simpl in Hn. split; intros _; [|simpl; lia].
    assert (0 < 10 ^ Z.of_nat k) by (apply Z.pow_pos_nonneg; lia). lia.
  - cbn [digits]. rewrite Nat2Z.inj_succ, Z.pow_succ_r in Hn by lia.
    destruct (Z.ltb_spec n 10) as [Hlt|Hge].
    + split; intros _; [|simpl; lia].
      assert (10 ^ 1 <= 10 ^ Z.of_nat k)
        by (apply Z.pow_le_mono_r; lia).
      lia.
    + rewrite string_length_append. cbn [String.length].
      assert (Hq : 0 <= n / 10 < 10 ^ Z.of_nat fuel).
      { split; [apply Z.div_pos; lia|].
        apply Z.div_lt_upper_bound; lia. }
      assert (Hfuel : (1 <= fuel)%nat).
      { destruct fuel; [|lia]. simpl in Hq.
        assert (1 <= n / 10) by (apply Z.div_le_lower_bound; lia). lia. }
      pose proof (digits_nonempty fuel (n / 10) Hfuel) as Hne.
      destruct k as [|[|k]]; [lia| |].
      * change (10 ^ Z.of_nat 1) with 10. split; intros; lia.
      * specialize (IH (n / 10) (S k) Hq ltac:(lia)).
        rewrite (Nat2Z.inj_succ (S k)), Z.pow_succ_r by lia.
        set (m := 10 ^ Z.of_nat (S k)) in *.
        split; intros Hl.
        -- assert (n / 10 < m) by (apply IH; lia).
           pose proof (Z.div_mod n 10 ltac:(lia)).
           pose proof (Z.mod_pos_bound n 10 ltac:(lia)). lia.
        -- assert (n / 10 < m) by (apply Z.div_lt_upper_bound; lia).
           apply IH in H. lia.
Qed.

Lemma Sprint_wide z :
  Int64.in_range z ->
  (10 <= String.length (Sprint z))%nat <-> wide z.
Proof.
  unfold Int64.in_range, Int64.MinInt64, Int64.MaxInt64, Sprint, wide.
  intros Hz. change (10 ^ 8) with 100000000.
  change (10 ^ 9) with 1000000000.
  destruct (Z.ltb_spec z 0) as [Hneg|Hpos]; cbn [String.length].
  - pose proof (digits_length 19 (- z) 8) as H.
    change (10 ^ Z.of_nat 19) with 10000000000000000000 in H.
    change (10 ^ Z.of_nat 8) with 100000000 in H.
    specialize (H ltac:(lia) ltac:(lia)). split; intros Hl.
    + left. destruct (Z_lt_le_dec (- z) 100000000) as [Hs|Hs]; [|lia].
      apply H in Hs. lia.
    + destruct Hl as [Hl|Hl]; [|lia].
      destruct (le_lt_dec (String.length (digits 19 (- z))) 8) as [Hs|Hs];
        [|lia].
      apply H in Hs. lia.
  - pose proof (digits_length 19 z 9) as H.
    change (10 ^ Z.of_nat 19) with 10000000000000000000 in H.
    change (10 ^ Z.of_nat 9) with 1000000000 in H.
    specialize (H ltac:(lia) ltac:(lia)). split; intros Hl.
    + right. destruct (Z_lt_le_dec z 1000000000) as [Hs|Hs]; [|lia].
      apply H in Hs. lia.
    + destruct Hl as [Hl|Hl]; [lia|].
      destruct (le_lt_dec (String.length (digits 19 z)) 9) as [Hs|Hs];
        [|lia].
      apply H in Hs. lia.
Qed.

Lemma and_then_outcome {A B} (m : Written A) (f : A -> Written B) :
  snd (and_then m f)
  = match snd m with
    | Done a => snd (f a)
    | Exit code => Exit code
    | Panic => Panic
    end.
Proof.
  destruct m as [w [a|code|]]; cbn [and_then snd]; try reflexivity.
  destruct (f a). reflexivity.
Qed.

Lemma padding_count len :
  (Z.quot (8 - Z.of_nat len) 2 <? 0) = (10 <=? len)%nat.
Proof.
  destruct (Nat.leb_spec 10 len) as [Hge|Hlt].
  - apply Z.ltb_lt.
    replace (8 - Z.of_nat len) with (- (Z.of_nat len - 8)) by lia.
    rewrite Z.quot_opp_l by lia.
    rewrite Z.quot_div_nonneg by lia.
    assert (1 <= (Z.of_nat len - 8) / 2)
      by (apply Z.div_le_lower_bound; lia).
    lia.
  - do 10 (destruct len as [|len]; [reflexivity|]). lia.
Qed.

Lemma outputGantt_cell_outcome i s :
  snd (outputGantt_cell i s)
  = if (10 <=? String.length (Sprint (PID s)))%nat then Panic else Done tt.
Proof.
  unfold outputGantt_cell. rewrite and_then_outcome. unfold Repeat.
  rewrite padding_count.
  destruct (10 <=? String.length (Sprint (PID s)))%nat; reflexivity.
Qed.

Lemma outputGantt_time_outcome gantt i s :
  snd (outputGantt_time gantt i s) = Done tt.
Proof.
  unfold outputGantt_time. rewrite and_then_outcome. cbn [Fprint snd].
  destruct (length gantt - 1 =? i)%nat; reflexivity.
Qed.

Lemma for_range_written_outcome {A} (body : nat -> A -> Written unit)
  (bad : A -> bool) :
  (forall i x, snd (body i x) = if bad x then Panic else Done tt) ->
  forall a i,
    snd (for_range_written body i a)
    = if existsb bad a then Panic else Done tt.
Proof.
  intros Hbody. induction a as [|x a IH]; intros i;
    cbn [for_range_written existsb snd]; [reflexivity|].
  rewrite and_then_outcome, Hbody.
  destruct (bad x); cbn [orb]; [reflexivity|]. apply IH.
Qed.

Lemma outputGantt_outcome gantt :
  snd (outputGantt gantt)
  = if existsb (fun s => (10 <=? String.length (Sprint (PID s)))%nat) gantt
    then Panic else Done tt.
Proof.
  unfold outputGantt. rewrite !and_then_outcome. cbn [Fprintln Fprint snd].
  rewrite (for_range_written_outcome outputGantt_cell _
             outputGantt_cell_outcome).
  destruct (existsb _ gantt); [reflexivity|].
  rewrite (for_range_written_outcome (outputGantt_time gantt)
             (fun _ => false) (outputGantt_time_outcome gantt)).
  replace (existsb (fun _ : TimeSlice => false) gantt) with false;
    [reflexivity|].
  induction gantt; simpl; auto.
Qed.

Lemma outputGantt_wide gantt :
  Forall (fun s => Int64.in_range (PID s)) gantt ->
  snd (outputGantt gantt) = Panic <-> Exists (fun s => wide (PID s)) gantt.
Proof.
  intros Hr. rewrite outputGantt_outcome.
  destruct (existsb _ gantt) eqn:E.
  - split; [intros _|reflexivity].
    apply existsb_exists in E. destruct E as (s & Hin & Hs).
    apply Exists_exists. exists s. split; [exact Hin|].
    apply Sprint_wide.
    + apply (proj1 (Forall_forall _ _) Hr s Hin).
    + apply Nat.leb_le. exact Hs.
  - split; [discriminate|]. intros Hex. exfalso.
    apply Exists_exists in Hex. destruct Hex as (s & Hin & Hs).
    apply Sprint_wide in Hs;
      [|apply (proj1 (Forall_forall _ _) Hr s Hin)].
    assert (existsb
              (fun s => (10 <=? String.length (Sprint (PID s)))%nat) gantt
            = true).
    { apply existsb_exists. exists s. split; [exact Hin|].
      apply Nat.leb_le. exact Hs. }
    congruence.
Qed.

(** X16. [outputGantt] panics exactly on the charts that hold a process
    id of ten characters or more, which is an id of at least 10^9 or at
    most -10^8: the padding of its cell is [strings.Repeat] with a
    negative count. On every other chart it returns. *)
Theorem X16_gantt_panics_on_wide_ids (gantt : list TimeSlice)
  (Hpids : Forall (fun s => Int64.in_range (PID s)) gantt) :
  (snd (outputGantt gantt) = Panic <->
   Exists (fun s => wide (PID s)) gantt) /\
  (snd (outputGantt gantt) = Done tt <->
   Forall (fun s => - 10 ^ 8 < PID s < 10 ^ 9) gantt).
Proof.
  pose proof (outputGantt_wide gantt Hpids) as Hw.
  split; [exact Hw|].
  rewrite outputGantt_outcome in *.
  destruct (existsb _ gantt).
  - split; [discriminate|]. intros Hall. exfalso.
    destruct Hw as [Hw _]. specialize (Hw eq_refl).
    apply Exists_exists in Hw. destruct Hw as (s & Hin & Hs).
    pose proof (proj1 (Forall_forall _ _) Hall s Hin) as Hb.
    cbv beta in Hb. unfold wide in Hs. lia.
  - split; [intros _|reflexivity].
    apply Forall_forall. intros s Hin.
    destruct (Z_lt_le_dec (- 10 ^ 8) (PID s)) as [Hlo|Hlo];
      [destruct (Z_lt_le_dec (PID s) (10 ^ 9)) as [Hhi|Hhi]; [lia|]|].
    + assert (Hex : Exists (fun s => wide (PID s)) gantt)
        by (apply Exists_exists; exists s; unfold wide; auto).
      apply Hw in Hex. discriminate.
    + assert (Hex : Exists (fun s => wide (PID s)) gantt)
        by (apply Exists_exists; exists s; unfold wide; auto).
      apply Hw in Hex. discriminate.
Qed.

(** A chart with the id 1000000000. *)
Lemma X16_witness :
  snd (outputGantt [mkTimeSlice 1 0 5; mkTimeSlice 1000000000 5 8]) = Panic.
Proof.
  apply (X16_gantt_panics_on_wide_ids
           [mkTimeSlice 1 0 5; mkTimeSlice 1000000000 5 8]).
  - repeat constructor; vm_compute; discriminate.
  - apply Exists_cons_tl, Exists_cons_hd. right. vm_compute. discriminate.
Defined.

(** X17. [FCFSSchedule], the first schedule that [main] runs, panics in
    [outputGantt], after the title and before the table, exactly when some
    process has an id of at least 10^9 or at most -10^8: its chart holds
    the id of every process. *)
Theorem X17_fcfs_panics_on_wide_ids (processes : list Process)
  (Hids : Forall (fun p => Int64.in_range (ProcessID p)) processes) :
  snd (outputGantt (outGantt (snd (FCFSSchedule processes)))) = Panic <->
  Exists (fun p => wide (ProcessID p)) processes.
Proof.
  assert (Hg : map PID (outGantt (snd (FCFSSchedule processes)))
               = map ProcessID processes).
  { unfold FCFSSchedule, FCFS_run. cbn [snd outGantt report].
    rewrite (for_range_gantt FCFS_body fGantt); [reflexivity|].
    intros i p st. simpl. rewrite map_app. reflexivity. }
  assert (Hex : forall (Q : Z -> Prop),
             Exists (fun s => Q (PID s))
               (outGantt (snd (FCFSSchedule processes)))
             <-> Exists (fun p => Q (ProcessID p)) processes).
  { intros Q.
    rewrite <- (Exists_map PID Q), <- (Exists_map ProcessID Q), Hg.
    reflexivity. }
  rewrite outputGantt_wide; [apply Hex|].
  apply Forall_map with (f := PID) (P := Int64.in_range).
  rewrite Hg. apply Forall_map. exact Hids.
Qed.

(** The second process has the id -100000000. *)
Lemma X17_witness :
  snd (outputGantt
         (outGantt (snd (FCFSSchedule [P 1 0 5; P (-100000000) 1 3]))))
  = Panic.
Proof.
  apply (X17_fcfs_panics_on_wide_ids [P 1 0 5; P (-100000000) 1 3]).
  - repeat constructor; vm_compute; discriminate.
  - apply Exists_cons_tl, Exists_cons_hd. left. vm_compute. discriminate.
Defined.
